(** * Four-part chorale solver: a shallow embedding and its properties

    The development follows [chorale-solver.cpp] and [chorale-constants.h]:
    the scale model ([notInScale], [distanceToChord]), the chord relation
    table ([setUpChordRels]), the chord-progression search
    ([createChordProgression]), the chord-tone catalog
    ([establishNotesInChords] and the three triad fills), the two binary
    searches ([nextLowerNote], [nextHigherNote]) and the voice-leading
    search ([canCreateChoraleHelper], [canCreateChorale]).  It then follows
    the code around the solvers: the keyboard of [choraledisplay.cpp]
    ([getKeyColor], [initializeKeys], [highlightKey]), the key names
    ([setUpKeyMap]), the input loop ([getNotes]) and the menu of [main].

    Modelling conventions.
    - A C++ [int] is a [Z].  Signed overflow is undefined in C++ and every
      quantity the program computes stays far below 2^31 (pitches are at
      most 43 + 12, indices are bounded by vector sizes), so no wrap-around
      is written.  [/] and [%] are the truncating [Z.quot] and [Z.rem].
    - A [std::vector<int>] or a Stanford [Vector<int>] is a [list Z];
      [push_back] appends at the end.  [size()] is unsigned in the source;
      where it is decremented and converted to [int] the result is the
      subtraction in [Z], [-1] for [size() - 1] on an empty vector.
    - Reading a [std::vector] outside its bounds is undefined behaviour and
      a Stanford [Vector] raises [error] there; both are the outcome
      [Fault] of type [result].
    - The global [majorKey] is an explicit parameter.
    - Reference parameters that the code mutates are returned beside the
      [bool] the function returns.
    - A [std::string] is a [string].  The graphics and console libraries
      are outside the program: the display keeps what the code stores in a
      key and changes in its rectangle, and the console functions are the
      variables of a section. *)

From Stdlib Require Import Ascii String ZArith List Lia Bool Sorted.
From Equations Require Import Equations.
Import ListNotations.
Open Scope Z_scope.

(** ** Constants of [chorale-constants.h] *)

Definition BASS_MIN : Z := 0.
Definition BASS_MAX : Z := 24.
Definition TENOR_MIN : Z := 12.
Definition TENOR_MAX : Z := 31.
Definition ALTO_MIN : Z := 19.
Definition ALTO_MAX : Z := 36.
Definition SOPRANO_MIN : Z := 24.
Definition SOPRANO_MAX : Z := 43.

(** ** Outcomes of a call *)

Inductive result (A : Type) : Type :=
| Ret (a : A)      (* the call returns [a] *)
| Fault            (* out-of-bounds access: undefined behaviour or [error] *)
| OutOfFuel.       (* the recursion budget of the model was too small *)

Arguments Ret {A} a.
Arguments Fault {A}.
Arguments OutOfFuel {A}.

Definition bind {A B : Type} (m : result A) (k : A -> result B) : result B :=
  match m with
  | Ret a => k a
  | Fault => Fault
  | OutOfFuel => OutOfFuel
  end.

Notation "x <- m ;; k" := (bind m (fun x => k))
  (at level 61, m at next level, right associativity).
Notation "' pat <- m ;; k" := (bind m (fun x => match x with pat => k end))
  (at level 61, pat pattern, m at next level, right associativity).

(** ** Vectors *)

Definition size {A : Type} (v : list A) : Z := Z.of_nat (length v).

Definition push_back {A : Type} (v : list A) (x : A) : list A := v ++ [x].

(** [v[i]] *)
Definition vat {A : Type} (v : list A) (i : Z) : result A :=
  if i <? 0 then Fault
  else match nth_error v (Z.to_nat i) with
       | Some x => Ret x
       | None => Fault
       end.

(** [v.back()] *)
Definition back {A : Type} (v : list A) : result A := vat v (size v - 1).

(** Stanford [Vector::remove(index)]: removes the element at position
    [index] and shifts the later ones left; raises [error] when the index is
    outside the vector. *)
Definition vremove {A : Type} (v : list A) (index : Z) : result (list A) :=
  if (index <? 0) || (size v <=? index) then Fault
  else Ret (firstn (Z.to_nat index) v ++ skipn (S (Z.to_nat index)) v).

(** [f] applied in place to [v[i]], for an index inside the vector. *)
Fixpoint modifyAt {A : Type} (i : nat) (f : A -> A) (v : list A) : list A :=
  match v, i with
  | [], _ => []
  | x :: rest, O => f x :: rest
  | x :: rest, S i => x :: modifyAt i f rest
  end.

(** Measure of the counting loops: how far [x] is below [bound]. *)
Definition below (bound x : Z) : nat := Z.to_nat (bound - x).

Lemma below_lt (bound x y : Z) :
  x < y -> x < bound -> (below bound y < below bound x)%nat.
Proof. unfold below. lia. Qed.

#[local] Opaque below.

Ltac loop_decreases :=
  repeat match goal with x := _ |- _ => subst x end;
  apply below_lt; unfold SOPRANO_MAX in *; lia.

(** ** Scale model *)

(** [while (distance < 0) distance += 12;] *)
Equations? nonNegative (distance : Z) : Z by wf (below 0 distance) lt :=
  nonNegative distance with Z_lt_ge_dec distance 0 => {
    | left _ => nonNegative (distance + 12)
    | right _ => distance }.
Proof. loop_decreases. Qed.

Definition notInScale (nextNote startNote : Z) (majorKey : bool) : bool :=
  let distance := Z.rem (nextNote - startNote) 12 in
  let distance := nonNegative distance in
  if majorKey && ((distance =? 1) || (distance =? 3) || (distance =? 6)
                  || (distance =? 8) || (distance =? 10)) then true
  else if negb majorKey && ((distance =? 1) || (distance =? 4)
                            || (distance =? 6) || (distance =? 9)) then true
  else false.

Definition distanceToChord (majorKey : bool) (distance : Z) : Z :=
  let distance := nonNegative distance in
  if majorKey then
    match Z.rem distance 12 with
    | 0 => 1
    | 2 => 2
    | 4 => 3
    | 5 => 4
    | 7 => 5
    | 9 => 6
    | 11 => 7
    | _ => 0
    end
  else
    match Z.rem distance 12 with
    | 0 => 1
    | 2 => 2
    | 3 => 3
    | 5 => 4
    | 7 => 5
    | 8 => 6
    | 11 => 7
    | 10 => 8
    | _ => 0
    end.

(** ** Chord relation table *)

Definition setUpChordRels (majorKey : bool) : list (list Z) :=
  let chordRelations :=
    [ []; [1; 2; 3; 4; 5; 6; 7]; [5; 7]; [4; 6]; [1; 2; 5]; [1; 6]; [2; 4];
      [1; 5] ] in
  if negb majorKey then
    let chordRelations := push_back chordRelations [3] in
    modifyAt 1 (fun relations => push_back relations 8) chordRelations
  else chordRelations.

(** ** Chord-progression search *)

(** One candidate loop of the search,
    [for (int possibleChord : chordRelations[currentChord])
       if (possibleChord == candidate) {
         chords.push_back(candidate);
         if (createChordProgression(..., index + 1, ..., candidate))
           return true;
         chords.remove(index);
       }]
    where [recurse] is the recursive call on the pushed vector.  The [bool]
    of the result says whether the loop left the function with
    [return true]. *)
Fixpoint tryCandidate (recurse : list Z -> result (bool * list Z))
    (candidate index : Z) (relations chords : list Z)
  : result (bool * list Z) :=
  match relations with
  | [] => Ret (false, chords)
  | possibleChord :: rest =>
      if possibleChord =? candidate then
        '(found, chords) <- recurse (push_back chords candidate) ;;
        if found then Ret (true, chords)
        else
          chords <- vremove chords index ;;
          tryCandidate recurse candidate index rest chords
      else tryCandidate recurse candidate index rest chords
  end.

(** The recursive [createChordProgression]; [fuel] bounds the depth of the
    recursion. *)
Fixpoint createChordProgressionRec (fuel : nat) (majorKey : bool)
    (bass : list Z) (chordRelations : list (list Z))
    (index startingNote currentChord : Z) (chords : list Z)
  : result (bool * list Z) :=
  match fuel with
  | O => OutOfFuel
  | S fuel =>
      if index =? size bass - 2 then
        if negb (currentChord =? 5) then Ret (false, chords)
        else Ret (true, push_back chords 1)
      else
        next <- vat bass (index + 1) ;;
        let distance := Z.rem (next - startingNote) 12 in
        let nextChord := distanceToChord majorKey distance in
        let nextChord := if nextChord =? 7 then 5 else nextChord in
        relations <- vat chordRelations currentChord ;;
        '(found, chords) <-
          tryCandidate
            (createChordProgressionRec fuel majorKey bass chordRelations
               (index + 1) startingNote nextChord)
            nextChord index relations chords ;;
        if found then Ret (true, chords)
        else
          let firstInvChord := Z.rem (nextChord - 2) 12 in
          firstInvChord <-
            (if nextChord =? 2 then
               if majorKey then Ret 7
               else
                 nextNext <- vat bass (index + 2) ;;
                 let nextDistance := Z.rem (nextNext - startingNote) 12 in
                 let nextNextChord := distanceToChord majorKey nextDistance in
                 if nextNextChord =? 3 then Ret 8 else Ret 7
             else Ret firstInvChord) ;;
          '(found, chords) <-
            tryCandidate
              (createChordProgressionRec fuel majorKey bass chordRelations
                 (index + 1) startingNote firstInvChord)
              firstInvChord index relations chords ;;
          if found then Ret (true, chords) else Ret (false, chords)
  end.

(** The wrapper [createChordProgression]. *)
Definition createChordProgression (majorKey : bool) (bass chords : list Z)
    (chordRelations : list (list Z)) : result (bool * list Z) :=
  startingNote <- vat bass 0 ;;
  let chords := push_back chords 1 in
  createChordProgressionRec (length bass) majorKey bass chordRelations
    0 startingNote 1 chords.

(** The input contract of [getNotes]: at least three notes, each in the
    bass range and in the scale of the first, the last a multiple of an
    octave away from the first. *)
Definition validBassLine (majorKey : bool) (bass : list Z) : bool :=
  match bass with
  | [] => false
  | startNote :: _ =>
      (3 <=? size bass)
      && forallb (fun note => (BASS_MIN <=? note) && (note <=? BASS_MAX)
                              && negb (notInScale note startNote majorKey))
                 bass
      && (Z.rem (last bass 0 - startNote) 12 =? 0)
  end.

(** ** Chord-tone catalog *)

Equations? fillMajorChordVector (v : list Z) (index : Z) : list Z
  by wf (below (SOPRANO_MAX + 1) index) lt :=
  fillMajorChordVector v index with Z_le_gt_dec index SOPRANO_MAX => {
    | left _ =>
        let v := push_back v index in
        let index := index + 4 in
        if index <=? SOPRANO_MAX then
          let v := push_back v index in
          let index := index + 3 in
          if index <=? SOPRANO_MAX then
            let v := push_back v index in
            let index := index + 5 in
            fillMajorChordVector v index
          else fillMajorChordVector v index
        else fillMajorChordVector v index
    | right _ => v }.
Proof. all: loop_decreases. Qed.

Equations? fillMinorChordVector (v : list Z) (index : Z) : list Z
  by wf (below (SOPRANO_MAX + 1) index) lt :=
  fillMinorChordVector v index with Z_le_gt_dec index SOPRANO_MAX => {
    | left _ =>
        let v := push_back v index in
        let index := index + 3 in
        if index <=? SOPRANO_MAX then
          let v := push_back v index in
          let index := index + 4 in
          if index <=? SOPRANO_MAX then
            let v := push_back v index in
            let index := index + 5 in
            fillMinorChordVector v index
          else fillMinorChordVector v index
        else fillMinorChordVector v index
    | right _ => v }.
Proof. all: loop_decreases. Qed.

Equations? fillDimChordVector (v : list Z) (index : Z) : list Z
  by wf (below (SOPRANO_MAX + 1) index) lt :=
  fillDimChordVector v index with Z_le_gt_dec index SOPRANO_MAX => {
    | left _ =>
        let v := push_back v index in
        let index := index + 3 in
        if index <=? SOPRANO_MAX then
          let v := push_back v index in
          let index := index + 3 in
          if index <=? SOPRANO_MAX then
            let v := push_back v index in
            let index := index + 6 in
            fillDimChordVector v index
          else fillDimChordVector v index
        else fillDimChordVector v index
    | right _ => v }.
Proof. all: loop_decreases. Qed.

(** [while (startNote >= 12) startNote -= 12;] *)
Equations? lowestOctave (startNote : Z) : Z by wf (Z.to_nat startNote) lt :=
  lowestOctave startNote with Z_ge_lt_dec startNote 12 => {
    | left _ => lowestOctave (startNote - 12)
    | right _ => startNote }.
Proof. lia. Qed.

(** The catalog under construction and the running [distance]. *)
Definition catalogState : Type := (list (list Z) * Z)%type.

(** Body of the major-key loop of [establishNotesInChords] at [i]. *)
Definition majorDegree (startNote : Z) (st : catalogState) (i : Z)
  : catalogState :=
  let '(notesInChords, distance) := st in
  let notesInChords :=
    if (i =? 1) || (i =? 4) || (i =? 5) then
      modifyAt (Z.to_nat i)
        (fun v => fillMajorChordVector v (startNote + distance)) notesInChords
    else notesInChords in
  let notesInChords :=
    if (i =? 2) || (i =? 3) || (i =? 6) then
      modifyAt (Z.to_nat i)
        (fun v => fillMinorChordVector v (startNote + distance)) notesInChords
    else notesInChords in
  let notesInChords :=
    if i =? 7 then
      modifyAt (Z.to_nat i)
        (fun v => fillDimChordVector v (startNote + distance)) notesInChords
    else notesInChords in
  let distance := distance + 1 in
  let distance := if negb (i =? 3) then distance + 1 else distance in
  (notesInChords, distance).

(** Body of the minor-key loop of [establishNotesInChords] at [i]. *)
Definition minorDegree (startNote : Z) (st : catalogState) (i : Z)
  : catalogState :=
  let '(notesInChords, distance) := st in
  let notesInChords :=
    if (i =? 3) || (i =? 5) || (i =? 6) || (i =? 8) then
      modifyAt (Z.to_nat i)
        (fun v => fillMajorChordVector v (startNote + distance)) notesInChords
    else notesInChords in
  let notesInChords :=
    if (i =? 1) || (i =? 4) then
      modifyAt (Z.to_nat i)
        (fun v => fillMinorChordVector v (startNote + distance)) notesInChords
    else notesInChords in
  let notesInChords :=
    if (i =? 2) || (i =? 7) then
      modifyAt (Z.to_nat i)
        (fun v => fillDimChordVector v (startNote + distance)) notesInChords
    else notesInChords in
  let distance := distance + 1 in
  let distance :=
    if negb (i =? 2) && negb (i =? 5) then distance + 1 else distance in
  let distance := if i =? 6 then distance + 1 else distance in
  let distance := if i =? 7 then distance - 2 else distance in
  (notesInChords, distance).

Definition establishNotesInChords (startNote : Z) (majorKey : bool)
  : list (list Z) :=
  let startNote := lowestOctave startNote in
  let distance := 0 in
  let notesInChords := repeat ([] : list Z) 9 in
  if majorKey then
    fst (fold_left (majorDegree startNote) [1; 2; 3; 4; 5; 6; 7]
           (notesInChords, distance))
  else
    fst (fold_left (minorDegree startNote) [1; 2; 3; 4; 5; 6; 7; 8]
           (notesInChords, distance)).

(** ** Nearest-tone search *)

(** The loop of [nextLowerNote] from the state [(lhs, rhs)], with the
    [return chord[rhs]] that follows it. *)
Fixpoint lowerSearch (fuel : nat) (chord : list Z) (note lhs rhs : Z)
  : result Z :=
  if lhs <=? rhs then
    match fuel with
    | O => OutOfFuel
    | S fuel =>
        let avg := Z.quot (lhs + rhs) 2 in
        mid <- vat chord avg ;;
        if mid =? note then Ret mid
        else if mid <? note then lowerSearch fuel chord note (avg + 1) rhs
        else lowerSearch fuel chord note lhs (avg - 1)
    end
  else vat chord rhs.

Definition nextLowerNote (chord : list Z) (note : Z) : result Z :=
  let lhs := 0 in
  let rhs := size chord - 1 in
  lowerSearch (length chord) chord note lhs rhs.

(** The loop of [nextHigherNote] from the state [(lhs, rhs)], with the
    [return chord[lhs]] that follows it. *)
Fixpoint higherSearch (fuel : nat) (chord : list Z) (note lhs rhs : Z)
  : result Z :=
  if lhs <=? rhs then
    match fuel with
    | O => OutOfFuel
    | S fuel =>
        let avg := Z.quot (lhs + rhs + 1) 2 in
        mid <- vat chord avg ;;
        if mid =? note then Ret mid
        else if mid <? note then higherSearch fuel chord note (avg + 1) rhs
        else higherSearch fuel chord note lhs (avg - 1)
    end
  else vat chord lhs.

Definition nextHigherNote (chord : list Z) (note : Z) : result Z :=
  let lhs := 0 in
  let rhs := size chord - 1 in
  higherSearch (length chord) chord note lhs rhs.

(** ** Voice-leading search *)

Record voices : Type := mkVoices {
  soprano : list Z;
  alto : list Z;
  tenor : list Z }.

(** Short-circuit [||] and [&&] over operands that may fault. *)
Definition orElse (a b : result bool) : result bool :=
  x <- a ;; if x then Ret true else b.
Definition andAlso (a b : result bool) : result bool :=
  x <- a ;; if x then b else Ret false.

Notation "a <||> b" := (orElse a b) (at level 51, right associativity).
Notation "a <&&> b" := (andAlso a b) (at level 41, right associativity).

(** [v.back() > bound] and [v.back() < bound] *)
Definition backAbove (v : list Z) (bound : Z) : result bool :=
  x <- back v ;; Ret (x >? bound).
Definition backBelow (v : list Z) (bound : Z) : result bool :=
  x <- back v ;; Ret (x <? bound).

(** What one call of [canCreateChoraleHelper] does before it recurses:
    [Reject] is a [return false], [Advance] the recursive call on the next
    index with the voices and the flag it is given. *)
Inductive step : Type :=
| Reject (v : voices)
| Advance (v : voices) (LTCorrected : bool).

(** The voice-crossing check,
    [if (index < (int)(bass.size() - 1))
       if (tenor.back() < bass[index + 1]) return false;] *)
Definition crossesBass (bass : list Z) (index : Z) (v : voices)
  : result bool :=
  if index <? size bass - 1 then
    t <- back (tenor v) ;;
    upcoming <- vat bass (index + 1) ;;
    Ret (t <? upcoming)
  else Ret false.

(** The body of [canCreateChoraleHelper] below its base case. *)
Definition choraleStep (majorKey : bool) (chords : list Z)
    (notesInChords : list (list Z)) (bass : list Z) (index : Z)
    (LTCorrected : bool) (v : voices) : result step :=
  outOfRange <-
    (backAbove (soprano v) SOPRANO_MAX <||> backAbove (alto v) ALTO_MAX
     <||> backAbove (tenor v) TENOR_MAX <||> backBelow (soprano v) SOPRANO_MIN
     <||> backBelow (alto v) ALTO_MIN <||> backBelow (tenor v) TENOR_MIN) ;;
  if outOfRange then Ret (Reject v)
  else
    current <- vat bass index ;;
    previous <- vat bass (index - 1) ;;
    if (current <? previous) || (current - previous =? 5) then
      chord <- vat chords index ;;
      notes <- vat notesInChords chord ;;
      s <- back (soprano v) ;;
      s <- nextHigherNote notes (if LTCorrected then s - 3 else s) ;;
      a <- back (alto v) ;;
      a <- nextHigherNote notes a ;;
      t <- back (tenor v) ;;
      t <- nextHigherNote notes t ;;
      let v := mkVoices (push_back (soprano v) s) (push_back (alto v) a)
                 (push_back (tenor v) t) in
      tooHigh <-
        (backAbove (soprano v) SOPRANO_MAX <||> backAbove (alto v) ALTO_MAX
         <||> backAbove (tenor v) TENOR_MAX) ;;
      if tooHigh then Ret (Reject v)
      else
        crossing <- crossesBass bass index v ;;
        if crossing then Ret (Reject v) else Ret (Advance v LTCorrected)
    else if current >? previous then
      previousChord <- vat chords (index - 1) ;;
      leading <-
        (Ret (previousChord =? 5)
         <&&> (s <- back (soprano v) ;;
              tonic <- vat bass 0 ;;
              Ret (distanceToChord majorKey (s - tonic) =? 7))) ;;
      '(s, LTCorrected) <-
        (if leading then
           leadingTone <- back (soprano v) ;;
           Ret (leadingTone + 1, true)
         else if LTCorrected then
           chord <- vat chords index ;;
           notes <- vat notesInChords chord ;;
           s <- back (soprano v) ;;
           s <- nextLowerNote notes (s - 3) ;;
           Ret (s, false)
         else
           chord <- vat chords index ;;
           notes <- vat notesInChords chord ;;
           s <- back (soprano v) ;;
           s <- nextLowerNote notes s ;;
           Ret (s, LTCorrected)) ;;
      chord <- vat chords index ;;
      notes <- vat notesInChords chord ;;
      a <- back (alto v) ;;
      a <- nextLowerNote notes a ;;
      t <- back (tenor v) ;;
      t <- nextLowerNote notes t ;;
      let v := mkVoices (push_back (soprano v) s) (push_back (alto v) a)
                 (push_back (tenor v) t) in
      crossing <- crossesBass bass index v ;;
      if crossing then Ret (Reject v) else Ret (Advance v LTCorrected)
    else Ret (Advance v LTCorrected).

(** [canCreateChoraleHelper]; [fuel] bounds the depth of the recursion. *)
Fixpoint canCreateChoraleHelper (fuel : nat) (majorKey : bool)
    (chords : list Z) (notesInChords : list (list Z)) (bass : list Z)
    (index : Z) (LTCorrected : bool) (v : voices) : result (bool * voices) :=
  match fuel with
  | O => OutOfFuel
  | S fuel =>
      if index >=? size chords then Ret (true, v)
      else
        next <- choraleStep majorKey chords notesInChords bass index
                  LTCorrected v ;;
        match next with
        | Reject v => Ret (false, v)
        | Advance v LTCorrected =>
            canCreateChoraleHelper fuel majorKey chords notesInChords bass
              (index + 1) LTCorrected v
        end
  end.

(** One starting voicing: the three pushes and the helper call. *)
Definition tryVoicing (majorKey : bool) (chords : list Z)
    (notesInChords : list (list Z)) (bass : list Z) (v : voices)
    (s a t : Z) : result (bool * voices) :=
  let v := mkVoices (push_back (soprano v) s) (push_back (alto v) a)
             (push_back (tenor v) t) in
  canCreateChoraleHelper (S (length chords)) majorKey chords notesInChords
    bass 1 false v.

(** [soprano.clear(); alto.clear(); tenor.clear();] *)
Definition cleared : voices := mkVoices [] [] [].

(** [((notesInChords[1].size() - 1) / 3) * 3] converted to [int].  The
    arithmetic is unsigned: on an empty entry [size() - 1] is the largest
    unsigned value, a multiple of 3, and the conversion gives [-1]. *)
Definition highestTonic (tonicNotes : list Z) : Z :=
  if size tonicNotes =? 0 then -1
  else Z.quot (size tonicNotes - 1) 3 * 3.

(** The test that moves the first starting voicing an octave down,
    [(notesInChords[1][highestTonicIndex - 1] > ALTO_MAX
      || notesInChords[1][highestTonicIndex - 2] > TENOR_MAX)
     && notesInChords[1][highestTonicIndex - 3] > SOPRANO_MIN]. *)
Definition startsOctaveLower (tonicNotes : list Z) (highestTonicIndex : Z)
  : result bool :=
  ((x <- vat tonicNotes (highestTonicIndex - 1) ;; Ret (x >? ALTO_MAX))
   <||> (x <- vat tonicNotes (highestTonicIndex - 2) ;; Ret (x >? TENOR_MAX)))
  <&&> (x <- vat tonicNotes (highestTonicIndex - 3) ;; Ret (x >? SOPRANO_MIN)).

Definition canCreateChorale (majorKey : bool) (chords : list Z)
    (notesInChords : list (list Z)) (v : voices) (bass : list Z)
  : result (bool * voices) :=
  tonicNotes <- vat notesInChords 1 ;;
  let highestTonicIndex := highestTonic tonicNotes in
  lower <- startsOctaveLower tonicNotes highestTonicIndex ;;
  let highestTonicIndex :=
    if lower then highestTonicIndex - 3 else highestTonicIndex in
  s <- vat tonicNotes highestTonicIndex ;;
  a <- vat tonicNotes (highestTonicIndex - 1) ;;
  t <- vat tonicNotes (highestTonicIndex - 2) ;;
  '(found, v) <- tryVoicing majorKey chords notesInChords bass v s a t ;;
  if found then Ret (true, v)
  else
    let v := cleared in
    above <- vat tonicNotes (highestTonicIndex + 3) ;;
    let highestTonicIndex :=
      if above <=? SOPRANO_MAX then highestTonicIndex + 3
      else highestTonicIndex in
    second <-
      (x <- vat tonicNotes (highestTonicIndex - 4) ;;
       first <- vat bass 0 ;; Ret (x >? first))
      <&&> (x <- vat tonicNotes (highestTonicIndex - 4) ;;
            Ret (x >? TENOR_MIN)) ;;
    '(found, v) <-
      (if second then
         s <- vat tonicNotes highestTonicIndex ;;
         a <- vat tonicNotes (highestTonicIndex - 2) ;;
         t <- vat tonicNotes (highestTonicIndex - 4) ;;
         tryVoicing majorKey chords notesInChords bass v s a t
       else Ret (false, v)) ;;
    if found then Ret (true, v)
    else
      let v := cleared in
      mediant <- vat tonicNotes (highestTonicIndex + 1) ;;
      if mediant <=? SOPRANO_MAX then
        s <- vat tonicNotes (highestTonicIndex + 1) ;;
        a <- vat tonicNotes highestTonicIndex ;;
        t <- vat tonicNotes (highestTonicIndex - 1) ;;
        '(found, v) <- tryVoicing majorKey chords notesInChords bass v s a t ;;
        if found then Ret (true, v) else Ret (false, v)
      else
        x <- vat tonicNotes (highestTonicIndex - 4) ;;
        first <- vat bass 0 ;;
        if x >? first then
          s <- vat tonicNotes (highestTonicIndex - 2) ;;
          a <- vat tonicNotes highestTonicIndex ;;
          t <- vat tonicNotes (highestTonicIndex - 1) ;;
          '(found, v) <-
            tryVoicing majorKey chords notesInChords bass v s a t ;;
          if found then Ret (true, v) else Ret (false, v)
        else Ret (false, v).

(** ** Specification vocabulary *)

(** A strictly ascending vector: every element is below all later ones. *)
Definition StrictlyAscending (v : list Z) : Prop := StronglySorted Z.lt v.

(** [x] is the largest element of [chord] that is at most [note]. *)
Definition greatestAtOrBelow (chord : list Z) (note x : Z) : Prop :=
  In x chord /\ x <= note /\ forall u, In u chord -> u <= note -> u <= x.

(** [x] is the smallest element of [chord] that is at least [note]. *)
Definition leastAtOrAbove (chord : list Z) (note x : Z) : Prop :=
  In x chord /\ note <= x /\ forall u, In u chord -> note <= u -> x <= u.

(** The range test of [canCreateChoraleHelper] on the latest pitches
    [s], [a], [t] of the three lines passes. *)
Definition inRange (s a t : Z) : bool :=
  negb ((s >? SOPRANO_MAX) || (a >? ALTO_MAX) || (t >? TENOR_MAX)
        || (s <? SOPRANO_MIN) || (a <? ALTO_MIN) || (t <? TENOR_MIN)).

(** The voices a step leaves and the flag it hands to the next step. *)
Definition stepVoices (r : step) : voices :=
  match r with
  | Reject v => v
  | Advance v _ => v
  end.

Definition stepFlag (r : step) : option bool :=
  match r with
  | Reject _ => None
  | Advance _ LTCorrected => Some LTCorrected
  end.

(** What the two searches answer: an element, or a read outside the vector
    exactly when no element qualifies. *)
Definition lowerAnswer (chord : list Z) (note : Z) (r : result Z) : Prop :=
  match r with
  | Ret x => greatestAtOrBelow chord note x
  | Fault => forall u, In u chord -> note < u
  | OutOfFuel => False
  end.

Definition higherAnswer (chord : list Z) (note : Z) (r : result Z) : Prop :=
  match r with
  | Ret x => leastAtOrAbove chord note x
  | Fault => forall u, In u chord -> u < note
  | OutOfFuel => False
  end.

(** The invariant of the two search loops: everything left of [lhs] is
    below [note], everything right of [rhs] is above it. *)
Definition bracket (chord : list Z) (note lhs rhs : Z) : Prop :=
  0 <= lhs /\ lhs <= rhs + 1 /\ rhs < size chord
  /\ (forall i a, i < lhs -> vat chord i = Ret a -> a < note)
  /\ (forall i a, rhs < i -> vat chord i = Ret a -> note < a).


(** The reads of the fallback voicings of [canCreateChorale] can all fall
    inside the tonic entry only if the first voicing starts an octave
    below the highest tonic and the entry has a pitch above the highest
    tonic. *)
Definition roomForFalse (tonicNotes : list Z) : bool :=
  let highestTonicIndex := highestTonic tonicNotes in
  match startsOctaveLower tonicNotes highestTonicIndex with
  | Ret true => highestTonicIndex + 1 <? size tonicNotes
  | _ => false
  end.

(** * The keyboard display and the program around the solvers *)

(** ** Keyboard display ([choraledisplay.h], [choraledisplay.cpp])

    The graphics library is outside the program.  A key keeps what the
    code stores in it and what it later changes in the rectangle the key
    points to: whether the rectangle is filled and the fill colour it was
    given last, if any.  The coordinates of a rectangle and of a label
    are [KEY_WIDTH * keyCount] plus a constant of the key colour, so
    [keyCount] stands for them.  The window is the sequence of the
    objects handed to [window.add], oldest first. *)

Definition N_WHITE_KEYS : Z := 26.
Definition N_KEYS : Z := 44.

Inductive KeyColor : Type := BLACK | WHITE.

Record Key : Type := mkKey {
  filled : bool;
  fillColor : option string;
  color : KeyColor;
  number : Z;
  keyCount : Z }.

Inductive GObject : Type :=
| RectOf (keyNumber : Z)
| LabelOf (keyNumber : Z).

Record ChoraleDisplay : Type := mkDisplay {
  window : list GObject;
  keys : list Key }.

Definition getKeyColor (keyNumber : Z) : KeyColor :=
  let index := Z.rem keyNumber 12 in
  if (index =? 0) || (index =? 2) || (index =? 4) || (index =? 5)
     || (index =? 7) || (index =? 9) || (index =? 11) then WHITE
  else BLACK.

(** [window.add(key.rect); window.add(key.label);] *)
Definition draw (d : ChoraleDisplay) (key : Key) : ChoraleDisplay :=
  mkDisplay (window d ++ [RectOf (number key); LabelOf (number key)])
    (keys d).

(** [keys.push_back(key)] followed by the two [window.add] calls. *)
Definition addKey (d : ChoraleDisplay) (key : Key) : ChoraleDisplay :=
  draw (mkDisplay (window d) (push_back (keys d) key)) key.

(** The loop of [initializeKeys] from key [i] on. *)
Equations? initializeKeysFrom (i whiteKeyCounter blackKeyCounter : Z)
    (d : ChoraleDisplay) : ChoraleDisplay by wf (below N_KEYS i) lt :=
  initializeKeysFrom i whiteKeyCounter blackKeyCounter d
    with Z_lt_ge_dec i N_KEYS => {
    | left _ =>
        match getKeyColor i with
        | WHITE =>
            let whiteKey := mkKey false None WHITE i whiteKeyCounter in
            initializeKeysFrom (i + 1) (whiteKeyCounter + 1) blackKeyCounter
              (addKey d whiteKey)
        | BLACK =>
            let blackKeyCounter :=
              if (Z.rem blackKeyCounter 7 =? 2)
                 || (Z.rem blackKeyCounter 7 =? 6)
              then blackKeyCounter + 1 else blackKeyCounter in
            let blackKey := mkKey true None BLACK i blackKeyCounter in
            initializeKeysFrom (i + 1) whiteKeyCounter (blackKeyCounter + 1)
              (addKey d blackKey)
        end
    | right _ => d }.
Proof. all: apply below_lt; unfold N_KEYS in *; lia. Qed.

Definition initializeKeys (d : ChoraleDisplay) : ChoraleDisplay :=
  initializeKeysFrom 0 0 0 d.

(** The constructor: an empty window, then [initializeKeys]. *)
Definition newChoraleDisplay : ChoraleDisplay :=
  initializeKeys (mkDisplay [] []).

(** [keys[keyNumber].rect->setFillColor(c)] and [->setFilled(b)]: the
    rectangle is shared with the copy [key] the code works on. *)
Definition setFillColor (keyNumber : Z) (c : string)
    (d : ChoraleDisplay) : ChoraleDisplay :=
  mkDisplay (window d)
    (modifyAt (Z.to_nat keyNumber)
       (fun key => mkKey (filled key) (Some c) (color key) (number key)
                     (keyCount key))
       (keys d)).

Definition setFilled (keyNumber : Z) (b : bool) (d : ChoraleDisplay)
  : ChoraleDisplay :=
  mkDisplay (window d)
    (modifyAt (Z.to_nat keyNumber)
       (fun key => mkKey b (fillColor key) (color key) (number key)
                     (keyCount key))
       (keys d)).

(** The redraw of a white key and of its two neighbours. *)
Definition drawWithNeighbours (d : ChoraleDisplay) (keyNumber : Z)
    (key : Key) : result ChoraleDisplay :=
  let d := draw d key in
  lowerNeighbour <- vat (keys d) (keyNumber - 1) ;;
  let d := draw d lowerNeighbour in
  upperNeighbour <- vat (keys d) (keyNumber + 1) ;;
  Ret (draw d upperNeighbour).

(** The parameter [color] of the source is [colorName] here. *)
Definition highlightKey (d : ChoraleDisplay) (keyNumber : Z)
    (colorName : string) (flag : bool) : result ChoraleDisplay :=
  key <- vat (keys d) keyNumber ;;
  if flag then
    let d :=
      if String.eqb colorName "blue"
      then setFillColor keyNumber "#0040c0" d
      else if String.eqb colorName "green"
      then setFillColor keyNumber "#008000" d
      else if String.eqb colorName "red"
      then setFillColor keyNumber "#ff0000" d
      else if String.eqb colorName "purple"
      then setFillColor keyNumber "#800080" d
      else d in
    match color key with
    | WHITE =>
        let d := setFilled keyNumber true d in
        drawWithNeighbours d keyNumber key
    | BLACK => Ret (draw d key)
    end
  else
    let d := setFillColor keyNumber "#000000" d in
    match getKeyColor keyNumber with
    | WHITE =>
        let d := setFilled keyNumber false d in
        drawWithNeighbours d keyNumber key
    | BLACK => Ret (draw d key)
    end.

(** ** Key names ([setUpKeyMap])

    The global [keyMap] is a [Map<int, std::string>]; [keyMap[i] = name]
    adds the binding or replaces the one of [i].  It is an association
    list here, the newest binding of a key first. *)

Definition Map : Type := list (Z * string).

Fixpoint get (keyMap : Map) (key : Z) : option string :=
  match keyMap with
  | [] => None
  | (k, name) :: rest => if k =? key then Some name else get rest key
  end.

Definition put (keyMap : Map) (key : Z) (name : string) : Map :=
  (key, name) :: keyMap.

(** The loop of [setUpKeyMap] from key [i] on. *)
Equations? setUpKeyMapFrom (i : Z) (keyMap : Map) : Map
  by wf (below (SOPRANO_MAX + 1) i) lt :=
  setUpKeyMapFrom i keyMap with Z_le_gt_dec i SOPRANO_MAX => {
    | left _ =>
        let keyMap :=
          if Z.rem i 12 =? 0 then put keyMap i "C"
          else if Z.rem i 12 =? 1 then put keyMap i "C#"
          else if Z.rem i 12 =? 2 then put keyMap i "D"
          else if Z.rem i 12 =? 3 then put keyMap i "Eb"
          else if Z.rem i 12 =? 4 then put keyMap i "E"
          else if Z.rem i 12 =? 5 then put keyMap i "F"
          else if Z.rem i 12 =? 6 then put keyMap i "F#"
          else if Z.rem i 12 =? 7 then put keyMap i "G"
          else if Z.rem i 12 =? 8 then put keyMap i "Ab"
          else if Z.rem i 12 =? 9 then put keyMap i "A"
          else if Z.rem i 12 =? 10 then put keyMap i "Bb"
          else if Z.rem i 12 =? 11 then put keyMap i "B"
          else keyMap in
        setUpKeyMapFrom (i + 1) keyMap
    | right _ => keyMap }.
Proof. loop_decreases. Qed.

Definition setUpKeyMap (keyMap : Map) : Map :=
  setUpKeyMapFrom BASS_MIN keyMap.

(** ** The console programs ([getNotes], [main])

    The console library is outside the program: its functions are the
    variables of this section, each result as the program sees it
    ([Fault] where the library raises an error).  The console input is
    the list of the lines not read yet; when a read finds it empty the
    run has used up what the user typed and the outcome is [OutOfFuel].
    Output to [std::cout] and the pauses are left out.  The loops take
    the number of iterations they may run as [fuel]. *)

Section Console.

Variable toLowerCase : string -> string.
Variable toUpperCase : string -> string.
Variable trim : string -> string.
Variable stringToInteger : string -> result Z.
Variable getInteger : list string -> result (Z * list string).

Definition getLine (input : list string) : result (string * list string) :=
  match input with
  | line :: rest => Ret (line, rest)
  | [] => OutOfFuel
  end.

(** [while (startNote < BASS_MIN || startNote > BASS_MAX)
       startNote = getInteger("Please try again: ");] *)
Fixpoint getStartNote (fuel : nat) (startNote : Z) (input : list string)
  : result (Z * list string) :=
  match fuel with
  | O => OutOfFuel
  | S fuel =>
      if (startNote <? BASS_MIN) || (startNote >? BASS_MAX) then
        '(startNote, input) <- getInteger input ;;
        getStartNote fuel startNote input
      else Ret (startNote, input)
  end.

(** [display.highlightKey(note, color, true); pause(...);
     display.highlightKey(note, color, false);] *)
Definition flashKey (d : ChoraleDisplay) (note : Z) (colorName : string)
  : result ChoraleDisplay :=
  d <- highlightKey d note colorName true ;;
  highlightKey d note colorName false.

(** The variables of the note loop of [getNotes]: [bassLine],
    [nextNoteStr], the display and the console input. *)
Record noteState : Type := mkNoteState {
  notes : list Z;
  line : string;
  display : ChoraleDisplay;
  console : list string }.

Inductive noteStep : Type :=
| Break (st : noteState)
| Continue (st : noteState).

(** [nextNoteStr = getLine(...)] *)
Definition askNote (st : noteState) : result noteState :=
  '(nextNoteStr, rest) <- getLine (console st) ;;
  Ret (mkNoteState (notes st) nextNoteStr (display st) rest).

(** The loop body from [int nextNote = stringToInteger(nextNoteStr)] on. *)
Definition readNote (majorKey : bool) (startNote : Z) (st : noteState)
  : result noteStep :=
  nextNote <- stringToInteger (line st) ;;
  if (nextNote <? BASS_MIN) || (nextNote >? BASS_MAX) then
    st <- askNote st ;; Ret (Continue st)
  else if notInScale nextNote startNote majorKey then
    st <- askNote st ;; Ret (Continue st)
  else
    let bassLine := push_back (notes st) nextNote in
    d <- flashKey (display st) nextNote "purple" ;;
    st <- askNote (mkNoteState bassLine (line st) d (console st)) ;;
    Ret (Continue st).

(** One iteration of [while (true)]: a rejected [done] asks for a line and
    goes on to read that line as a note. *)
Definition getNotesStep (majorKey : bool) (startNote : Z) (st : noteState)
  : result noteStep :=
  if String.eqb (toLowerCase (line st)) "done" then
    if size (notes st) <? 3 then
      st <- askNote st ;; readNote majorKey startNote st
    else
      lastNote <- back (notes st) ;;
      if negb (Z.rem (lastNote - startNote) 12 =? 0) then
        st <- askNote st ;; readNote majorKey startNote st
      else Ret (Break st)
  else readNote majorKey startNote st.

Fixpoint getNotesLoop (fuel : nat) (majorKey : bool) (startNote : Z)
    (st : noteState) : result noteState :=
  match fuel with
  | O => OutOfFuel
  | S fuel =>
      step <- getNotesStep majorKey startNote st ;;
      match step with
      | Break st => Ret st
      | Continue st => getNotesLoop fuel majorKey startNote st
      end
  end.

(** [getNotes]: the key mode it stores in the global [majorKey], the bass
    line, the display and the rest of the input. *)
Definition getNotes (fuel : nat) (d : ChoraleDisplay) (input : list string)
  : result (bool * list Z * ChoraleDisplay * list string) :=
  '(majorMinor, input) <- getLine input ;;
  let majorKey := negb (String.eqb (toLowerCase majorMinor) "minor") in
  '(startNote, input) <- getInteger input ;;
  '(startNote, input) <- getStartNote fuel startNote input ;;
  let bassLine := push_back [] startNote in
  d <- flashKey d startNote "purple" ;;
  '(nextNoteStr, input) <- getLine input ;;
  st <- getNotesLoop fuel majorKey startNote
          (mkNoteState bassLine nextNoteStr d input) ;;
  Ret (majorKey, notes st, display st, console st).

(** What choice 1 of the menu ends in, with the vectors it has built. *)
Inductive solved : Type :=
| NoProgression (bass : list Z)
| NoSolution (bass chords : list Z)
| Harmonized (bass chords : list Z) (v : voices).

(** The body of the loop that shows the chorale, at index [i]. *)
Definition showChord (d : ChoraleDisplay) (v : voices) (bass : list Z)
    (i : Z) : result ChoraleDisplay :=
  s <- vat (soprano v) i ;;
  d <- highlightKey d s "blue" true ;;
  a <- vat (alto v) i ;;
  d <- highlightKey d a "green" true ;;
  t <- vat (tenor v) i ;;
  d <- highlightKey d t "red" true ;;
  b <- vat bass i ;;
  d <- highlightKey d b "purple" true ;;
  d <- highlightKey d s "blue" false ;;
  d <- highlightKey d a "green" false ;;
  d <- highlightKey d t "red" false ;;
  highlightKey d b "purple" false.

(** [for (int i = 0; i < bass.size(); ++i)], with [count] iterations to
    go from [i]. *)
Fixpoint showChorale (count : nat) (d : ChoraleDisplay) (v : voices)
    (bass : list Z) (i : Z) : result ChoraleDisplay :=
  match count with
  | O => Ret d
  | S count =>
      d <- showChord d v bass i ;;
      showChorale count d v bass (i + 1)
  end.

(** Choice 1 of [main].  The relation table is set up from the global
    [majorKey] before [getNotes] stores the key mode of this bass line
    in it. *)
Definition inputBassLine (fuel : nat) (majorKey : bool)
    (d : ChoraleDisplay) (input : list string)
  : result (bool * solved * ChoraleDisplay * list string) :=
  let chordRelations := setUpChordRels majorKey in
  '(majorKey, bass, d, input) <- getNotes fuel d input ;;
  '(found, chords) <- createChordProgression majorKey bass [] chordRelations ;;
  if negb found then Ret (majorKey, NoProgression bass, d, input)
  else
    startNote <- vat bass 0 ;;
    let notesInChords := establishNotesInChords startNote majorKey in
    '(found, v) <-
      canCreateChorale majorKey chords notesInChords cleared bass ;;
    if negb found then Ret (majorKey, NoSolution bass chords, d, input)
    else
      d <- showChorale (length bass) d v bass 0 ;;
      Ret (majorKey, Harmonized bass chords v, d, input).

(** Choice 2 of [main]: the name and the octave it prints, if any. *)
Definition lookUpKeyNumber (keyMap : Map) (d : ChoraleDisplay)
    (input : list string)
  : result (Map * option (string * Z) * ChoraleDisplay * list string) :=
  let keyMap := setUpKeyMap keyMap in
  '(keyNumber, input) <- getInteger input ;;
  if (keyNumber >=? BASS_MIN) && (keyNumber <=? SOPRANO_MAX) then
    let name := match get keyMap keyNumber with
                | Some name => name
                | None => EmptyString
                end in
    let keyMap := match get keyMap keyNumber with
                  | Some _ => keyMap
                  | None => put keyMap keyNumber EmptyString
                  end in
    d <- flashKey d keyNumber "blue" ;;
    Ret (keyMap, Some (name, Z.quot keyNumber 12 + 2), d, input)
  else Ret (keyMap, None, d, input).

(** What a choice of the menu has answered; for a bass line, with the key
    mode [getNotes] has stored. *)
Inductive answer : Type :=
| Solved (majorKey : bool) (outcome : solved)
| LookedUp (found : option (string * Z))
| Rules.

(** [choice[0] == 'Q'] *)
Definition startsWithQ (choice : string) : bool :=
  match choice with
  | String c _ => Ascii.eqb c "Q"%char
  | EmptyString => false
  end.

(** The loop of [main], from the globals [majorKey] and [keyMap] as they
    are: the answers given until the user quits. *)
Fixpoint mainLoop (fuel : nat) (majorKey : bool) (keyMap : Map)
    (d : ChoraleDisplay) (input : list string) : result (list answer) :=
  match fuel with
  | O => OutOfFuel
  | S fuel =>
      '(line, input) <- getLine input ;;
      let choice := toUpperCase (trim line) in
      if String.eqb choice "1" then
        '(majorKey, outcome, d, input) <-
          inputBassLine fuel majorKey d input ;;
        answers <- mainLoop fuel majorKey keyMap d input ;;
        Ret (Solved majorKey outcome :: answers)
      else if String.eqb choice "2" then
        '(keyMap, found, d, input) <- lookUpKeyNumber keyMap d input ;;
        answers <- mainLoop fuel majorKey keyMap d input ;;
        Ret (LookedUp found :: answers)
      else if String.eqb choice "3" then
        answers <- mainLoop fuel majorKey keyMap d input ;;
        Ret (Rules :: answers)
      else if startsWithQ choice then Ret []
      else mainLoop fuel majorKey keyMap d input
  end.

(** [main]: the display is constructed, [welcome] waits for a line, and
    the loop starts with [majorKey] true and an empty [keyMap], as
    [chorale-constants.h] initialises them. *)
Definition main (fuel : nat) (input : list string) : result (list answer) :=
  let d := newChoraleDisplay in
  '(_, input) <- getLine input ;;
  mainLoop fuel true [] d input.

End Console.

(** ** Vocabulary of the further properties *)

(** Every successor that the table lists is an index of the table. *)
Definition closedTable (chordRelations : list (list Z)) : Prop :=
  forall chord successors next,
    vat chordRelations chord = Ret successors -> In next successors ->
    exists successors', vat chordRelations next = Ret successors'.

(** The degrees under which the bass carries the dominant chord: its root
    (5) and its third, the leading tone (7). *)
Definition dominantDegree (degree : Z) : Prop := degree = 5 \/ degree = 7.

(** [pitch] is a tone of the triad on [root] with the given third and
    fifth (in semitones above the root), between the root and the top of
    the soprano range. *)
Definition triadTone (root third fifth pitch : Z) : Prop :=
  root <= pitch <= SOPRANO_MAX
  /\ ((pitch - root) mod 12 = 0 \/ (pitch - root) mod 12 = third
      \/ (pitch - root) mod 12 = fifth).

(** The tone at position [index] when the triad on [root] is written out
    octave by octave: root, third, fifth, root, ... *)
Definition triadAt (root third fifth index : Z) : Z :=
  root + 12 * (index / 3)
  + match index mod 3 with
    | 0 => 0
    | 1 => third
    | _ => fifth
    end.

(** The three triad qualities with their fill procedure and the third and
    fifth the procedure steps by. *)
Inductive quality : Type := MajorTriad | MinorTriad | DiminishedTriad.

Definition fillChordVector (q : quality) : list Z -> Z -> list Z :=
  match q with
  | MajorTriad => fillMajorChordVector
  | MinorTriad => fillMinorChordVector
  | DiminishedTriad => fillDimChordVector
  end.

Definition thirdOf (q : quality) : Z :=
  match q with
  | MajorTriad => 4
  | MinorTriad => 3
  | DiminishedTriad => 3
  end.

Definition fifthOf (q : quality) : Z :=
  match q with
  | MajorTriad => 7
  | MinorTriad => 7
  | DiminishedTriad => 6
  end.

(** No two adjacent notes of the bass line are equal. *)
Fixpoint movesThroughout (bass : list Z) : bool :=
  match bass with
  | first :: (second :: _) as rest =>
      negb (first =? second) && movesThroughout rest
  | _ => true
  end.

(** The ranges of the three upper voices. *)
Definition sopranoPitch (pitch : Z) : Prop :=
  SOPRANO_MIN <= pitch <= SOPRANO_MAX.
Definition altoPitch (pitch : Z) : Prop := ALTO_MIN <= pitch <= ALTO_MAX.
Definition tenorPitch (pitch : Z) : Prop := TENOR_MIN <= pitch <= TENOR_MAX.

(** What a step that advances has done to the voices [v]: nothing when
    the bass stays, and otherwise one push per line, the alto and the
    tenor taking tones of the chord's catalog entry and the tenor staying
    at or above the upcoming bass note when there is one. *)
Definition advanced (chords : list Z) (notesInChords : list (list Z))
    (bass : list Z) (index : Z) (v v1 : voices) : Prop :=
  exists current previous,
    vat bass index = Ret current /\ vat bass (index - 1) = Ret previous
    /\ ((current = previous /\ v1 = v)
        \/ (current <> previous
            /\ exists s a t chord notes,
                v1 = mkVoices (push_back (soprano v) s)
                       (push_back (alto v) a) (push_back (tenor v) t)
                /\ vat chords index = Ret chord
                /\ vat notesInChords chord = Ret notes
                /\ In a notes /\ In t notes
                /\ forall upcoming,
                    vat bass (index + 1) = Ret upcoming -> upcoming <= t)).

(** How many of the keys [0 .. i - 1] are white, and the value of the
    black-key counter of [initializeKeys] when the loop reaches key [i]. *)
Definition whiteKeysBelow (i : Z) : Z :=
  7 * (i / 12)
  + match i mod 12 with
    | 0 => 0 | 1 | 2 => 1 | 3 | 4 => 2 | 5 => 3 | 6 | 7 => 4 | 8 | 9 => 5
    | _ => 6
    end.

Definition blackCounterAt (i : Z) : Z :=
  if i <=? 1 then 0
  else 7 * (i / 12)
       + match i mod 12 with
         | 0 | 1 => -1 | 2 | 3 => 1 | 4 | 5 | 6 => 2 | 7 | 8 => 4
         | 9 | 10 => 5 | _ => 6
         end.

(** The first [n] keys are in place. *)
Definition laidOut (n : Z) (keys : list Key) : Prop :=
  size keys = n
  /\ forall j key,
       vat keys j = Ret key ->
       number key = j /\ color key = getKeyColor j
       /\ keyCount key = whiteKeysBelow (j + 1) - 1.

(** The fill state of a keyboard nobody is pointing at: the black keys are
    filled, the white keys are not. *)
Definition atRest (d : ChoraleDisplay) : Prop :=
  forall j key,
    vat (keys d) j = Ret key ->
    filled key = match color key with BLACK => true | WHITE => false end.

(** The fill colour [highlightKey] knows for a colour name. *)
Definition fillOf (colorName : string) : option string :=
  if String.eqb colorName "blue" then Some "#0040c0"%string
  else if String.eqb colorName "green" then Some "#008000"%string
  else if String.eqb colorName "red" then Some "#ff0000"%string
  else if String.eqb colorName "purple" then Some "#800080"%string
  else None.

(** A key after [highlightKey] has pointed at it. *)
Definition highlighted (colorName : string) (flag : bool) (key : Key) : Key :=
  mkKey (match color key with WHITE => flag | BLACK => filled key end)
    (if flag then
       match fillOf colorName with
       | Some c => Some c
       | None => fillColor key
       end
     else Some "#000000"%string)
    (color key) (number key) (keyCount key).

(** The name of the pitch class of a key. *)
Definition pitchName (i : Z) : string :=
  match i mod 12 with
  | 0 => "C" | 1 => "C#" | 2 => "D" | 3 => "Eb" | 4 => "E" | 5 => "F"
  | 6 => "F#" | 7 => "G" | 8 => "Ab" | 9 => "A" | 10 => "Bb" | _ => "B"
  end.

(** A note the input loop accepts for the key of [startNote]. *)
Definition accepted (majorKey : bool) (startNote note : Z) : Prop :=
  BASS_MIN <= note <= BASS_MAX /\ notInScale note startNote majorKey = false.

(** What the note loop of [getNotes] keeps: the bass line starts with the
    start note and holds accepted notes only; every note has been shown,
    so it is a key [highlightKey] can point at when [shows] is set. *)
Definition collecting (shows : bool) (majorKey : bool) (startNote : Z)
    (st : noteState) : Prop :=
  (exists more, notes st = startNote :: more)
  /\ Forall (accepted majorKey startNote) (notes st)
  /\ (shows = true ->
      laidOut N_KEYS (keys (display st))
      /\ Forall (fun note => 1 <= note) (notes st)).

(** A console library for the examples: lines are compared as typed, a
    line is an integer when it is a string of decimal digits, and
    [getInteger] asks again until it gets one. *)
Definition digitOf (c : Ascii.ascii) : option Z :=
  let code := Z.of_nat (Ascii.nat_of_ascii c) in
  if (48 <=? code) && (code <=? 57) then Some (code - 48) else None.

Fixpoint digits (s : string) (value : Z) : result Z :=
  match s with
  | EmptyString => Ret value
  | String c rest =>
      match digitOf c with
      | Some digit => digits rest (10 * value + digit)
      | None => Fault
      end
  end.

Definition decimal (s : string) : result Z :=
  match s with
  | EmptyString => Fault
  | _ => digits s 0
  end.

Fixpoint readDecimal (input : list string) : result (Z * list string) :=
  match input with
  | [] => OutOfFuel
  | line :: rest =>
      match decimal line with
      | Ret value => Ret (value, rest)
      | _ => readDecimal rest
      end
  end.

Definition asTyped (s : string) : string := s.

(** A chord the search can put in the accumulator: the tonic the wrapper
    and the base case push, or a successor listed in the table. *)
Definition offered (chordRelations : list (list Z)) (chord : Z) : Prop :=
  chord = 1
  \/ exists current successors,
       vat chordRelations current = Ret successors /\ In chord successors.

(** A key with a neighbour on either side. *)
Definition innerKey (keyNumber : Z) : Prop := 1 <= keyNumber <= N_KEYS - 2.

(** The global [majorKey] after the answers [earlier] of a session that
    had it at [majorKey] before: the key mode of the last bass line. *)
Fixpoint keyAfter (majorKey : bool) (earlier : list answer) : bool :=
  match earlier with
  | [] => majorKey
  | Solved key _ :: later => keyAfter key later
  | _ :: later => keyAfter majorKey later
  end.

(** The progression of an outcome, if any, holds the degrees 1 to 7. *)
Definition usesMajorDegrees (outcome : solved) : Prop :=
  match outcome with
  | NoProgression _ => True
  | NoSolution _ chords | Harmonized _ chords _ =>
      Forall (fun chord => 1 <= chord <= 7) chords
  end.

(** * Properties *)

(** ** Vectors *)

Lemma size_nonneg {A : Type} (v : list A) : 0 <= size v.
Proof. unfold size. lia. Qed.

Lemma size_push_back {A : Type} (v : list A) (x : A) :
  size (push_back v x) = size v + 1.
Proof. unfold size, push_back. rewrite length_app. simpl. lia. Qed.

Lemma vat_Ret {A : Type} (v : list A) (i : Z) (x : A) :
  vat v i = Ret x <-> 0 <= i /\ nth_error v (Z.to_nat i) = Some x.
Proof.
  unfold vat. destruct (Z.ltb_spec i 0).
  - split; [discriminate | lia].
  - destruct (nth_error v (Z.to_nat i)) eqn:E; split; intros H'.
    + injection H' as ->. auto.
    + destruct H' as [_ H']. congruence.
    + discriminate.
    + destruct H' as [_ H']. discriminate.
Qed.

Lemma vat_inside {A : Type} (v : list A) (i : Z) :
  0 <= i < size v -> exists x, vat v i = Ret x.
Proof.
  intros H. unfold size in H.
  destruct (nth_error v (Z.to_nat i)) eqn:E.
  - exists a. apply vat_Ret. split; [lia | exact E].
  - apply nth_error_None in E. lia.
Qed.

Lemma vat_outside {A : Type} (v : list A) (i : Z) :
  i < 0 \/ size v <= i -> vat v i = Fault.
Proof.
  intros H. unfold vat, size in *. destruct (Z.ltb_spec i 0); [reflexivity |].
  destruct (nth_error v (Z.to_nat i)) eqn:E; [| reflexivity].
  assert (Z.to_nat i < length v)%nat by (apply nth_error_Some; congruence).
  lia.
Qed.

Lemma vat_never_out_of_fuel {A : Type} (v : list A) (i : Z) :
  vat v i <> OutOfFuel.
Proof.
  unfold vat. destruct (i <? 0); [discriminate |].
  destruct (nth_error v (Z.to_nat i)); discriminate.
Qed.

Lemma vat_bound {A : Type} (v : list A) (i : Z) (x : A) :
  vat v i = Ret x -> 0 <= i < size v.
Proof.
  intros H. apply vat_Ret in H as [H0 H].
  assert (Z.to_nat i < length v)%nat by (apply nth_error_Some; congruence).
  unfold size. lia.
Qed.

Lemma vat_In {A : Type} (v : list A) (i : Z) (x : A) :
  vat v i = Ret x -> In x v.
Proof. intros H. apply vat_Ret in H as [_ H]. eapply nth_error_In; eauto. Qed.

Lemma In_vat {A : Type} (v : list A) (x : A) :
  In x v -> exists i, vat v i = Ret x.
Proof.
  intros H. apply In_nth_error in H as [n H]. exists (Z.of_nat n).
  apply vat_Ret. rewrite Nat2Z.id. split; [lia | exact H].
Qed.

(** ** Strictly ascending vectors *)

Lemma ascending_nth (v : list Z) :
  StrictlyAscending v ->
  forall (i j : nat) (a b : Z),
    nth_error v i = Some a -> nth_error v j = Some b -> (i < j)%nat -> a < b.
Proof.
  induction 1 as [| x v Hs IH Hall]; intros i j a b Hi Hj Hlt.
  - destruct i; discriminate.
  - destruct j as [| j]; [lia |]. simpl in Hj. destruct i as [| i]; simpl in Hi.
    + injection Hi as <-. rewrite Forall_forall in Hall.
      apply Hall. eapply nth_error_In; eauto.
    + eapply IH; eauto. lia.
Qed.

Lemma ascending_vat (v : list Z) (i j a b : Z) :
  StrictlyAscending v -> vat v i = Ret a -> vat v j = Ret b -> i < j -> a < b.
Proof.
  intros Hs Hi Hj Hlt. apply vat_Ret in Hi as [Hi0 Hi], Hj as [Hj0 Hj].
  eapply ascending_nth; eauto. lia.
Qed.

Lemma ascending_vat_le (v : list Z) (i j a b : Z) :
  StrictlyAscending v -> vat v i = Ret a -> vat v j = Ret b -> i <= j -> a <= b.
Proof.
  intros Hs Hi Hj Hle. destruct (Z.eq_dec i j) as [-> | Hne].
  - rewrite Hi in Hj. injection Hj as ->. lia.
  - assert (a < b) by (eapply ascending_vat; eauto; lia). lia.
Qed.

Lemma ascending_push_back (v : list Z) (x : Z) :
  StrictlyAscending v -> Forall (fun u => u < x) v ->
  StrictlyAscending (push_back v x).
Proof.
  unfold StrictlyAscending, push_back.
  induction 1 as [| y v Hs IH Hall]; intros Hx.
  - simpl. constructor; constructor.
  - inversion Hx; subst. simpl. constructor.
    + apply IH. assumption.
    + apply Forall_app. split; [assumption |].
      constructor; [assumption | constructor].
Qed.

Lemma ascending_NoDup (v : list Z) : StrictlyAscending v -> NoDup v.
Proof.
  induction 1 as [| x v Hs IH Hall]; constructor; [| assumption].
  intros Hin. rewrite Forall_forall in Hall. specialize (Hall x Hin). lia.
Qed.

(** ** Nearest-tone search *)

Section Search.
Variable chord : list Z.
Variable note : Z.
Hypothesis ascending : StrictlyAscending chord.

Lemma bracket_exit_lower (lhs rhs : Z) :
  bracket chord note lhs rhs -> rhs < lhs ->
  lowerAnswer chord note (vat chord rhs).
Proof.
  intros (H0 & H1 & H2 & Hl & Hr) Hexit.
  destruct (vat chord rhs) as [x | |] eqn:E; simpl.
  - assert (x < note) by (apply (Hl rhs); [lia | assumption]).
    repeat split; [eapply vat_In; eauto | lia |].
    intros u Hu Hle. apply In_vat in Hu as [i Hi].
    destruct (Z_le_gt_dec i rhs).
    + eapply ascending_vat_le; eauto.
    + assert (note < u) by (apply (Hr i); [lia | assumption]). lia.
  - intros u Hu. apply In_vat in Hu as [i Hi]. apply (Hr i); [| assumption].
    destruct (Z_le_gt_dec i rhs); [| lia].
    pose proof (vat_bound _ _ _ Hi).
    destruct (vat_inside chord rhs) as [x Hx]; [lia | congruence].
  - eapply vat_never_out_of_fuel; eauto.
Qed.

Lemma bracket_exit_higher (lhs rhs : Z) :
  bracket chord note lhs rhs -> rhs < lhs ->
  higherAnswer chord note (vat chord lhs).
Proof.
  intros (H0 & H1 & H2 & Hl & Hr) Hexit.
  destruct (vat chord lhs) as [x | |] eqn:E; simpl.
  - assert (note < x) by (apply (Hr lhs); [lia | assumption]).
    repeat split; [eapply vat_In; eauto | lia |].
    intros u Hu Hle. apply In_vat in Hu as [i Hi].
    destruct (Z_le_gt_dec lhs i).
    + eapply ascending_vat_le; eauto.
    + assert (u < note) by (apply (Hl i); [lia | assumption]). lia.
  - intros u Hu. apply In_vat in Hu as [i Hi]. apply (Hl i); [| assumption].
    destruct (Z_le_gt_dec lhs i); [| lia].
    pose proof (vat_bound _ _ _ Hi).
    destruct (vat_inside chord lhs) as [x Hx]; [lia | congruence].
  - eapply vat_never_out_of_fuel; eauto.
Qed.

Lemma found_is_both (x : Z) (i : Z) :
  vat chord i = Ret x -> x = note ->
  greatestAtOrBelow chord note x /\ leastAtOrAbove chord note x.
Proof.
  intros Hi ->. pose proof (vat_In _ _ _ Hi).
  split; (repeat split; [assumption | lia | intros; lia]).
Qed.

Lemma bracket_left (lhs rhs avg mid : Z) :
  bracket chord note lhs rhs -> lhs <= avg <= rhs -> vat chord avg = Ret mid ->
  mid < note -> bracket chord note (avg + 1) rhs.
Proof.
  intros (H0 & H1 & H2 & Hl & Hr) Hav Hmid Hlt.
  repeat split; try lia; [| assumption].
  intros i a Hi Ha.
  assert (a <= mid) by (eapply ascending_vat_le; eauto; lia). lia.
Qed.

Lemma bracket_right (lhs rhs avg mid : Z) :
  bracket chord note lhs rhs -> lhs <= avg <= rhs -> vat chord avg = Ret mid ->
  note < mid -> bracket chord note lhs (avg - 1).
Proof.
  intros (H0 & H1 & H2 & Hl & Hr) Hav Hmid Hlt.
  repeat split; try lia; [assumption |].
  intros i a Hi Ha.
  assert (mid <= a) by (eapply ascending_vat_le; eauto; lia). lia.
Qed.

Lemma lowerSearch_answer (fuel : nat) :
  forall lhs rhs,
    bracket chord note lhs rhs -> rhs - lhs + 1 <= Z.of_nat fuel ->
    lowerAnswer chord note (lowerSearch fuel chord note lhs rhs).
Proof.
  induction fuel as [| fuel IH]; intros lhs rhs Hb Hfuel.
  - simpl. destruct (Z.leb_spec lhs rhs); [lia |].
    apply (bracket_exit_lower lhs); [assumption | lia].
  - simpl. destruct (Z.leb_spec lhs rhs) as [Hle | Hgt];
      [| apply (bracket_exit_lower lhs); [assumption | lia]].
    pose proof Hb as (H0 & H1 & H2 & _).
    assert (Hq : Z.quot (lhs + rhs) 2 = (lhs + rhs) / 2)
      by (apply Z.quot_div_nonneg; lia).
    rewrite Hq. set (avg := (lhs + rhs) / 2).
    assert (Hav : lhs <= avg <= rhs)
      by (subst avg; split;
          [apply Z.div_le_lower_bound | apply Z.div_le_upper_bound]; lia).
    destruct (vat_inside chord avg) as [mid Hmid]; [lia |].
    rewrite Hmid. simpl.
    destruct (Z.eqb_spec mid note) as [Heq | Hne].
    + simpl. eapply found_is_both; eauto.
    + destruct (Z.ltb_spec mid note).
      * apply IH; [eapply bracket_left; eauto | lia].
      * apply IH; [eapply bracket_right; eauto; lia | lia].
Qed.

Lemma higherSearch_answer (fuel : nat) :
  forall lhs rhs,
    bracket chord note lhs rhs -> rhs - lhs + 1 <= Z.of_nat fuel ->
    higherAnswer chord note (higherSearch fuel chord note lhs rhs).
Proof.
  induction fuel as [| fuel IH]; intros lhs rhs Hb Hfuel.
  - simpl. destruct (Z.leb_spec lhs rhs); [lia |].
    apply (bracket_exit_higher lhs rhs); [assumption | lia].
  - simpl. destruct (Z.leb_spec lhs rhs) as [Hle | Hgt];
      [| apply (bracket_exit_higher lhs rhs); [assumption | lia]].
    pose proof Hb as (H0 & H1 & H2 & _).
    assert (Hq : Z.quot (lhs + rhs + 1) 2 = (lhs + rhs + 1) / 2)
      by (apply Z.quot_div_nonneg; lia).
    rewrite Hq. set (avg := (lhs + rhs + 1) / 2).
    assert (Hav : lhs <= avg <= rhs)
      by (subst avg; pose proof (Z.div_mod (lhs + rhs + 1) 2);
          pose proof (Z.mod_pos_bound (lhs + rhs + 1) 2); lia).
    destruct (vat_inside chord avg) as [mid Hmid]; [lia |].
    rewrite Hmid. simpl.
    destruct (Z.eqb_spec mid note) as [Heq | Hne].
    + simpl. eapply found_is_both; eauto.
    + destruct (Z.ltb_spec mid note).
      * apply IH; [eapply bracket_left; eauto | lia].
      * apply IH; [eapply bracket_right; eauto; lia | lia].
Qed.

Lemma bracket_initial : bracket chord note 0 (size chord - 1).
Proof.
  pose proof (size_nonneg chord).
  repeat split; try lia; intros i a Hi Ha; apply vat_bound in Ha; lia.
Qed.

Lemma nextLowerNote_answer : lowerAnswer chord note (nextLowerNote chord note).
Proof.
  unfold nextLowerNote. apply lowerSearch_answer;
    [apply bracket_initial | unfold size; lia].
Qed.

Lemma nextHigherNote_answer :
  higherAnswer chord note (nextHigherNote chord note).
Proof.
  unfold nextHigherNote. apply higherSearch_answer;
    [apply bracket_initial | unfold size; lia].
Qed.
End Search.

Lemma first_is_least (seq : list Z) (lo : Z) :
  StrictlyAscending seq -> vat seq 0 = Ret lo ->
  forall u, In u seq -> lo <= u.
Proof.
  intros Hs Hlo u Hu. apply In_vat in Hu as [i Hi].
  pose proof (vat_bound _ _ _ Hi). eapply ascending_vat_le; eauto. lia.
Qed.

Lemma last_is_greatest (seq : list Z) (hi : Z) :
  StrictlyAscending seq -> back seq = Ret hi ->
  forall u, In u seq -> u <= hi.
Proof.
  unfold back. intros Hs Hhi u Hu. apply In_vat in Hu as [i Hi].
  pose proof (vat_bound _ _ _ Hi). eapply ascending_vat_le; eauto. lia.
Qed.

Lemma lower_inside (seq : list Z) (t lo : Z) :
  StrictlyAscending seq -> vat seq 0 = Ret lo -> lo <= t ->
  exists x, nextLowerNote seq t = Ret x /\ greatestAtOrBelow seq t x.
Proof.
  intros Hs Hlo Hle. pose proof (nextLowerNote_answer seq t Hs) as Hans.
  destruct (nextLowerNote seq t) as [x | |]; simpl in Hans.
  - exists x. auto.
  - specialize (Hans lo (vat_In _ _ _ Hlo)). lia.
  - contradiction.
Qed.

Lemma higher_inside (seq : list Z) (t hi : Z) :
  StrictlyAscending seq -> back seq = Ret hi -> t <= hi ->
  exists x, nextHigherNote seq t = Ret x /\ leastAtOrAbove seq t x.
Proof.
  intros Hs Hhi Hle. pose proof (nextHigherNote_answer seq t Hs) as Hans.
  destruct (nextHigherNote seq t) as [x | |]; simpl in Hans.
  - exists x. auto.
  - specialize (Hans hi (vat_In _ _ _ Hhi)). lia.
  - contradiction.
Qed.

(** C5.  On a strictly ascending sequence and a target between its first
    and last element, [nextLowerNote] returns the greatest element that is
    at most the target, [nextHigherNote] returns the least element that is
    at least the target, and both return the target when it is an element
    of the sequence. *)
Theorem nearest_tone_search_correct (seq : list Z) (t lo hi : Z) :
  StrictlyAscending seq -> vat seq 0 = Ret lo -> back seq = Ret hi ->
  lo <= t <= hi ->
  exists below above,
    nextLowerNote seq t = Ret below /\ greatestAtOrBelow seq t below
    /\ nextHigherNote seq t = Ret above /\ leastAtOrAbove seq t above
    /\ (In t seq -> below = t /\ above = t).
Proof.
  intros Hs Hlo Hhi [Hle1 Hle2].
  destruct (lower_inside seq t lo Hs Hlo Hle1) as (below & Hb & Hbs).
  destruct (higher_inside seq t hi Hs Hhi Hle2) as (above & Ha & Has).
  exists below, above. repeat (split; [assumption |]).
  intros Hin. destruct Hbs as (_ & Hup & Hmax), Has as (_ & Hdown & Hmin).
  specialize (Hmax t Hin). specialize (Hmin t Hin). lia.
Qed.

Lemma ascending_12_16_19_24 : StrictlyAscending [12; 16; 19; 24].
Proof.
  unfold StrictlyAscending.
  repeat (constructor; [| repeat constructor; lia]). constructor.
Qed.

Lemma nearest_tone_search_correct_witness :
  exists below above,
    nextLowerNote [12; 16; 19; 24] 17 = Ret below
    /\ greatestAtOrBelow [12; 16; 19; 24] 17 below
    /\ nextHigherNote [12; 16; 19; 24] 17 = Ret above
    /\ leastAtOrAbove [12; 16; 19; 24] 17 above
    /\ (In 17 [12; 16; 19; 24] -> below = 17 /\ above = 17).
Proof.
  apply (nearest_tone_search_correct [12; 16; 19; 24] 17 12 24).
  - exact ascending_12_16_19_24.
  - reflexivity.
  - reflexivity.
  - lia.
Defined.

(** An example of the four cases outside the range of a sequence: above
    the last element [nextLowerNote] returns an ordinary value, below the
    first element [nextHigherNote] does, and in the two other cases the
    element is read outside the vector, at index [-1] and at index
    [size]. *)
Lemma outside_target_not_reported :
  nextLowerNote [5; 7] 9 = Ret 7 /\ nextHigherNote [5; 7] 3 = Ret 5
  /\ nextLowerNote [5; 7] 3 = vat [5; 7] (-1)
  /\ nextHigherNote [5; 7] 9 = vat [5; 7] 2
  /\ vat [5; 7] (-1) = Fault /\ vat [5; 7] 2 = Fault.
Proof. repeat split; reflexivity. Qed.

(** Outside the range of a strictly ascending sequence the searches do
    the following.  For a target above the last element [nextLowerNote]
    returns the last element and [nextHigherNote] reads past the end of
    the vector; for a target below the first element [nextHigherNote]
    returns the first element and [nextLowerNote] reads before the start
    of the vector. *)
Lemma search_outside_range (seq : list Z) (t lo hi : Z) :
  StrictlyAscending seq -> vat seq 0 = Ret lo -> back seq = Ret hi ->
  t < lo \/ hi < t ->
  nextLowerNote seq t = (if hi <? t then Ret hi else Fault)
  /\ nextHigherNote seq t = (if t <? lo then Ret lo else Fault).
Proof.
  intros Hs Hlo Hhi Hout.
  pose proof (first_is_least seq lo Hs Hlo) as Hmin.
  pose proof (last_is_greatest seq hi Hs Hhi) as Hmax.
  pose proof (vat_In _ _ _ Hlo) as Hinlo.
  pose proof (vat_In _ _ _ Hhi) as Hinhi.
  assert (lo <= hi) by auto.
  pose proof (nextLowerNote_answer seq t Hs) as Hl.
  pose proof (nextHigherNote_answer seq t Hs) as Hh.
  split.
  - destruct (Z.ltb_spec hi t).
    + destruct (lower_inside seq t lo Hs Hlo)
        as (x & -> & Hin & Hx & Hgreatest); [lia |].
      f_equal. specialize (Hgreatest hi Hinhi). specialize (Hmax x Hin). lia.
    + destruct (nextLowerNote seq t) as [x | |]; simpl in Hl;
        [| reflexivity | contradiction].
      destruct Hl as (Hin & Hx & _). specialize (Hmin x Hin). lia.
  - destruct (Z.ltb_spec t lo).
    + destruct (higher_inside seq t hi Hs Hhi)
        as (x & -> & Hin & Hx & Hleast); [lia |].
      f_equal. specialize (Hleast lo Hinlo). specialize (Hmin x Hin). lia.
    + destruct (nextHigherNote seq t) as [x | |]; simpl in Hh;
        [| reflexivity | contradiction].
      destruct Hh as (Hin & Hx & _). specialize (Hmax x Hin). lia.
Qed.

Lemma ascending_5_7 : StrictlyAscending [5; 7].
Proof.
  unfold StrictlyAscending.
  repeat (constructor; [| repeat constructor; lia]). constructor.
Qed.

Lemma search_outside_range_witness :
  nextLowerNote [5; 7] 9 = (if 7 <? 9 then Ret 7 else Fault)
  /\ nextHigherNote [5; 7] 9 = (if 9 <? 5 then Ret 5 else Fault).
Proof.
  apply (search_outside_range [5; 7] 9 5 7).
  - exact ascending_5_7.
  - reflexivity.
  - reflexivity.
  - right. lia.
Defined.

(** ** Chord-tone catalog *)

Lemma push_back_below (v : list Z) (x y : Z) :
  StrictlyAscending v -> Forall (fun u => u < x) v -> x < y ->
  StrictlyAscending (push_back v x) /\ Forall (fun u => u < y) (push_back v x).
Proof.
  intros Hs Hall Hxy. split; [apply ascending_push_back; assumption |].
  unfold push_back. apply Forall_app. split.
  - eapply Forall_impl; [| exact Hall]. simpl. intros; lia.
  - constructor; [assumption | constructor].
Qed.

(** Three pushes of a fill loop keep the vector ascending and below the
    next index. *)
Ltac fill_round :=
  repeat match goal with
         | |- StrictlyAscending (push_back _ _) /\ _ =>
             apply push_back_below; [| | lia]
         | |- StrictlyAscending (push_back _ _) =>
             eapply proj1; apply push_back_below; [| | apply Z.lt_succ_diag_r]
         | |- Forall _ (push_back _ _) =>
             eapply proj2; apply push_back_below; [| | lia]
         end; try assumption.

Lemma fillMajorChordVector_ascending (v : list Z) (index : Z) :
  StrictlyAscending v -> Forall (fun u => u < index) v ->
  StrictlyAscending (fillMajorChordVector v index).
Proof.
  funelim (fillMajorChordVector v index); intros Hs Hall; [| assumption].
  destruct (index + 4 <=? SOPRANO_MAX);
    [destruct (index + 4 + 3 <=? SOPRANO_MAX) |];
    match goal with IH : _ |- _ => apply IH; fill_round; fail end.
Qed.

Lemma fillMinorChordVector_ascending (v : list Z) (index : Z) :
  StrictlyAscending v -> Forall (fun u => u < index) v ->
  StrictlyAscending (fillMinorChordVector v index).
Proof.
  funelim (fillMinorChordVector v index); intros Hs Hall; [| assumption].
  destruct (index + 3 <=? SOPRANO_MAX);
    [destruct (index + 3 + 4 <=? SOPRANO_MAX) |];
    match goal with IH : _ |- _ => apply IH; fill_round; fail end.
Qed.

Lemma fillDimChordVector_ascending (v : list Z) (index : Z) :
  StrictlyAscending v -> Forall (fun u => u < index) v ->
  StrictlyAscending (fillDimChordVector v index).
Proof.
  funelim (fillDimChordVector v index); intros Hs Hall; [| assumption].
  destruct (index + 3 <=? SOPRANO_MAX);
    [destruct (index + 3 + 3 <=? SOPRANO_MAX) |];
    match goal with IH : _ |- _ => apply IH; fill_round; fail end.
Qed.

Lemma ascending_nil : StrictlyAscending [].
Proof. constructor. Qed.

Create HintDb catalog.

#[local] Hint Resolve ascending_nil : catalog.
#[local] Hint Extern 1 (StrictlyAscending (fillMajorChordVector [] _)) =>
  apply fillMajorChordVector_ascending; constructor : catalog.
#[local] Hint Extern 1 (StrictlyAscending (fillMinorChordVector [] _)) =>
  apply fillMinorChordVector_ascending; constructor : catalog.
#[local] Hint Extern 1 (StrictlyAscending (fillDimChordVector [] _)) =>
  apply fillDimChordVector_ascending; constructor : catalog.

(** The catalog with its loops unrolled: entry by entry, the fill of the
    empty vector from the degree's root. *)
Lemma establishNotesInChords_major (startNote : Z) :
  establishNotesInChords startNote true =
  let tonic := lowestOctave startNote in
  [ []; fillMajorChordVector [] (tonic + 0);
    fillMinorChordVector [] (tonic + 2);
    fillMinorChordVector [] (tonic + 4); fillMajorChordVector [] (tonic + 5);
    fillMajorChordVector [] (tonic + 7); fillMinorChordVector [] (tonic + 9);
    fillDimChordVector [] (tonic + 11); [] ].
Proof. reflexivity. Qed.

Lemma establishNotesInChords_minor (startNote : Z) :
  establishNotesInChords startNote false =
  let tonic := lowestOctave startNote in
  [ []; fillMinorChordVector [] (tonic + 0); fillDimChordVector [] (tonic + 2);
    fillMajorChordVector [] (tonic + 3); fillMinorChordVector [] (tonic + 5);
    fillMajorChordVector [] (tonic + 7); fillMajorChordVector [] (tonic + 8);
    fillDimChordVector [] (tonic + 11); fillMajorChordVector [] (tonic + 11) ].
Proof. reflexivity. Qed.

(** C6.  In both key modes and for every tonic pitch, every entry of the
    catalog built by [establishNotesInChords] is strictly ascending and
    has no duplicate values. *)
Theorem catalog_entries_strictly_ascending (startNote : Z) (majorKey : bool) :
  Forall (fun entry => StrictlyAscending entry /\ NoDup entry)
    (establishNotesInChords startNote majorKey).
Proof.
  assert (H : Forall StrictlyAscending
                (establishNotesInChords startNote majorKey)).
  { destruct majorKey;
      [rewrite establishNotesInChords_major
      | rewrite establishNotesInChords_minor];
      cbv zeta; repeat constructor; auto with catalog. }
  eapply Forall_impl; [| exact H].
  intros entry Hentry. split; [assumption | apply ascending_NoDup; assumption].
Qed.

(** C4.  In a minor key the roots of degrees 1 to 7 are at distances
    0, 2, 3, 5, 7, 8 and 11 from the tonic, as [distanceToChord] maps
    them, but the entry of degree 8 is the major triad filled from distance
    11, the root of degree 7, and not from distance 10, which
    [distanceToChord] maps to 8. *)
Theorem minor_degree_8_rooted_at_distance_11 :
  (forall startNote,
      vat (establishNotesInChords startNote false) 8
      = Ret (fillMajorChordVector [] (lowestOctave startNote + 11)))
  /\ vat (establishNotesInChords 0 false) 8
     = Ret [11; 15; 18; 23; 27; 30; 35; 39; 42]
  /\ distanceToChord false (11 - lowestOctave 0) = 7
  /\ distanceToChord false 10 = 8
  /\ map (distanceToChord false) [0; 2; 3; 5; 7; 8; 11] = [1; 2; 3; 4; 5; 6; 7].
Proof.
  split;
    [intros startNote; rewrite establishNotesInChords_minor; reflexivity |].
  repeat split; reflexivity.
Qed.

(** ** Chord-progression search *)

(** C1.  On the valid bass line 0, 4, 7, 0 in a major key the search
    returns true with the chords 3, 1, 5, 1: the root-position candidate 3
    fails, [chords.remove(index)] then removes the tonic at position 0
    instead of the candidate pushed at position 1, and the first-inversion
    candidate 1 succeeds.  The sequence does not start with 1 and its
    first pair, 3 then 1, is not in the relation table. *)
Theorem progression_loses_tonic_after_backtracking :
  validBassLine true [0; 4; 7; 0] = true
  /\ createChordProgression true [0; 4; 7; 0] [] (setUpChordRels true)
     = Ret (true, [3; 1; 5; 1])
  /\ vat [3; 1; 5; 1] 0 = Ret 3
  /\ vat (setUpChordRels true) 3 = Ret [4; 6]
  /\ existsb (Z.eqb 1) [4; 6] = false.
Proof. repeat split; reflexivity. Qed.

(** ** Voice-leading search *)

(** C2.  On the valid bass line 0, 0, 7, 0 in a major key, with the chords
    1, 1, 5, 1 that [createChordProgression] finds for it, the voice-leading
    search succeeds with lines of three pitches for a bass line of four:
    at index 1 the bass neither falls nor rises, so neither branch of the
    helper runs and nothing is pushed. *)
Theorem repeated_bass_note_shortens_voices :
  validBassLine true [0; 0; 7; 0] = true
  /\ createChordProgression true [0; 0; 7; 0] [] (setUpChordRels true)
     = Ret (true, [1; 1; 5; 1])
  /\ canCreateChorale true [1; 1; 5; 1] (establishNotesInChords 0 true)
       cleared [0; 0; 7; 0]
     = Ret (true, mkVoices [36; 35; 36] [31; 31; 31] [28; 26; 28])
  /\ size [36; 35; 36] = 3 /\ size [0; 0; 7; 0] = 4.
Proof. repeat split; reflexivity. Qed.

(** C3.  On the valid bass line 5, 7, 16, 17 in a major key, with the
    chords 1, 2, 5, 1 that [createChordProgression] finds for it, the
    voice-leading search succeeds with the alto on 17 at the final chord,
    below [ALTO_MIN]: the helper tests the ranges of the
    latest pitches only after its base case, so the pitches pushed for the
    last chord are never tested against the lower bounds. *)
Theorem final_chord_escapes_range_check :
  validBassLine true [5; 7; 16; 17] = true
  /\ createChordProgression true [5; 7; 16; 17] [] (setUpChordRels true)
     = Ret (true, [1; 2; 5; 1])
  /\ canCreateChorale true [1; 2; 5; 1] (establishNotesInChords 5 true)
       cleared [5; 7; 16; 17]
     = Ret (true, mkVoices [29; 26; 24; 24] [24; 22; 19; 17] [21; 19; 19; 17])
  /\ vat [24; 22; 19; 17] 3 = Ret 17
  /\ (17 <? ALTO_MIN) = true.
Proof. repeat split; reflexivity. Qed.

(** Case analysis of a monadic computation that is known to return. *)
Ltac returns H :=
  repeat match type of H with
         | bind ?m _ = Ret _ =>
             let E := fresh "E" in
             destruct m eqn:E; simpl in H; [| discriminate H | discriminate H]
         | (if ?b then _ else _) = Ret _ =>
             let E := fresh "E" in destruct b eqn:E
         | match ?x with (_, _) => _ end = Ret _ => destruct x
         end.

Lemma back_push_back {A : Type} (v : list A) (x : A) :
  back (push_back v x) = Ret x.
Proof.
  unfold back. rewrite size_push_back. apply vat_Ret.
  pose proof (size_nonneg v). split; [lia |].
  replace (Z.to_nat (size v + 1 - 1)) with (length v) by (unfold size; lia).
  unfold push_back. rewrite nth_error_app2 by lia.
  rewrite Nat.sub_diag. reflexivity.
Qed.

Lemma vat_push_back_new {A : Type} (v : list A) (x : A) :
  vat (push_back v x) (size v) = Ret x.
Proof.
  pose proof (back_push_back v x) as H. unfold back in H.
  rewrite size_push_back in H.
  replace (size v + 1 - 1) with (size v) in H by lia.
  exact H.
Qed.


Lemma rangeTest (v : voices) (s a t : Z) :
  back (soprano v) = Ret s -> back (alto v) = Ret a -> back (tenor v) = Ret t ->
  (backAbove (soprano v) SOPRANO_MAX <||> backAbove (alto v) ALTO_MAX
   <||> backAbove (tenor v) TENOR_MAX <||> backBelow (soprano v) SOPRANO_MIN
   <||> backBelow (alto v) ALTO_MIN <||> backBelow (tenor v) TENOR_MIN)
  = Ret (negb (inRange s a t)).
Proof.
  intros Hs Ha Ht. unfold orElse, backAbove, backBelow, inRange.
  rewrite Hs, Ha, Ht. simpl.
  destruct (s >? SOPRANO_MAX), (a >? ALTO_MAX), (t >? TENOR_MAX),
    (s <? SOPRANO_MIN), (a <? ALTO_MIN), (t <? TENOR_MIN); reflexivity.
Qed.




(** The leading-tone flag at a step that returns.  At a step that passes
    the range test with the flag set: if the bass falls or rises by
    exactly 5, the soprano's new pitch is the least pitch of the chord's
    catalog entry that is at least its previous pitch minus 3, and the
    flag stays set for the following step; and the flag is handed on
    cleared only by a step where the bass rises by another interval and
    the soprano's new pitch is [nextLowerNote] of its previous pitch
    minus 3.  A step need not return: the closing section gives a
    flagged step that reads past the end of the entry. *)
Lemma corrected_flag_lifetime (majorKey : bool) (chords : list Z)
    (notesInChords : list (list Z)) (bass : list Z) (index : Z) (v : voices)
    (current previous chord s a t : Z) (notes : list Z) (r : step) :
  back (soprano v) = Ret s -> back (alto v) = Ret a ->
  back (tenor v) = Ret t -> inRange s a t = true ->
  vat bass index = Ret current -> vat bass (index - 1) = Ret previous ->
  vat chords index = Ret chord -> vat notesInChords chord = Ret notes ->
  StrictlyAscending notes ->
  choraleStep majorKey chords notesInChords bass index true v = Ret r ->
  ((current <? previous) || (current - previous =? 5) = true ->
   (exists x, nextHigherNote notes (s - 3) = Ret x
              /\ leastAtOrAbove notes (s - 3) x
              /\ soprano (stepVoices r) = push_back (soprano v) x)
   /\ (stepFlag r = Some true \/ stepFlag r = None))
  /\ (stepFlag r = Some false ->
      previous < current /\ current - previous <> 5
      /\ exists x, nextLowerNote notes (s - 3) = Ret x
                   /\ greatestAtOrBelow notes (s - 3) x
                   /\ soprano (stepVoices r) = push_back (soprano v) x).
Proof.
  intros Hs Ha Ht Hrange Hcur Hprev Hchord Hnotes Hasc Hstep.
  unfold choraleStep in Hstep.
  rewrite (rangeTest v s a t Hs Ha Ht), Hrange in Hstep. simpl in Hstep.
  rewrite Hcur, Hprev in Hstep. simpl in Hstep.
  destruct ((current <? previous) || (current - previous =? 5)) eqn:Hup.
  - (* closest-upward *)
    rewrite Hchord in Hstep. simpl in Hstep.
    rewrite Hnotes in Hstep. simpl in Hstep.
    rewrite Hs in Hstep. simpl in Hstep.
    destruct (nextHigherNote notes (s - 3)) as [x | |] eqn:Hx;
      simpl in Hstep; try discriminate.
    pose proof (nextHigherNote_answer notes (s - 3) Hasc) as Hans.
    rewrite Hx in Hans. simpl in Hans.
    returns Hstep; injection Hstep as <-; simpl;
      (split; [intros _; split; [exists x; auto | auto] | discriminate]).
  - destruct (Z.gtb_spec current previous) as [Hgt | Hle].
    + (* closest-downward *)
      split; [discriminate |]. intros Hflag.
      apply orb_false_iff in Hup as [_ Hnot5].
      apply Z.eqb_neq in Hnot5.
      destruct (vat chords (index - 1)) as [previousChord | |];
        simpl in Hstep; try discriminate.
      match type of Hstep with
      | bind ?leading _ = _ =>
          destruct leading as [[|] | |] eqn:Hleading
      end; simpl in Hstep; try discriminate.
      * (* the leading tone resolves upwards: the flag stays set *)
        rewrite Hs in Hstep. simpl in Hstep.
        returns Hstep; injection Hstep as <-; discriminate.
      * rewrite Hchord in Hstep. simpl in Hstep.
        rewrite Hnotes in Hstep. simpl in Hstep.
        rewrite Hs in Hstep. simpl in Hstep.
        destruct (nextLowerNote notes (s - 3)) as [x | |] eqn:Hx;
          simpl in Hstep; try discriminate.
        pose proof (nextLowerNote_answer notes (s - 3) Hasc) as Hans.
        rewrite Hx in Hans. simpl in Hans.
        repeat (split; [lia |]). exists x.
        returns Hstep; injection Hstep as <-; simpl in *; auto; discriminate.
    + (* the bass stays: nothing moves and the flag is kept *)
      injection Hstep as <-. split; discriminate.
Qed.

Ltac ascending_closed :=
  unfold StrictlyAscending;
  repeat first [ apply SSorted_nil | apply SSorted_cons | apply Forall_nil
               | apply Forall_cons; [lia |] ].

Lemma corrected_flag_lifetime_witness :
  let v := mkVoices [36; 35; 36] [31; 31; 31] [28; 26; 24] in
  let notes := [7; 11; 14; 19; 23; 26; 31; 35; 38; 43] in
  let r := Advance (mkVoices [36; 35; 36; 35] [31; 31; 31; 31]
                      [28; 26; 24; 26]) true in
  (exists x, nextHigherNote notes (36 - 3) = Ret x
             /\ leastAtOrAbove notes (36 - 3) x
             /\ soprano (stepVoices r) = push_back (soprano v) x)
  /\ (stepFlag r = Some true \/ stepFlag r = None).
Proof.
  intros v notes r.
  refine (proj1 (corrected_flag_lifetime true [1; 5; 1; 5; 1]
                   (establishNotesInChords 0 true) [0; 7; 16; 7; 0] 3 v
                   7 16 5 36 31 24 notes r _ _ _ _ _ _ _ _ _ _) _);
    try reflexivity.
  subst notes. ascending_closed.
Defined.

(** ** Lengths and prefixes along a failing search *)

Lemma remove_nth_length {A : Type} (v : list A) (n : nat) :
  (n < length v)%nat -> S (length (firstn n v ++ skipn (S n) v)) = length v.
Proof. intros H. rewrite length_app, length_firstn, length_skipn. lia. Qed.

Lemma vremove_length {A : Type} (v v' : list A) (index : Z) :
  vremove v index = Ret v' -> S (length v') = length v.
Proof.
  unfold vremove, size.
  destruct (Z.ltb_spec index 0); cbn [orb]; [discriminate |].
  destruct (Z.leb_spec (Z.of_nat (length v)) index); [discriminate |].
  intros H'. injection H' as <-. apply remove_nth_length. lia.
Qed.

Lemma push_back_length {A : Type} (v : list A) (x : A) :
  length (push_back v x) = S (length v).
Proof. unfold push_back. rewrite length_app. simpl. lia. Qed.

(** A candidate loop that does not return true leaves as many chords as it
    found, provided the recursive call does so on failure. *)
Lemma tryCandidate_failure_length
    (recurse : list Z -> result (bool * list Z)) (candidate index : Z) :
  (forall chords chords',
      recurse chords = Ret (false, chords') ->
      length chords' = length chords) ->
  forall relations chords chords',
    tryCandidate recurse candidate index relations chords
    = Ret (false, chords') ->
    length chords' = length chords.
Proof.
  intros Hrec. induction relations as [| possibleChord rest IH];
    intros chords chords' H; simpl in H.
  - injection H as <-. reflexivity.
  - destruct (possibleChord =? candidate); [| apply IH; assumption].
    destruct (recurse (push_back chords candidate))
      as [[found pushed] | |] eqn:E;
      simpl in H; try discriminate.
    destruct found; [discriminate |].
    destruct (vremove pushed index) as [removed | |] eqn:Er;
      simpl in H; try discriminate.
    apply Hrec in E. apply vremove_length in Er. apply IH in H.
    rewrite push_back_length in E. lia.
Qed.

Lemma createChordProgressionRec_failure_length (majorKey : bool)
    (bass : list Z) (chordRelations : list (list Z)) (startingNote : Z)
    (fuel : nat) :
  forall index currentChord chords chords',
    createChordProgressionRec fuel majorKey bass chordRelations index
      startingNote currentChord chords = Ret (false, chords') ->
    length chords' = length chords.
Proof.
  induction fuel as [| fuel IH]; intros index currentChord chords chords' H;
    simpl in H; [discriminate |].
  destruct (index =? size bass - 2).
  - destruct (negb (currentChord =? 5)); [| discriminate].
    injection H as <-. reflexivity.
  - destruct (vat bass (index + 1)) as [next | |]; simpl in H; try discriminate.
    destruct (vat chordRelations currentChord) as [relations | |];
      simpl in H; try discriminate.
    match type of H with
    | bind ?root _ = _ => destruct root as [[found afterRoot] | |] eqn:Eroot
    end; simpl in H; try discriminate.
    destruct found; [discriminate |].
    apply tryCandidate_failure_length in Eroot; [| intros; eapply IH; eauto].
    match type of H with
    | bind ?inversion _ = _ => destruct inversion as [firstInvChord | |]
    end; simpl in H; try discriminate.
    match type of H with
    | bind ?inv _ = _ => destruct inv as [[found afterInv] | |] eqn:Einv
    end; simpl in H; try discriminate.
    destruct found; [discriminate |].
    apply tryCandidate_failure_length in Einv; [| intros; eapply IH; eauto].
    injection H as <-. congruence.
Qed.






(** ** The recursion budgets are large enough *)

Lemma bind_fuel {A B : Type} (m : result A) (k : A -> result B) :
  m <> OutOfFuel -> (forall a, k a <> OutOfFuel) -> bind m k <> OutOfFuel.
Proof. intros Hm Hk. destruct m; simpl; 
    [apply Hk | discriminate | exfalso; apply Hm; reflexivity].
Qed.

Lemma lowerSearch_fuel (chord : list Z) (note : Z) (fuel : nat) :
  forall lhs rhs,
    0 <= lhs -> rhs - lhs + 1 <= Z.of_nat fuel ->
    lowerSearch fuel chord note lhs rhs <> OutOfFuel.
Proof.
  induction fuel as [| fuel IH]; intros lhs rhs Hlhs Hfuel; simpl;
    destruct (Z.leb_spec lhs rhs); try apply vat_never_out_of_fuel;
    [exfalso; lia |].
  destruct (vat chord (Z.quot (lhs + rhs) 2)) as [mid | |] eqn:E;
    simpl; try discriminate; [| elim (vat_never_out_of_fuel _ _ E)].
  apply vat_bound in E.
  assert (Z.quot (lhs + rhs) 2 = (lhs + rhs) / 2)
    by (apply Z.quot_div_nonneg; lia).
  pose proof (Z.div_mod (lhs + rhs) 2).
  pose proof (Z.mod_pos_bound (lhs + rhs) 2).
  destruct (mid =? note); [discriminate |].
  destruct (mid <? note); apply IH; lia.
Qed.

Lemma higherSearch_fuel (chord : list Z) (note : Z) (fuel : nat) :
  forall lhs rhs,
    0 <= lhs -> rhs - lhs + 1 <= Z.of_nat fuel ->
    higherSearch fuel chord note lhs rhs <> OutOfFuel.
Proof.
  induction fuel as [| fuel IH]; intros lhs rhs Hlhs Hfuel; simpl;
    destruct (Z.leb_spec lhs rhs); try apply vat_never_out_of_fuel;
    [exfalso; lia |].
  destruct (vat chord (Z.quot (lhs + rhs + 1) 2)) as [mid | |] eqn:E;
    simpl; try discriminate; [| elim (vat_never_out_of_fuel _ _ E)].
  apply vat_bound in E.
  assert (Z.quot (lhs + rhs + 1) 2 = (lhs + rhs + 1) / 2)
    by (apply Z.quot_div_nonneg; lia).
  pose proof (Z.div_mod (lhs + rhs + 1) 2).
  pose proof (Z.mod_pos_bound (lhs + rhs + 1) 2).
  destruct (mid =? note); [discriminate |].
  destruct (mid <? note); apply IH; lia.
Qed.

Lemma nextLowerNote_fuel (chord : list Z) (note : Z) :
  nextLowerNote chord note <> OutOfFuel.
Proof. apply lowerSearch_fuel; unfold size; lia. Qed.

Lemma nextHigherNote_fuel (chord : list Z) (note : Z) :
  nextHigherNote chord note <> OutOfFuel.
Proof. apply higherSearch_fuel; unfold size; lia. Qed.

(** Discharges [_ <> OutOfFuel] for a computation built from vector reads
    and the two searches. *)
Ltac fuel_free :=
  repeat first
    [ apply vat_never_out_of_fuel
    | apply nextLowerNote_fuel
    | apply nextHigherNote_fuel
    | discriminate
    | apply bind_fuel; [| intros ]
    | match goal with
      | |- (if ?b then _ else _) <> OutOfFuel => destruct b
      | |- match ?x with (_, _) => _ end <> OutOfFuel => destruct x
      end ].

Lemma choraleStep_fuel (majorKey : bool) (chords : list Z)
    (notesInChords : list (list Z)) (bass : list Z) (index : Z)
    (LTCorrected : bool) (v : voices) :
  choraleStep majorKey chords notesInChords bass index LTCorrected v
  <> OutOfFuel.
Proof.
  unfold choraleStep, orElse, andAlso, backAbove, backBelow, crossesBass, back.
  fuel_free.
Qed.

Lemma canCreateChoraleHelper_fuel (majorKey : bool) (chords : list Z)
    (notesInChords : list (list Z)) (bass : list Z) (fuel : nat) :
  forall index LTCorrected v,
    size chords - index < Z.of_nat fuel -> (0 < fuel)%nat ->
    canCreateChoraleHelper fuel majorKey chords notesInChords bass index
      LTCorrected v <> OutOfFuel.
Proof.
  induction fuel as [| fuel IH]; intros index LTCorrected v Hfuel Hpos;
    [lia |]. simpl.
  destruct (Z.geb_spec index (size chords)); [discriminate |].
  apply bind_fuel; [apply choraleStep_fuel |].
  intros [rejected | advanced flag]; [discriminate |]. apply IH; lia.
Qed.

Lemma tryVoicing_fuel (majorKey : bool) (chords : list Z)
    (notesInChords : list (list Z)) (bass : list Z) (v : voices) (s a t : Z) :
  tryVoicing majorKey chords notesInChords bass v s a t <> OutOfFuel.
Proof.
  unfold tryVoicing. apply canCreateChoraleHelper_fuel; [| lia].
  pose proof (size_nonneg chords). unfold size in *. lia.
Qed.

(** [canCreateChorale] returns or faults: the budget it gives the helper is
    never exhausted. *)
Lemma canCreateChorale_fuel (majorKey : bool) (chords : list Z)
    (notesInChords : list (list Z)) (v : voices) (bass : list Z) :
  canCreateChorale majorKey chords notesInChords v bass <> OutOfFuel.
Proof.
  unfold canCreateChorale, startsOctaveLower, orElse, andAlso.
  repeat first [ apply tryVoicing_fuel | progress fuel_free ].
Qed.

Lemma tryCandidate_fuel (recurse : list Z -> result (bool * list Z))
    (candidate index : Z) :
  (forall chords, recurse chords <> OutOfFuel) ->
  forall relations chords,
    tryCandidate recurse candidate index relations chords <> OutOfFuel.
Proof.
  intros Hrec. induction relations as [| possibleChord rest IH];
    intros chords; simpl; [discriminate |].
  destruct (possibleChord =? candidate); [| apply IH].
  apply bind_fuel; [apply Hrec |]. intros [found pushed].
  destruct found; [discriminate |].
  apply bind_fuel; [| intros; apply IH].
  unfold vremove.
  destruct ((index <? 0) || (size pushed <=? index)); discriminate.
Qed.

Lemma createChordProgressionRec_fuel (majorKey : bool) (bass : list Z)
    (chordRelations : list (list Z)) (startingNote : Z) (fuel : nat) :
  forall index currentChord chords,
    0 <= index -> size bass - 1 - index <= Z.of_nat fuel -> (0 < fuel)%nat ->
    createChordProgressionRec fuel majorKey bass chordRelations index
      startingNote currentChord chords <> OutOfFuel.
Proof.
  induction fuel as [| fuel IH]; intros index currentChord chords H0 Hfuel Hpos;
    [lia |]. simpl.
  destruct (Z.eqb_spec index (size bass - 2));
    [destruct (negb (currentChord =? 5)); discriminate |].
  destruct (vat bass (index + 1)) as [next | |] eqn:Enext; simpl;
    try discriminate; [| elim (vat_never_out_of_fuel _ _ Enext)].
  apply vat_bound in Enext.
  assert (Hrec : forall chord chords',
             createChordProgressionRec fuel majorKey bass chordRelations
               (index + 1) startingNote chord chords' <> OutOfFuel)
    by (intros; apply IH; lia).
  apply bind_fuel; [apply vat_never_out_of_fuel |]. intros relations.
  apply bind_fuel; [apply tryCandidate_fuel; apply Hrec |].
  intros [found afterRoot]. destruct found; [discriminate |].
  apply bind_fuel; [fuel_free |]. intros firstInvChord.
  apply bind_fuel; [apply tryCandidate_fuel; apply Hrec |].
  intros [found afterInv]. destruct found; discriminate.
Qed.

(** [createChordProgression] returns or faults: a budget of one call per
    bass note is never exhausted. *)
Lemma createChordProgression_fuel (majorKey : bool) (bass chords : list Z)
    (chordRelations : list (list Z)) :
  createChordProgression majorKey bass chords chordRelations <> OutOfFuel.
Proof.
  unfold createChordProgression.
  destruct (vat bass 0) as [startingNote | |] eqn:E; simpl; try discriminate;
    [| elim (vat_never_out_of_fuel _ _ E)].
  apply vat_bound in E. unfold size in *.
  apply createChordProgressionRec_fuel; unfold size; lia.
Qed.

(** ** The tonic entry of a built catalog *)

Lemma highestTonic_near_end (tonicNotes : list Z) :
  size tonicNotes - 3 <= highestTonic tonicNotes.
Proof.
  unfold highestTonic. pose proof (size_nonneg tonicNotes).
  destruct (Z.eqb_spec (size tonicNotes) 0); [lia |].
  rewrite Z.quot_div_nonneg by lia.
  pose proof (Z.div_mod (size tonicNotes - 1) 3).
  pose proof (Z.mod_pos_bound (size tonicNotes - 1) 3). lia.
Qed.

Lemma lowestOctave_range (startNote : Z) :
  0 <= startNote -> 0 <= lowestOctave startNote < 12.
Proof.
  funelim (lowestOctave startNote); intros Hpos; [| lia].
  match goal with IH : _ -> 0 <= lowestOctave _ < 12 |- _ => apply IH end. lia.
Qed.

Lemma built_tonic_entry (startNote : Z) (majorKey : bool) :
  0 <= startNote ->
  exists tonicNotes,
    vat (establishNotesInChords startNote majorKey) 1 = Ret tonicNotes
    /\ forallb (fun pitch => pitch <=? SOPRANO_MAX) tonicNotes = true
    /\ roomForFalse tonicNotes = false.
Proof.
  intros Hpos. pose proof (lowestOctave_range startNote Hpos) as Hrange.
  destruct majorKey;
    [rewrite establishNotesInChords_major
    | rewrite establishNotesInChords_minor];
    cbv zeta; generalize dependent (lowestOctave startNote);
    intros tonic Hrange;
    assert (Hcases : tonic = 0 \/ tonic = 1 \/ tonic = 2 \/ tonic = 3
                     \/ tonic = 4 \/ tonic = 5 \/ tonic = 6 \/ tonic = 7
                     \/ tonic = 8 \/ tonic = 9 \/ tonic = 10 \/ tonic = 11)
      by lia;
    repeat destruct Hcases as [Hcases | Hcases]; subst tonic;
    eexists; (split; [reflexivity | split; vm_compute; reflexivity]).
Qed.

(** * Further properties *)

(** ** Scale model *)

Ltac euclid := Z.quot_rem_to_equations; Z.div_mod_to_equations; lia.

Lemma nonNegative_closed (distance : Z) :
  nonNegative distance = if distance <? 0 then distance mod 12 else distance.
Proof.
  funelim (nonNegative distance).
  - match goal with IH : nonNegative _ = _ |- _ => rewrite IH end.
    destruct (Z.ltb_spec (distance + 12) 0), (Z.ltb_spec distance 0); euclid.
  - destruct (Z.ltb_spec distance 0); lia.
Qed.

Lemma nonNegative_residue (distance : Z) :
  Z.rem (nonNegative distance) 12 = distance mod 12.
Proof.
  rewrite nonNegative_closed. destruct (Z.ltb_spec distance 0); euclid.
Qed.

Lemma nonNegative_rem (x : Z) : nonNegative (Z.rem x 12) = x mod 12.
Proof.
  rewrite nonNegative_closed. destruct (Z.ltb_spec (Z.rem x 12) 0); euclid.
Qed.

Lemma rem_residue (x : Z) : (Z.rem x 12) mod 12 = x mod 12.
Proof. euclid. Qed.

Lemma residue_cases (x : Z) :
  x mod 12 = 0 \/ x mod 12 = 1 \/ x mod 12 = 2 \/ x mod 12 = 3
  \/ x mod 12 = 4 \/ x mod 12 = 5 \/ x mod 12 = 6 \/ x mod 12 = 7
  \/ x mod 12 = 8 \/ x mod 12 = 9 \/ x mod 12 = 10 \/ x mod 12 = 11.
Proof. euclid. Qed.

Ltac by_residue x :=
  let H := fresh "Hres" in
  pose proof (residue_cases x) as H;
  repeat destruct H as [H | H]; rewrite H.

(** X1.  The scale test of the input loop and the degree table agree: a
    note is rejected by [notInScale] exactly when [distanceToChord] finds
    no degree for its distance from the starting note, in both modes. *)
Theorem scale_test_matches_degree_table (nextNote startNote : Z)
    (majorKey : bool) :
  notInScale nextNote startNote majorKey = true
  <-> distanceToChord majorKey (Z.rem (nextNote - startNote) 12) = 0.
Proof.
  unfold notInScale, distanceToChord. cbv zeta.
  rewrite nonNegative_residue, nonNegative_rem.
  rewrite rem_residue.
  destruct majorKey; by_residue (nextNote - startNote); simpl;
    split; intros; (discriminate || reflexivity).
Qed.

(** X2.  The degree of a distance depends on its residue modulo 12 only,
    for negative distances as well: adding any number of octaves changes
    nothing. *)
Theorem distanceToChord_octaves (majorKey : bool) (distance octaves : Z) :
  distanceToChord majorKey (distance + 12 * octaves)
  = distanceToChord majorKey distance.
Proof.
  unfold distanceToChord. cbv zeta. rewrite !nonNegative_residue.
  replace ((distance + 12 * octaves) mod 12) with (distance mod 12);
    [reflexivity |].
  rewrite Z.mul_comm, Z.mod_add by lia. reflexivity.
Qed.

(** X3.  Every degree [distanceToChord] returns is an index of the relation
    table of the same mode and of the catalog: neither lookup reads out of
    bounds. *)
Theorem degree_indexes_table_and_catalog (majorKey : bool)
    (distance startNote : Z) :
  exists successors notes,
    vat (setUpChordRels majorKey) (distanceToChord majorKey distance)
    = Ret successors
    /\ vat (establishNotesInChords startNote majorKey)
         (distanceToChord majorKey distance) = Ret notes.
Proof.
  destruct majorKey;
    [rewrite establishNotesInChords_major
    | rewrite establishNotesInChords_minor]; cbv zeta;
    unfold distanceToChord; cbv zeta; rewrite nonNegative_residue;
    by_residue distance; do 2 eexists; split; reflexivity.
Qed.

Lemma distanceToChord_range (majorKey : bool) (distance : Z) :
  0 <= distanceToChord majorKey distance <= 8.
Proof.
  unfold distanceToChord. cbv zeta. rewrite nonNegative_residue.
  destruct majorKey; by_residue distance; simpl; lia.
Qed.

(** ** Chord-progression search *)

Lemma setUpChordRels_closed (majorKey : bool) :
  closedTable (setUpChordRels majorKey).
Proof.
  intros chord successors next Hchord Hin.
  pose proof (vat_bound _ _ _ Hchord) as Hbound.
  destruct majorKey; unfold size in Hbound; simpl in Hbound;
    assert (Hcases : chord = 0 \/ chord = 1 \/ chord = 2 \/ chord = 3
                     \/ chord = 4 \/ chord = 5 \/ chord = 6 \/ chord = 7
                     \/ chord = 8) by lia;
    repeat destruct Hcases as [Hcases | Hcases]; subst chord;
    try (exfalso; lia);
    injection Hchord as <-; simpl in Hin;
    repeat destruct Hin as [Hin | Hin]; try contradiction; subst next;
    eexists; reflexivity.
Qed.

Lemma vremove_returns {A : Type} (v : list A) (index : Z) :
  0 <= index < size v -> exists v', vremove v index = Ret v'.
Proof.
  intros H. unfold vremove.
  destruct (Z.ltb_spec index 0); [lia |].
  destruct (Z.leb_spec (size v) index); [lia |]. simpl. eexists. reflexivity.
Qed.

Lemma size_length {A : Type} (v w : list A) :
  length v = length w -> size v = size w.
Proof. unfold size. intros ->. reflexivity. Qed.

Section Progression.
Variable majorKey : bool.
Variable bass : list Z.
Variable chordRelations : list (list Z).
Variable startingNote : Z.

Let search (fuel : nat) (index currentChord : Z) (chords : list Z) :=
  createChordProgressionRec fuel majorKey bass chordRelations index
    startingNote currentChord chords.

(** The candidate loop returns when the recursive call does and the vector
    is long enough for the removal. *)
Lemma tryCandidate_returns (recurse : list Z -> result (bool * list Z))
    (candidate index : Z) :
  0 <= index ->
  (forall chords chords',
      recurse chords = Ret (false, chords') ->
      length chords' = length chords) ->
  forall relations chords,
    index < size chords ->
    (In candidate relations ->
     forall pushed, index + 1 < size pushed ->
                    exists found chords',
                      recurse pushed = Ret (found, chords')) ->
    exists found chords',
      tryCandidate recurse candidate index relations chords
      = Ret (found, chords').
Proof.
  intros Hindex Hfail. induction relations as [| possibleChord rest IH];
    intros chords Hsize Hrec; simpl.
  - do 2 eexists. reflexivity.
  - destruct (Z.eqb_spec possibleChord candidate) as [-> | Hne].
    + destruct (Hrec (or_introl eq_refl) (push_back chords candidate))
        as (found & pushed & Hpushed); [rewrite size_push_back; lia |].
      rewrite Hpushed. simpl. destruct found; [do 2 eexists; reflexivity |].
      apply Hfail in Hpushed. rewrite push_back_length in Hpushed.
      destruct (vremove_returns pushed index) as [removed Hremoved];
        [unfold size in *; lia |].
      rewrite Hremoved. simpl. apply vremove_length in Hremoved.
      apply IH; [unfold size in *; lia |].
      intros Hin. apply Hrec. right. exact Hin.
    + apply IH; [assumption |]. intros Hin. apply Hrec. right. exact Hin.
Qed.

Hypothesis closed : closedTable chordRelations.

Lemma search_returns (fuel : nat) :
  forall index currentChord chords,
    0 <= index <= size bass - 2 ->
    size bass - 1 - index <= Z.of_nat fuel ->
    index < size chords ->
    (exists successors, vat chordRelations currentChord = Ret successors) ->
    exists found chords',
      search fuel index currentChord chords = Ret (found, chords').
Proof.
  unfold search.
  induction fuel as [| fuel IH];
    intros index currentChord chords Hindex Hfuel Hsize [relations Hrel];
    [lia |]. simpl.
  destruct (Z.eqb_spec index (size bass - 2)) as [Hbase | Hstep].
  - destruct (negb (currentChord =? 5)); do 2 eexists; reflexivity.
  - destruct (vat_inside bass (index + 1)) as [next Hnext]; [lia |].
    rewrite Hnext, Hrel. simpl.
    assert (Hcandidate : forall candidate relations' chords1,
               vat chordRelations currentChord = Ret relations' ->
               index < size chords1 ->
               exists found chords',
                 tryCandidate
                   (createChordProgressionRec fuel majorKey bass
                      chordRelations (index + 1) startingNote candidate)
                   candidate index relations' chords1
                 = Ret (found, chords')).
    { intros candidate relations' chords1 Hrel' Hsize1.
      apply tryCandidate_returns; try lia.
      - intros. eapply createChordProgressionRec_failure_length; eauto.
      - intros Hin pushed Hpushed. apply IH; try lia.
        eapply closed; eauto. }
    destruct (Hcandidate
                (if distanceToChord majorKey (Z.rem (next - startingNote) 12)
                    =? 7 then 5
                 else distanceToChord majorKey (Z.rem (next - startingNote) 12))
                relations chords Hrel Hsize)
      as (found & afterRoot & Hroot).
    rewrite Hroot. simpl. destruct found; [do 2 eexists; reflexivity |].
    apply tryCandidate_failure_length in Hroot;
      [| intros; eapply createChordProgressionRec_failure_length; eauto].
    match goal with
    | |- exists _ _, bind ?inversion _ = _ =>
        assert (Hinv : exists firstInvChord, inversion = Ret firstInvChord)
    end.
    { destruct (_ =? 2); [| eexists; reflexivity].
      destruct majorKey; [eexists; reflexivity |].
      destruct (vat_inside bass (index + 2)) as [nextNext Hnn]; [lia |].
      rewrite Hnn. simpl. destruct (_ =? 3); eexists; reflexivity. }
    destruct Hinv as [firstInvChord ->]. simpl.
    destruct (Hcandidate firstInvChord relations afterRoot Hrel)
      as (found & afterInv & Hinversion); [unfold size in *; lia |].
    rewrite Hinversion. simpl. destruct found; do 2 eexists; reflexivity.
Qed.
End Progression.

(** X4.  With a relation table of [setUpChordRels], be it the one of the
    key mode of the search or, as [main] may pass it, the one of the other
    mode, the search reads no vector out of bounds on any bass line of at
    least two notes, whatever the notes and the accumulator: it returns
    true or false. *)
Theorem progression_search_stays_in_bounds (majorKey tableKey : bool)
    (bass chords : list Z) :
  (2 <= length bass)%nat ->
  exists found chords',
    createChordProgression majorKey bass chords (setUpChordRels tableKey)
    = Ret (found, chords').
Proof.
  intros Hlen. unfold createChordProgression.
  destruct (vat_inside bass 0) as [startingNote Hstart];
    [unfold size; lia |].
  rewrite Hstart. simpl.
  apply search_returns.
  - apply setUpChordRels_closed.
  - unfold size. lia.
  - unfold size. lia.
  - rewrite size_push_back. pose proof (size_nonneg chords). lia.
  - destruct tableKey; eexists; reflexivity.
Qed.

Lemma progression_search_stays_in_bounds_witness :
  exists found chords',
    createChordProgression false [3; 30; -4] [9] (setUpChordRels true)
    = Ret (found, chords').
Proof.
  apply (progression_search_stays_in_bounds false true [3; 30; -4] [9]).
  simpl. lia.
Defined.

(** A candidate loop that returns true does so through a recursive call on
    a vector as long as the one it was given plus the candidate. *)
Lemma tryCandidate_true (recurse : list Z -> result (bool * list Z))
    (candidate index : Z) :
  (forall chords chords',
      recurse chords = Ret (false, chords') ->
      length chords' = length chords) ->
  forall relations chords chords',
    tryCandidate recurse candidate index relations chords
    = Ret (true, chords') ->
    exists before,
      length before = length chords
      /\ recurse (push_back before candidate) = Ret (true, chords').
Proof.
  intros Hfail. induction relations as [| possibleChord rest IH];
    intros chords chords' H; simpl in H; [discriminate |].
  destruct (possibleChord =? candidate); [| apply IH; assumption].
  destruct (recurse (push_back chords candidate))
    as [[found pushed] | |] eqn:E; simpl in H; try discriminate.
  destruct found.
  - injection H as <-. exists chords. auto.
  - destruct (vremove pushed index) as [removed | |] eqn:Er;
      simpl in H; try discriminate.
    apply Hfail in E. apply vremove_length in Er.
    rewrite push_back_length in E.
    destruct (IH _ _ H) as (before & Hlen & Hrec).
    exists before. split; [lia | assumption].
Qed.

Lemma firstInversion_not_dominant (degree : Z) :
  0 <= degree <= 8 ->
  Z.rem ((if degree =? 7 then 5 else degree) - 2) 12 <> 5.
Proof.
  intros Hrange. destruct (Z.eqb_spec degree 7); euclid.
Qed.

Lemma search_true (majorKey : bool) (bass : list Z)
    (chordRelations : list (list Z)) (startingNote : Z) (fuel : nat) :
  forall index currentChord chords chords',
    createChordProgressionRec fuel majorKey bass chordRelations index
      startingNote currentChord chords = Ret (true, chords') ->
    size chords' = size chords + (size bass - 1 - index)
    /\ ((index = size bass - 2 /\ currentChord = 5
         /\ chords' = push_back chords 1)
        \/ (index < size bass - 2
            /\ (exists front, chords' = front ++ [5; 1])
            /\ exists note,
                vat bass (size bass - 2) = Ret note
                /\ dominantDegree
                     (distanceToChord majorKey
                        (Z.rem (note - startingNote) 12)))).
Proof.
  induction fuel as [| fuel IH]; intros index currentChord chords chords' H;
    simpl in H; [discriminate |].
  destruct (Z.eqb_spec index (size bass - 2)) as [Hbase | Hstep].
  - destruct (Z.eqb_spec currentChord 5); simpl in H; [| discriminate].
    injection H as <-. rewrite size_push_back.
    split; [lia | left; auto].
  - destruct (vat bass (index + 1)) as [next | |] eqn:Hnext;
      simpl in H; try discriminate.
    pose proof (vat_bound _ _ _ Hnext) as Hbound.
    pose proof (distanceToChord_range majorKey
                  (Z.rem (next - startingNote) 12)) as Hdegree.
    set (degree := distanceToChord majorKey (Z.rem (next - startingNote) 12))
      in *.
    destruct (vat chordRelations currentChord) as [relations | |];
      simpl in H; try discriminate.
    assert (Hcandidate : forall candidate before,
               candidate <> 5 \/ dominantDegree degree ->
               createChordProgressionRec fuel majorKey bass chordRelations
                 (index + 1) startingNote candidate
                 (push_back before candidate) = Ret (true, chords') ->
               length before = length chords ->
               size chords' = size chords + (size bass - 1 - index)
               /\ ((index = size bass - 2 /\ currentChord = 5
                    /\ chords' = push_back chords 1)
                   \/ (index < size bass - 2
                       /\ (exists front, chords' = front ++ [5; 1])
                       /\ exists note,
                           vat bass (size bass - 2) = Ret note
                           /\ dominantDegree
                                (distanceToChord majorKey
                                   (Z.rem (note - startingNote) 12))))).
    { intros candidate before Hcand Hrec Hlen.
      apply IH in Hrec. destruct Hrec as [Hsize Hshape].
      rewrite size_push_back, (size_length _ _ Hlen) in Hsize.
      split; [lia |]. right. split; [lia |].
      destruct Hshape as [(Hlast & Hfive & ->) | (_ & Hfront & Hnote)].
      - split.
        + exists before. subst candidate. unfold push_back.
          rewrite <- app_assoc. reflexivity.
        + exists next. replace (size bass - 2) with (index + 1) by lia.
          split; [assumption |].
          destruct Hcand as [Hcand | Hcand]; [contradiction | assumption].
      - split; assumption. }
    match type of H with
    | bind ?root _ = _ => destruct root as [[found afterRoot] | |] eqn:Eroot
    end; simpl in H; try discriminate.
    destruct found.
    + injection H as <-.
      apply tryCandidate_true in Eroot;
        [| intros; eapply createChordProgressionRec_failure_length; eauto].
      destruct Eroot as (before & Hlen & Hrec).
      eapply Hcandidate; [| eassumption | assumption].
      unfold dominantDegree.
      destruct (Z.eqb_spec degree 7); [right; right; assumption |].
      destruct (Z.eq_dec degree 5);
        [right; left; assumption | left; assumption].
    + apply tryCandidate_failure_length in Eroot;
        [| intros; eapply createChordProgressionRec_failure_length; eauto].
      match type of H with
      | bind ?inversion _ = _ =>
          destruct inversion as [firstInvChord | |] eqn:Einv
      end; simpl in H; try discriminate.
      match type of H with
      | bind ?inv _ = _ => destruct inv as [[found afterInv] | |] eqn:Etry
      end; simpl in H; try discriminate.
      destruct found; [| discriminate]. injection H as <-.
      apply tryCandidate_true in Etry;
        [| intros; eapply createChordProgressionRec_failure_length; eauto].
      destruct Etry as (before & Hlen & Hrec).
      eapply Hcandidate; [| eassumption | lia].
      left. pose proof (firstInversion_not_dominant degree Hdegree) as Hnot.
      destruct ((if degree =? 7 then 5 else degree) =? 2).
      * destruct majorKey; [injection Einv as <-; lia |].
        destruct (vat bass (index + 2)); simpl in Einv; try discriminate.
        destruct (_ =? 3); injection Einv as <-; lia.
      * injection Einv as <-. assumption.
Qed.

(** X5.  Whenever the search returns true, the accumulator has grown by
    exactly one chord per bass note and ends with the chords 5 and 1. *)
Theorem progression_success_shape (majorKey : bool) (bass chords : list Z)
    (chordRelations : list (list Z)) (chords' : list Z) :
  createChordProgression majorKey bass chords chordRelations
  = Ret (true, chords') ->
  length chords' = (length chords + length bass)%nat
  /\ exists front, chords' = front ++ [5; 1].
Proof.
  unfold createChordProgression. intros H.
  destruct (vat bass 0) as [startingNote | |]; simpl in H; try discriminate.
  apply search_true in H. destruct H as [Hsize Hshape].
  rewrite size_push_back in Hsize. unfold size in Hsize.
  split; [lia |].
  destruct Hshape as [(_ & Hfive & _) | (_ & Hfront & _)];
    [discriminate | assumption].
Qed.

Lemma progression_success_shape_witness :
  length [1; 2; 5; 1] = (length (@nil Z) + length [0; 2; 7; 0])%nat
  /\ exists front, [1; 2; 5; 1] = front ++ [5; 1].
Proof.
  apply (progression_success_shape true [0; 2; 7; 0] []
           (setUpChordRels true) [1; 2; 5; 1]).
  reflexivity.
Defined.

(** X6.  The search can only return true when the bass note before the
    last carries the dominant chord: its degree relative to the first
    note is 5, the root, or 7, the leading tone. *)
Theorem progression_needs_dominant_bass (majorKey : bool)
    (bass chords : list Z) (chordRelations : list (list Z))
    (chords' : list Z) :
  createChordProgression majorKey bass chords chordRelations
  = Ret (true, chords') ->
  exists first note,
    vat bass 0 = Ret first
    /\ vat bass (size bass - 2) = Ret note
    /\ dominantDegree (distanceToChord majorKey (Z.rem (note - first) 12)).
Proof.
  unfold createChordProgression. intros H.
  destruct (vat bass 0) as [startingNote | |]; simpl in H; try discriminate.
  apply search_true in H. destruct H as [_ Hshape].
  destruct Hshape as [(_ & Hfive & _) | (_ & _ & note & Hnote & Hdom)];
    [discriminate |].
  exists startingNote, note. auto.
Qed.

Lemma progression_needs_dominant_bass_witness :
  exists first note,
    vat [0; 2; 11; 12] 0 = Ret first
    /\ vat [0; 2; 11; 12] (size [0; 2; 11; 12] - 2) = Ret note
    /\ dominantDegree (distanceToChord true (Z.rem (note - first) 12)).
Proof.
  apply (progression_needs_dominant_bass true [0; 2; 11; 12] []
           (setUpChordRels true) [1; 2; 5; 1]).
  reflexivity.
Defined.

Lemma tryCandidate_same_decision
    (recurse : list Z -> result (bool * list Z)) (candidate index : Z) :
  (forall c1 c2 b1 b2 r1 r2,
      recurse c1 = Ret (b1, r1) -> recurse c2 = Ret (b2, r2) -> b1 = b2) ->
  forall relations c1 c2 b1 b2 r1 r2,
    tryCandidate recurse candidate index relations c1 = Ret (b1, r1) ->
    tryCandidate recurse candidate index relations c2 = Ret (b2, r2) ->
    b1 = b2.
Proof.
  intros Hrec. induction relations as [| possibleChord rest IH];
    intros c1 c2 b1 b2 r1 r2 H1 H2; simpl in H1, H2.
  - congruence.
  - destruct (possibleChord =? candidate); [| eapply IH; eauto].
    destruct (recurse (push_back c1 candidate)) as [[f1 p1] | |] eqn:E1;
      simpl in H1; try discriminate.
    destruct (recurse (push_back c2 candidate)) as [[f2 p2] | |] eqn:E2;
      simpl in H2; try discriminate.
    assert (f1 = f2) by (eapply Hrec; eauto). subst f2.
    destruct f1; [congruence |].
    destruct (vremove p1 index); simpl in H1; try discriminate.
    destruct (vremove p2 index); simpl in H2; try discriminate.
    eapply IH; eauto.
Qed.

Lemma search_same_decision (majorKey : bool) (bass : list Z)
    (chordRelations : list (list Z)) (startingNote : Z) (fuel : nat) :
  forall index currentChord c1 c2 b1 b2 r1 r2,
    createChordProgressionRec fuel majorKey bass chordRelations index
      startingNote currentChord c1 = Ret (b1, r1) ->
    createChordProgressionRec fuel majorKey bass chordRelations index
      startingNote currentChord c2 = Ret (b2, r2) ->
    b1 = b2.
Proof.
  induction fuel as [| fuel IH];
    intros index currentChord c1 c2 b1 b2 r1 r2 H1 H2; simpl in H1, H2;
    [discriminate |].
  destruct (index =? size bass - 2).
  - destruct (negb (currentChord =? 5)); congruence.
  - destruct (vat bass (index + 1)) as [next | |];
      simpl in H1, H2; try discriminate.
    destruct (vat chordRelations currentChord) as [relations | |];
      simpl in H1, H2; try discriminate.
    match type of H1 with
    | bind ?root _ = _ => destruct root as [[f1 a1] | |] eqn:E1
    end; simpl in H1; try discriminate.
    match type of H2 with
    | bind ?root _ = _ => destruct root as [[f2 a2] | |] eqn:E2
    end; simpl in H2; try discriminate.
    assert (f1 = f2)
      by (eapply tryCandidate_same_decision; [| exact E1 | exact E2];
          intros; eapply IH; eauto).
    subst f2. destruct f1; [congruence |].
    match type of H1 with
    | bind ?inversion _ = _ => destruct inversion as [firstInvChord | |]
    end; simpl in H1, H2; try discriminate.
    match type of H1 with
    | bind ?inv _ = _ => destruct inv as [[g1 i1] | |] eqn:G1
    end; simpl in H1; try discriminate.
    match type of H2 with
    | bind ?inv _ = _ => destruct inv as [[g2 i2] | |] eqn:G2
    end; simpl in H2; try discriminate.
    assert (g1 = g2)
      by (eapply tryCandidate_same_decision; [| exact G1 | exact G2];
          intros; eapply IH; eauto).
    subst g2. destruct g1; congruence.
Qed.

(** X7.  Whether the search succeeds does not depend on the accumulator it
    is given: two runs on the same bass line, key mode and table that
    both return give the same answer, whatever the chords vectors hold. *)
Theorem progression_decision_ignores_accumulator (majorKey : bool)
    (bass : list Z) (chordRelations : list (list Z))
    (chords1 chords2 : list Z) (found1 found2 : bool)
    (result1 result2 : list Z) :
  createChordProgression majorKey bass chords1 chordRelations
  = Ret (found1, result1) ->
  createChordProgression majorKey bass chords2 chordRelations
  = Ret (found2, result2) ->
  found1 = found2.
Proof.
  unfold createChordProgression. intros H1 H2.
  destruct (vat bass 0) as [startingNote | |];
    simpl in H1, H2; try discriminate.
  eapply search_same_decision; eauto.
Qed.

Lemma progression_decision_ignores_accumulator_witness : true = true.
Proof.
  apply (progression_decision_ignores_accumulator true [0; 4; 7; 0]
           (setUpChordRels true) [] [6; 6; 6] true true
           [3; 1; 5; 1] [6; 6; 1; 3; 1; 5; 1]);
    reflexivity.
Defined.

(** X8.  A bass line of exactly two notes is always rejected, with the
    tonic chord left in the accumulator; on a shorter one the search reads
    the bass line out of bounds. *)
Theorem progression_on_short_bass (majorKey : bool) (bass chords : list Z)
    (chordRelations : list (list Z)) :
  (length bass <= 2)%nat ->
  createChordProgression majorKey bass chords chordRelations
  = if (length bass =? 2)%nat then Ret (false, push_back chords 1)
    else Fault.
Proof.
  intros Hlen.
  destruct bass as [| first [| second [| third rest]]]; simpl in Hlen;
    try lia; reflexivity.
Qed.

Lemma progression_on_short_bass_witness :
  createChordProgression false [7; 19] [] (setUpChordRels false)
  = if (length [7; 19] =? 2)%nat then Ret (false, push_back [] 1) else Fault.
Proof.
  apply (progression_on_short_bass false [7; 19] [] (setUpChordRels false)).
  simpl. lia.
Defined.

(** ** Chord-tone catalog *)

Lemma vat_app_left {A : Type} (v w : list A) (i : Z) :
  i < size v -> vat (v ++ w) i = vat v i.
Proof.
  intros H. unfold vat, size in *. destruct (Z.ltb_spec i 0); [reflexivity |].
  rewrite nth_error_app1 by lia. reflexivity.
Qed.

Lemma vat_app_right {A : Type} (v w : list A) (i : Z) :
  size v <= i -> vat (v ++ w) i = vat w (i - size v).
Proof.
  intros H. pose proof (size_nonneg v). unfold vat, size in *.
  destruct (Z.ltb_spec i 0); [lia |].
  destruct (Z.ltb_spec (i - Z.of_nat (length v)) 0); [lia |].
  rewrite nth_error_app2 by lia.
  replace (Z.to_nat (i - Z.of_nat (length v)))
    with (Z.to_nat i - length v)%nat by lia.
  reflexivity.
Qed.

Lemma fillMajorChordVector_done (v : list Z) (index : Z) :
  SOPRANO_MAX < index -> fillMajorChordVector v index = v.
Proof.
  intros H. funelim (fillMajorChordVector v index); [lia | reflexivity].
Qed.

Lemma fillMinorChordVector_done (v : list Z) (index : Z) :
  SOPRANO_MAX < index -> fillMinorChordVector v index = v.
Proof.
  intros H. funelim (fillMinorChordVector v index); [lia | reflexivity].
Qed.

Lemma fillDimChordVector_done (v : list Z) (index : Z) :
  SOPRANO_MAX < index -> fillDimChordVector v index = v.
Proof. intros H. funelim (fillDimChordVector v index); [lia | reflexivity]. Qed.

Ltac pick_case :=
  first [ assumption | solve [euclid] | left; pick_case | right; pick_case ].

Ltac members_round :=
  unfold push_back; rewrite ?in_app_iff; simpl In;
  unfold triadTone, SOPRANO_MAX in *;
  let Hx := fresh "Hx" in
  split; intros Hx; decompose [or and] Hx; clear Hx;
  try contradiction; pick_case.

Lemma fillMajorChordVector_members (v : list Z) (index : Z) :
  forall pitch,
    In pitch (fillMajorChordVector v index)
    <-> In pitch v \/ triadTone index 4 7 pitch.
Proof.
  funelim (fillMajorChordVector v index); intros pitch;
    [| unfold triadTone; intuition lia].
  destruct (Z.leb_spec (index + 4) SOPRANO_MAX);
    [destruct (Z.leb_spec (index + 4 + 3) SOPRANO_MAX) |];
    match goal with
    | IH : forall p, In p (fillMajorChordVector ?w ?i) <-> _
      |- In _ (fillMajorChordVector ?w ?i) <-> _ => rewrite IH
    end; members_round.
Qed.

Lemma fillMinorChordVector_members (v : list Z) (index : Z) :
  forall pitch,
    In pitch (fillMinorChordVector v index)
    <-> In pitch v \/ triadTone index 3 7 pitch.
Proof.
  funelim (fillMinorChordVector v index); intros pitch;
    [| unfold triadTone; intuition lia].
  destruct (Z.leb_spec (index + 3) SOPRANO_MAX);
    [destruct (Z.leb_spec (index + 3 + 4) SOPRANO_MAX) |];
    match goal with
    | IH : forall p, In p (fillMinorChordVector ?w ?i) <-> _
      |- In _ (fillMinorChordVector ?w ?i) <-> _ => rewrite IH
    end; members_round.
Qed.

Lemma fillDimChordVector_members (v : list Z) (index : Z) :
  forall pitch,
    In pitch (fillDimChordVector v index)
    <-> In pitch v \/ triadTone index 3 6 pitch.
Proof.
  funelim (fillDimChordVector v index); intros pitch;
    [| unfold triadTone; intuition lia].
  destruct (Z.leb_spec (index + 3) SOPRANO_MAX);
    [destruct (Z.leb_spec (index + 3 + 3) SOPRANO_MAX) |];
    match goal with
    | IH : forall p, In p (fillDimChordVector ?w ?i) <-> _
      |- In _ (fillDimChordVector ?w ?i) <-> _ => rewrite IH
    end; members_round.
Qed.

Ltac entry_members :=
  first [ rewrite fillMajorChordVector_members
        | rewrite fillMinorChordVector_members
        | rewrite fillDimChordVector_members ];
  simpl In; tauto.

(** X9.  In a major key every catalog entry holds exactly the tones of its
    triad from the root up to [SOPRANO_MAX]: the major triads on the
    distances 0, 5 and 7 from the tonic for the degrees 1, 4 and 5, the
    minor triads on 2, 4 and 9 for the degrees 2, 3 and 6, the diminished
    triad on 11 for degree 7. *)
Theorem major_catalog_holds_the_triads (startNote pitch : Z) :
  let tonic := lowestOctave startNote in
  let entry degree := nth degree (establishNotesInChords startNote true) [] in
  (In pitch (entry 1%nat) <-> triadTone (tonic + 0) 4 7 pitch)
  /\ (In pitch (entry 2%nat) <-> triadTone (tonic + 2) 3 7 pitch)
  /\ (In pitch (entry 3%nat) <-> triadTone (tonic + 4) 3 7 pitch)
  /\ (In pitch (entry 4%nat) <-> triadTone (tonic + 5) 4 7 pitch)
  /\ (In pitch (entry 5%nat) <-> triadTone (tonic + 7) 4 7 pitch)
  /\ (In pitch (entry 6%nat) <-> triadTone (tonic + 9) 3 7 pitch)
  /\ (In pitch (entry 7%nat) <-> triadTone (tonic + 11) 3 6 pitch).
Proof.
  intros tonic entry. subst entry. cbv beta.
  rewrite establishNotesInChords_major. cbv zeta. fold tonic.
  cbn [nth]. repeat match goal with |- _ /\ _ => split end; entry_members.
Qed.

(** X10.  In a minor key every catalog entry holds exactly the tones of a
    triad from its root up to [SOPRANO_MAX]: minor triads on the distances
    0 and 5 for the degrees 1 and 4, diminished triads on 2 and 11 for 2
    and 7, major triads on 3, 7 and 8 for 3, 5 and 6, and for degree 8
    the major triad on the distance 11. *)
Theorem minor_catalog_holds_the_triads (startNote pitch : Z) :
  let tonic := lowestOctave startNote in
  let entry degree := nth degree (establishNotesInChords startNote false) [] in
  (In pitch (entry 1%nat) <-> triadTone (tonic + 0) 3 7 pitch)
  /\ (In pitch (entry 2%nat) <-> triadTone (tonic + 2) 3 6 pitch)
  /\ (In pitch (entry 3%nat) <-> triadTone (tonic + 3) 4 7 pitch)
  /\ (In pitch (entry 4%nat) <-> triadTone (tonic + 5) 3 7 pitch)
  /\ (In pitch (entry 5%nat) <-> triadTone (tonic + 7) 4 7 pitch)
  /\ (In pitch (entry 6%nat) <-> triadTone (tonic + 8) 4 7 pitch)
  /\ (In pitch (entry 7%nat) <-> triadTone (tonic + 11) 3 6 pitch)
  /\ (In pitch (entry 8%nat) <-> triadTone (tonic + 11) 4 7 pitch).
Proof.
  intros tonic entry. subst entry. cbv beta.
  rewrite establishNotesInChords_minor. cbv zeta. fold tonic.
  cbn [nth]. repeat match goal with |- _ /\ _ => split end; entry_members.
Qed.

Lemma size_app {A : Type} (v w : list A) : size (v ++ w) = size v + size w.
Proof. unfold size. rewrite length_app. lia. Qed.

(** A vector [v] of [3 * k] tones followed by up to three new ones: a read
    falls into [v] or on one of the new tones, which sit where [triadAt]
    puts them. *)
Lemma layout_round (v new : list Z) (root third fifth k i x : Z) :
  0 <= k -> size v = 3 * k -> (length new <= 3)%nat ->
  (forall j y, vat new j = Ret y -> y = triadAt root third fifth (3 * k + j)) ->
  vat (v ++ new) i = Ret x ->
  (i < 3 * k /\ vat v i = Ret x)
  \/ (3 * k <= i /\ x = triadAt root third fifth i).
Proof.
  intros Hk Hsize Hnew Hat Hvat. destruct (Z_lt_le_dec i (3 * k)).
  - left. rewrite vat_app_left in Hvat by lia. auto.
  - right. rewrite vat_app_right in Hvat by lia. split; [assumption |].
    apply Hat in Hvat. rewrite Hvat. f_equal. lia.
Qed.

Lemma triadAt_values (root third fifth k : Z) :
  triadAt root third fifth (3 * k + 0) = root + 12 * k
  /\ triadAt root third fifth (3 * k + 1) = root + 12 * k + third
  /\ triadAt root third fifth (3 * k + 2) = root + 12 * k + fifth.
Proof.
  unfold triadAt.
  replace ((3 * k + 0) / 3) with k by euclid.
  replace ((3 * k + 1) / 3) with k by euclid.
  replace ((3 * k + 2) / 3) with k by euclid.
  replace ((3 * k + 0) mod 3) with 0 by euclid.
  replace ((3 * k + 1) mod 3) with 1 by euclid.
  replace ((3 * k + 2) mod 3) with 2 by euclid.
  repeat split; lia.
Qed.

Ltac new_tones k :=
  let j := fresh "j" in
  let y := fresh "y" in
  let H := fresh "H" in
  intros j y H; pose proof (vat_bound _ _ _ H) as Hj;
  unfold size in Hj; simpl in Hj;
  match goal with
  | |- _ = triadAt ?root ?third ?fifth _ =>
      pose proof (triadAt_values root third fifth k) as (T0 & T1 & T2)
  end;
  assert (Hcases : j = 0 \/ j = 1 \/ j = 2) by lia;
  repeat destruct Hcases as [Hcases | Hcases]; subst j;
  try (exfalso; lia); injection H as <-; lia.

Lemma fillMajorChordVector_layout (v : list Z) (index : Z) :
  forall root k i x,
    0 <= k -> size v = 3 * k -> index = root + 12 * k ->
    vat (fillMajorChordVector v index) i = Ret x ->
    (i < 3 * k /\ vat v i = Ret x)
    \/ (3 * k <= i /\ x = triadAt root 4 7 i).
Proof.
  funelim (fillMajorChordVector v index); intros root k i x Hk Hsize Hroot Hvat.
  - destruct (Z.leb_spec (index + 4) SOPRANO_MAX);
      [destruct (Z.leb_spec (index + 4 + 3) SOPRANO_MAX) |].
    + match goal with
      | IH : forall root k i x,
            _ -> size (push_back (push_back (push_back _ _) _) _) = _ -> _
        |- _ =>
          apply (IH root (k + 1)) in Hvat
      end.
      * destruct Hvat as [[Hlt Hvat] | [Hge Hx]];
          [| right; split; [lia | exact Hx]].
        unfold push_back in Hvat. rewrite <- !app_assoc in Hvat.
        simpl app in Hvat.
        eapply layout_round; [exact Hk | exact Hsize | | | exact Hvat];
          [simpl; lia | new_tones k].
      * lia.
      * rewrite !size_push_back. lia.
      * lia.
    + rewrite fillMajorChordVector_done in Hvat by lia.
      unfold push_back in Hvat. rewrite <- !app_assoc in Hvat.
      simpl app in Hvat.
      eapply layout_round; [exact Hk | exact Hsize | | | exact Hvat];
        [simpl; lia | new_tones k].
    + rewrite fillMajorChordVector_done in Hvat by lia.
      unfold push_back in Hvat.
      eapply layout_round; [exact Hk | exact Hsize | | | exact Hvat];
        [simpl; lia | new_tones k].
  - left. split; [| assumption]. apply vat_bound in Hvat. lia.
Qed.

Lemma fillMinorChordVector_layout (v : list Z) (index : Z) :
  forall root k i x,
    0 <= k -> size v = 3 * k -> index = root + 12 * k ->
    vat (fillMinorChordVector v index) i = Ret x ->
    (i < 3 * k /\ vat v i = Ret x)
    \/ (3 * k <= i /\ x = triadAt root 3 7 i).
Proof.
  funelim (fillMinorChordVector v index); intros root k i x Hk Hsize Hroot Hvat.
  - destruct (Z.leb_spec (index + 3) SOPRANO_MAX);
      [destruct (Z.leb_spec (index + 3 + 4) SOPRANO_MAX) |].
    + match goal with
      | IH : forall root k i x,
            _ -> size (push_back (push_back (push_back _ _) _) _) = _ -> _
        |- _ =>
          apply (IH root (k + 1)) in Hvat
      end.
      * destruct Hvat as [[Hlt Hvat] | [Hge Hx]];
          [| right; split; [lia | exact Hx]].
        unfold push_back in Hvat. rewrite <- !app_assoc in Hvat.
        simpl app in Hvat.
        eapply layout_round; [exact Hk | exact Hsize | | | exact Hvat];
          [simpl; lia | new_tones k].
      * lia.
      * rewrite !size_push_back. lia.
      * lia.
    + rewrite fillMinorChordVector_done in Hvat by lia.
      unfold push_back in Hvat. rewrite <- !app_assoc in Hvat.
      simpl app in Hvat.
      eapply layout_round; [exact Hk | exact Hsize | | | exact Hvat];
        [simpl; lia | new_tones k].
    + rewrite fillMinorChordVector_done in Hvat by lia.
      unfold push_back in Hvat.
      eapply layout_round; [exact Hk | exact Hsize | | | exact Hvat];
        [simpl; lia | new_tones k].
  - left. split; [| assumption]. apply vat_bound in Hvat. lia.
Qed.

Lemma fillDimChordVector_layout (v : list Z) (index : Z) :
  forall root k i x,
    0 <= k -> size v = 3 * k -> index = root + 12 * k ->
    vat (fillDimChordVector v index) i = Ret x ->
    (i < 3 * k /\ vat v i = Ret x)
    \/ (3 * k <= i /\ x = triadAt root 3 6 i).
Proof.
  funelim (fillDimChordVector v index); intros root k i x Hk Hsize Hroot Hvat.
  - destruct (Z.leb_spec (index + 3) SOPRANO_MAX);
      [destruct (Z.leb_spec (index + 3 + 3) SOPRANO_MAX) |].
    + match goal with
      | IH : forall root k i x,
            _ -> size (push_back (push_back (push_back _ _) _) _) = _ -> _
        |- _ =>
          apply (IH root (k + 1)) in Hvat
      end.
      * destruct Hvat as [[Hlt Hvat] | [Hge Hx]];
          [| right; split; [lia | exact Hx]].
        unfold push_back in Hvat. rewrite <- !app_assoc in Hvat.
        simpl app in Hvat.
        eapply layout_round; [exact Hk | exact Hsize | | | exact Hvat];
          [simpl; lia | new_tones k].
      * lia.
      * rewrite !size_push_back. lia.
      * lia.
    + rewrite fillDimChordVector_done in Hvat by lia.
      unfold push_back in Hvat. rewrite <- !app_assoc in Hvat.
      simpl app in Hvat.
      eapply layout_round; [exact Hk | exact Hsize | | | exact Hvat];
        [simpl; lia | new_tones k].
    + rewrite fillDimChordVector_done in Hvat by lia.
      unfold push_back in Hvat.
      eapply layout_round; [exact Hk | exact Hsize | | | exact Hvat];
        [simpl; lia | new_tones k].
  - left. split; [| assumption]. apply vat_bound in Hvat. lia.
Qed.

Lemma fillChordVector_layout (q : quality) (root i x : Z) :
  vat (fillChordVector q [] root) i = Ret x ->
  x = triadAt root (thirdOf q) (fifthOf q) i.
Proof.
  intros Hvat.
  destruct q; simpl in *;
    [ destruct (fillMajorChordVector_layout [] root root 0 i x)
        as [[Hlt _] | [_ Hx]]
    | destruct (fillMinorChordVector_layout [] root root 0 i x)
        as [[Hlt _] | [_ Hx]]
    | destruct (fillDimChordVector_layout [] root root 0 i x)
        as [[Hlt _] | [_ Hx]] ];
    try reflexivity; try assumption; try lia;
    apply vat_bound in Hvat; lia.
Qed.

(** X11.  A filled entry lists the triad octave by octave: position [i]
    holds the tone of octave [i / 3] that [i mod 3] selects (root, third,
    fifth), so the roots are exactly the pitches at the positions
    divisible by 3, as [canCreateChorale] assumes when it picks its
    starting pitches by index. *)
Theorem entry_positions (q : quality) (root i x : Z) :
  vat (fillChordVector q [] root) i = Ret x ->
  x = triadAt root (thirdOf q) (fifthOf q) i
  /\ ((x - root) mod 12 = 0 <-> i mod 3 = 0).
Proof.
  intros Hvat. pose proof (fillChordVector_layout q root i x Hvat) as Hx.
  split; [exact Hx |]. subst x. unfold triadAt.
  assert (Hcases : i mod 3 = 0 \/ i mod 3 = 1 \/ i mod 3 = 2) by euclid.
  destruct q; cbn [thirdOf fifthOf];
    repeat destruct Hcases as [Hcases | Hcases];
    rewrite Hcases; cbv iota; euclid.
Qed.

Lemma entry_positions_witness :
  17 = triadAt 2 (thirdOf MinorTriad) (fifthOf MinorTriad) 4
  /\ ((17 - 2) mod 12 = 0 <-> 4 mod 3 = 0).
Proof.
  apply (entry_positions MinorTriad 2 4 17). reflexivity.
Defined.

Lemma lowestOctave_closed (startNote : Z) :
  lowestOctave startNote
  = if startNote <? 12 then startNote else startNote mod 12.
Proof.
  funelim (lowestOctave startNote).
  - match goal with IH : lowestOctave _ = _ |- _ => rewrite IH end.
    destruct (Z.ltb_spec (startNote - 12) 12), (Z.ltb_spec startNote 12);
      euclid.
  - destruct (Z.ltb_spec startNote 12); lia.
Qed.

(** X12.  For a start note that is not negative the catalog depends on its
    pitch class only: it is the catalog of the note reduced modulo 12. *)
Theorem catalog_of_pitch_class (startNote : Z) (majorKey : bool) :
  0 <= startNote ->
  establishNotesInChords startNote majorKey
  = establishNotesInChords (startNote mod 12) majorKey.
Proof.
  intros Hpos.
  assert (Hlow : lowestOctave startNote = lowestOctave (startNote mod 12)).
  { rewrite !lowestOctave_closed.
    destruct (Z.ltb_spec startNote 12), (Z.ltb_spec (startNote mod 12) 12);
      euclid. }
  destruct majorKey;
    [rewrite !establishNotesInChords_major
    | rewrite !establishNotesInChords_minor];
    cbv zeta; rewrite Hlow; reflexivity.
Qed.

Lemma catalog_of_pitch_class_witness :
  establishNotesInChords 17 false = establishNotesInChords (17 mod 12) false.
Proof. apply (catalog_of_pitch_class 17 false). lia. Defined.

(** ** Nearest-tone search on any vector *)

Lemma lowerSearch_element (chord : list Z) (note : Z) (fuel : nat) :
  forall lhs rhs x,
    lowerSearch fuel chord note lhs rhs = Ret x -> In x chord.
Proof.
  induction fuel as [| fuel IH]; intros lhs rhs x H; simpl in H;
    destruct (lhs <=? rhs); try discriminate;
    try (eapply vat_In; eassumption).
  destruct (vat chord (Z.quot (lhs + rhs) 2)) as [mid | |] eqn:E;
    simpl in H; try discriminate.
  destruct (mid =? note).
  - injection H as <-. eapply vat_In; eauto.
  - destruct (mid <? note); eapply IH; eauto.
Qed.

Lemma higherSearch_element (chord : list Z) (note : Z) (fuel : nat) :
  forall lhs rhs x,
    higherSearch fuel chord note lhs rhs = Ret x -> In x chord.
Proof.
  induction fuel as [| fuel IH]; intros lhs rhs x H; simpl in H;
    destruct (lhs <=? rhs); try discriminate;
    try (eapply vat_In; eassumption).
  destruct (vat chord (Z.quot (lhs + rhs + 1) 2)) as [mid | |] eqn:E;
    simpl in H; try discriminate.
  destruct (mid =? note).
  - injection H as <-. eapply vat_In; eauto.
  - destruct (mid <? note); eapply IH; eauto.
Qed.

(** X13.  Whatever the order of the vector, a value that [nextLowerNote]
    or [nextHigherNote] returns is an element of it; on an empty vector
    both read out of bounds. *)
Theorem search_returns_elements (chord : list Z) (note : Z) :
  (forall x, nextLowerNote chord note = Ret x -> In x chord)
  /\ (forall x, nextHigherNote chord note = Ret x -> In x chord)
  /\ (chord = [] ->
      nextLowerNote chord note = Fault /\ nextHigherNote chord note = Fault).
Proof.
  repeat split.
  - intros x. apply lowerSearch_element.
  - intros x. apply higherSearch_element.
  - subst chord. reflexivity.
  - subst chord. reflexivity.
Qed.

Lemma search_returns_elements_witness :
  In 2 [9; 2; 5] /\ In 9 [9; 2; 5].
Proof.
  split.
  - apply (proj1 (search_returns_elements [9; 2; 5] 3)). reflexivity.
  - apply (proj1 (proj2 (search_returns_elements [9; 2; 5] 1))). reflexivity.
Defined.

(** ** Steps of the voice-leading search *)

Lemma rangeTest_passed (v : voices) :
  (backAbove (soprano v) SOPRANO_MAX <||> backAbove (alto v) ALTO_MAX
   <||> backAbove (tenor v) TENOR_MAX <||> backBelow (soprano v) SOPRANO_MIN
   <||> backBelow (alto v) ALTO_MIN <||> backBelow (tenor v) TENOR_MIN)
  = Ret false ->
  exists s a t,
    back (soprano v) = Ret s /\ back (alto v) = Ret a
    /\ back (tenor v) = Ret t /\ inRange s a t = true.
Proof.
  unfold orElse, backAbove, backBelow, inRange. intros H.
  destruct (back (soprano v)) as [s | |]; simpl in H; try discriminate.
  destruct (s >? SOPRANO_MAX) eqn:E1; [discriminate |].
  destruct (back (alto v)) as [a | |]; simpl in H; try discriminate.
  destruct (a >? ALTO_MAX) eqn:E2; [discriminate |].
  destruct (back (tenor v)) as [t | |]; simpl in H; try discriminate.
  destruct (t >? TENOR_MAX) eqn:E3; [discriminate |].
  destruct (s <? SOPRANO_MIN) eqn:E4; [discriminate |].
  destruct (a <? ALTO_MIN) eqn:E5; [discriminate |].
  destruct (t <? TENOR_MIN) eqn:E6; [discriminate |].
  exists s, a, t. repeat (split; [reflexivity |]).
  rewrite E1, E2, E3, E4, E5, E6. reflexivity.
Qed.

Lemma crossesBass_passed (bass : list Z) (index : Z) (v : voices) (t : Z) :
  crossesBass bass index v = Ret false -> back (tenor v) = Ret t ->
  forall upcoming, vat bass (index + 1) = Ret upcoming -> upcoming <= t.
Proof.
  unfold crossesBass. intros H Ht upcoming Hup.
  destruct (Z.ltb_spec index (size bass - 1)).
  - rewrite Ht, Hup in H. simpl in H. injection H as H. lia.
  - apply vat_bound in Hup. lia.
Qed.

Lemma choraleStep_advanced (majorKey : bool) (chords : list Z)
    (notesInChords : list (list Z)) (bass : list Z) (index : Z)
    (LTCorrected : bool) (v v1 : voices) (flag : bool) :
  choraleStep majorKey chords notesInChords bass index LTCorrected v
  = Ret (Advance v1 flag) ->
  (exists s a t,
      back (soprano v) = Ret s /\ back (alto v) = Ret a
      /\ back (tenor v) = Ret t /\ inRange s a t = true)
  /\ advanced chords notesInChords bass index v v1.
Proof.
  intros H. unfold choraleStep in H.
  match type of H with
  | bind ?test _ = _ => destruct test as [[|] | |] eqn:Etest
  end; simpl in H; try discriminate.
  split; [apply rangeTest_passed; assumption |].
  destruct (vat bass index) as [current | |] eqn:Ecur;
    simpl in H; try discriminate.
  destruct (vat bass (index - 1)) as [previous | |] eqn:Eprev;
    simpl in H; try discriminate.
  exists current, previous.
  split; [exact Ecur |]. split; [exact Eprev |].
  destruct ((current <? previous) || (current - previous =? 5)) eqn:Eup.
  - right. split; [lia |].
    destruct (vat chords index) as [chord | |] eqn:Echord;
      simpl in H; try discriminate.
    destruct (vat notesInChords chord) as [notes | |] eqn:Enotes;
      simpl in H; try discriminate.
    destruct (back (soprano v)) as [s0 | |]; simpl in H; try discriminate.
    destruct (nextHigherNote notes _) as [s | |]; simpl in H; try discriminate.
    destruct (back (alto v)) as [a0 | |]; simpl in H; try discriminate.
    destruct (nextHigherNote notes a0) as [a | |] eqn:Ea;
      simpl in H; try discriminate.
    destruct (back (tenor v)) as [t0 | |]; simpl in H; try discriminate.
    destruct (nextHigherNote notes t0) as [t | |] eqn:Et;
      simpl in H; try discriminate.
    match type of H with
    | bind ?high _ = _ => destruct high as [[|] | |]
    end; simpl in H; try discriminate.
    destruct (crossesBass bass index _) as [[|] | |] eqn:Ecross;
      simpl in H; try discriminate.
    injection H as <- _.
    exists s, a, t, chord, notes.
    repeat (split; [first [reflexivity | eassumption] |]).
    split; [eapply higherSearch_element; exact Ea |].
    split; [eapply higherSearch_element; exact Et |].
    eapply crossesBass_passed; [exact Ecross | apply back_push_back].
  - destruct (Z.gtb_spec current previous).
    + right. split; [lia |].
      destruct (vat chords (index - 1)) as [previousChord | |];
        simpl in H; try discriminate.
      match type of H with
      | bind ?test _ = _ => destruct test as [leading | |]
      end; simpl in H; try discriminate.
      match type of H with
      | bind ?move _ = _ => destruct move as [[s flag'] | |]
      end; simpl in H; try discriminate.
      destruct (vat chords index) as [chord | |] eqn:Echord;
        simpl in H; try discriminate.
      destruct (vat notesInChords chord) as [notes | |] eqn:Enotes;
        simpl in H; try discriminate.
      destruct (back (alto v)) as [a0 | |]; simpl in H; try discriminate.
      destruct (nextLowerNote notes a0) as [a | |] eqn:Ea;
        simpl in H; try discriminate.
      destruct (back (tenor v)) as [t0 | |]; simpl in H; try discriminate.
      destruct (nextLowerNote notes t0) as [t | |] eqn:Et;
        simpl in H; try discriminate.
      destruct (crossesBass bass index _) as [[|] | |] eqn:Ecross;
        simpl in H; try discriminate.
      injection H as <- _.
      exists s, a, t, chord, notes.
      repeat (split; [first [reflexivity | eassumption] |]).
      split; [eapply lowerSearch_element; exact Ea |].
      split; [eapply lowerSearch_element; exact Et |].
      eapply crossesBass_passed; [exact Ecross | apply back_push_back].
    + left. injection H as <- _. apply orb_false_iff in Eup as [Eup _].
      split; [lia | reflexivity].
Qed.

(** What holds of the voices at the start of the helper and is kept by
    every advancing step holds of the voices it returns with true. *)
Lemma helper_invariant (P : Z -> voices -> Prop) (majorKey : bool)
    (chords : list Z) (notesInChords : list (list Z)) (bass : list Z) :
  (forall index LTCorrected v v1 flag,
      index < size chords -> P index v ->
      choraleStep majorKey chords notesInChords bass index LTCorrected v
      = Ret (Advance v1 flag) ->
      P (index + 1) v1) ->
  forall fuel index LTCorrected v v',
    canCreateChoraleHelper fuel majorKey chords notesInChords bass index
      LTCorrected v = Ret (true, v') ->
    P index v -> P (Z.max index (size chords)) v'.
Proof.
  intros Hstep. induction fuel as [| fuel IH];
    intros index LTCorrected v v' H HP; simpl in H; [discriminate |].
  destruct (Z.geb_spec index (size chords)).
  - injection H as <-. replace (Z.max index (size chords)) with index by lia.
    exact HP.
  - destruct (choraleStep majorKey chords notesInChords bass index
                LTCorrected v) as [[rejected | v1 flag] | |] eqn:E;
      simpl in H; try discriminate.
    replace (Z.max index (size chords))
      with (Z.max (index + 1) (size chords)) by lia.
    eapply IH; [exact H |]. eapply Hstep; eauto.
Qed.

(** ** Solutions of the voice-leading search *)

Lemma movesThroughout_vat (bass : list Z) :
  movesThroughout bass = true ->
  forall i a b, vat bass i = Ret a -> vat bass (i - 1) = Ret b -> a <> b.
Proof.
  induction bass as [| first rest IH]; intros Hmoves i a b Ha Hb.
  - apply vat_bound in Ha. unfold size in Ha. simpl in Ha. lia.
  - pose proof (vat_bound _ _ _ Hb) as Hi.
    change (first :: rest) with ([first] ++ rest) in Ha, Hb.
    rewrite vat_app_right in Ha by (unfold size; simpl; lia).
    unfold size in Ha at 1. simpl length in Ha.
    destruct rest as [| second rest'].
    + apply vat_bound in Ha. unfold size in Ha. simpl in Ha. lia.
    + simpl in Hmoves. apply andb_true_iff in Hmoves as [Hne Hrest].
      destruct (Z.eq_dec i 1) as [-> | Hi1].
      * simpl in Ha, Hb. injection Ha as <-. injection Hb as <-.
        apply negb_true_iff, Z.eqb_neq in Hne. congruence.
      * rewrite vat_app_right in Hb by (unfold size; simpl; lia).
        unfold size in Hb at 1. simpl length in Hb.
        apply (IH Hrest (i - 1)); [exact Ha |].
        replace (i - 1 - 1) with (i - 1 - Z.of_nat 1) by lia. exact Hb.
Qed.

(** A solution comes from one of the starting voicings: three tones of the
    tonic entry and a successful run of the helper from index 1. *)
Lemma canCreateChorale_true (majorKey : bool) (chords : list Z)
    (notesInChords : list (list Z)) (bass : list Z) (v' : voices) :
  canCreateChorale majorKey chords notesInChords cleared bass
  = Ret (true, v') ->
  exists tonicNotes s a t,
    vat notesInChords 1 = Ret tonicNotes
    /\ In s tonicNotes /\ In a tonicNotes /\ In t tonicNotes
    /\ canCreateChoraleHelper (S (length chords)) majorKey chords
         notesInChords bass 1 false (mkVoices [s] [a] [t])
       = Ret (true, v').
Proof.
  intros H. unfold canCreateChorale in H.
  destruct (vat notesInChords 1) as [tonicNotes | |] eqn:Etonic;
    simpl in H; try discriminate.
  exists tonicNotes.
  returns H; try discriminate H; injection H as <-;
    try match goal with
        | E : (if _ then _ else _) = Ret (true, _) |- _ =>
            returns E; try discriminate E
        end;
    match goal with
    | Es : vat tonicNotes _ = Ret ?s, Ea : vat tonicNotes _ = Ret ?a,
      Et : vat tonicNotes _ = Ret ?t,
      E : tryVoicing _ _ _ _ _ ?s ?a ?t = Ret (true, _) |- _ =>
        exists s, a, t;
        split; [reflexivity |];
        split; [eapply vat_In; exact Es |];
        split; [eapply vat_In; exact Ea |];
        split; [eapply vat_In; exact Et |];
        exact E
    end.
Qed.

(** The lines of a solution on a bass line that always moves: they are in
    step with the chords, the alto and the tenor sing tones of the chord
    at each index, and the tenor stays at or above the upcoming bass
    note. *)
Lemma solution_in_step (majorKey : bool) (chords : list Z)
    (notesInChords : list (list Z)) (bass : list Z) (v' : voices) :
  canCreateChorale majorKey chords notesInChords cleared bass
  = Ret (true, v') ->
  chords <> [] -> movesThroughout bass = true ->
  (size (soprano v') = size chords /\ size (alto v') = size chords
   /\ size (tenor v') = size chords)
  /\ (forall i x,
         1 <= i -> vat (alto v') i = Ret x \/ vat (tenor v') i = Ret x ->
         exists chord notes,
           vat chords i = Ret chord /\ vat notesInChords chord = Ret notes
           /\ In x notes)
  /\ (forall i t upcoming,
         1 <= i -> vat (tenor v') i = Ret t ->
         vat bass (i + 1) = Ret upcoming -> upcoming <= t).
Proof.
  intros H Hchords Hmoves.
  destruct (canCreateChorale_true _ _ _ _ _ H)
    as (tonicNotes & s & a & t & _ & _ & _ & _ & Hrun).
  pose proof (movesThroughout_vat bass Hmoves) as Hne.
  assert (Hsize : 1 <= size chords)
    by (destruct chords; [contradiction | unfold size; simpl; lia]).
  replace (size chords) with (Z.max 1 (size chords)) by lia.
  pose proof
    (helper_invariant
           (fun index v =>
              (size (soprano v) = index /\ size (alto v) = index
               /\ size (tenor v) = index)
              /\ (forall i x,
                     1 <= i ->
                     vat (alto v) i = Ret x \/ vat (tenor v) i = Ret x ->
                     exists chord notes,
                       vat chords i = Ret chord
                       /\ vat notesInChords chord = Ret notes /\ In x notes)
              /\ (forall i t upcoming,
                     1 <= i -> vat (tenor v) i = Ret t ->
                     vat bass (i + 1) = Ret upcoming -> upcoming <= t))
           majorKey chords notesInChords bass) as Hinv.
  cbv beta in Hinv. eapply Hinv; [| exact Hrun |]; clear Hinv.
  - intros index LTCorrected v v1 flag Hindex (Hsizes & Htones & Htenor) Hstep.
    apply choraleStep_advanced in Hstep.
    destruct Hstep as (_ & current & previous & Hcur & Hprev & Hadv).
    destruct Hadv as [[Heq _] | (_ & s1 & a1 & t1 & chord & notes & -> & Hchord
                                 & Hnotes & Hina & Hint & Hup)];
      [exfalso; exact (Hne index current previous Hcur Hprev Heq) |].
    destruct Hsizes as (Hs & Ha & Ht). cbn [soprano alto tenor].
    rewrite !size_push_back. split; [lia |]. split.
    + intros i x Hi Hx.
      destruct (Z_lt_le_dec i index) as [Hlt | Hge].
      * unfold push_back in Hx. rewrite !vat_app_left in Hx by lia.
        apply Htones; assumption.
      * assert (i = index).
        { destruct Hx as [Hx | Hx]; apply vat_bound in Hx;
            rewrite size_push_back in Hx; lia. }
        subst i. exists chord, notes. repeat (split; [assumption |]).
        destruct Hx as [Hx | Hx];
          [rewrite <- Ha in Hx | rewrite <- Ht in Hx];
          rewrite vat_push_back_new in Hx; injection Hx as <-; assumption.
    + intros i x upcoming Hi Hx Hupcoming.
      destruct (Z_lt_le_dec i index) as [Hlt | Hge].
      * unfold push_back in Hx. rewrite vat_app_left in Hx by lia.
        eapply Htenor; eauto.
      * assert (i = index)
          by (apply vat_bound in Hx; rewrite size_push_back in Hx; lia).
        subst i. rewrite <- Ht in Hx. rewrite vat_push_back_new in Hx.
        injection Hx as <-. apply Hup. exact Hupcoming.
  - simpl. unfold size. simpl. split; [lia |]. split.
    + intros i x Hi [Hx | Hx]; apply vat_bound in Hx;
        unfold size in Hx; simpl in Hx; lia.
    + intros i x upcoming Hi Hx. apply vat_bound in Hx.
      unfold size in Hx. simpl in Hx. lia.
Qed.

(** X14.  On a bass line that never repeats a note, a solution has one
    pitch per chord in each of the three lines. *)
Theorem solution_has_a_pitch_per_chord (majorKey : bool) (chords : list Z)
    (notesInChords : list (list Z)) (bass : list Z) (v' : voices) :
  canCreateChorale majorKey chords notesInChords cleared bass
  = Ret (true, v') ->
  chords <> [] -> movesThroughout bass = true ->
  length (soprano v') = length chords /\ length (alto v') = length chords
  /\ length (tenor v') = length chords.
Proof.
  intros H Hchords Hmoves.
  destruct (solution_in_step _ _ _ _ _ H Hchords Hmoves) as [Hsizes _].
  unfold size in Hsizes. lia.
Qed.

Lemma solution_has_a_pitch_per_chord_witness :
  let v' := mkVoices [36; 33; 35; 36] [31; 29; 31; 31] [28; 26; 26; 28] in
  length (soprano v') = length [1; 2; 5; 1]
  /\ length (alto v') = length [1; 2; 5; 1]
  /\ length (tenor v') = length [1; 2; 5; 1].
Proof.
  intros v'.
  apply (solution_has_a_pitch_per_chord true [1; 2; 5; 1]
           (establishNotesInChords 0 true) [0; 2; 7; 0] v');
    [reflexivity | discriminate | reflexivity].
Defined.

(** X15.  On a bass line that never repeats a note, from index 1 on the
    alto and the tenor of a solution sing tones of the catalog entry of
    the chord at the same index. *)
Theorem inner_voices_sing_chord_tones (majorKey : bool) (chords : list Z)
    (notesInChords : list (list Z)) (bass : list Z) (v' : voices)
    (i x : Z) :
  canCreateChorale majorKey chords notesInChords cleared bass
  = Ret (true, v') ->
  chords <> [] -> movesThroughout bass = true -> 1 <= i ->
  vat (alto v') i = Ret x \/ vat (tenor v') i = Ret x ->
  exists chord notes,
    vat chords i = Ret chord /\ vat notesInChords chord = Ret notes
    /\ In x notes.
Proof.
  intros H Hchords Hmoves Hi Hx.
  destruct (solution_in_step _ _ _ _ _ H Hchords Hmoves) as (_ & Htones & _).
  apply Htones; assumption.
Qed.

Lemma inner_voices_sing_chord_tones_witness :
  exists chord notes,
    vat [1; 4; 5; 1] 2 = Ret chord
    /\ vat (establishNotesInChords 9 false) chord = Ret notes /\ In 23 notes.
Proof.
  apply (inner_voices_sing_chord_tones false [1; 4; 5; 1]
           (establishNotesInChords 9 false) [9; 14; 16; 21]
           (mkVoices [33; 33; 32; 33] [28; 29; 28; 28] [24; 26; 23; 24]) 2 23);
    [reflexivity | discriminate | reflexivity | lia | right; reflexivity].
Defined.

(** X16.  On a bass line that never repeats a note, from index 1 on the
    tenor of a solution is never below the bass note of the next index. *)
Theorem tenor_stays_above_upcoming_bass (majorKey : bool) (chords : list Z)
    (notesInChords : list (list Z)) (bass : list Z) (v' : voices)
    (i t upcoming : Z) :
  canCreateChorale majorKey chords notesInChords cleared bass
  = Ret (true, v') ->
  chords <> [] -> movesThroughout bass = true -> 1 <= i ->
  vat (tenor v') i = Ret t -> vat bass (i + 1) = Ret upcoming ->
  upcoming <= t.
Proof.
  intros H Hchords Hmoves Hi Ht Hup.
  destruct (solution_in_step _ _ _ _ _ H Hchords Hmoves) as (_ & _ & Htenor).
  eapply Htenor; eauto.
Qed.

Lemma tenor_stays_above_upcoming_bass_witness : 21 <= 23.
Proof.
  apply (tenor_stays_above_upcoming_bass false [1; 4; 5; 1]
           (establishNotesInChords 9 false) [9; 14; 16; 21]
           (mkVoices [33; 33; 32; 33] [28; 29; 28; 28] [24; 26; 23; 24]) 2);
    [reflexivity | discriminate | reflexivity | lia | reflexivity
    | reflexivity].
Defined.

Lemma back_last {A : Type} (v : list A) (x : A) :
  back v = Ret x -> v = removelast v ++ [x].
Proof.
  intros H. unfold back in H. pose proof (vat_bound _ _ _ H) as Hb.
  destruct (exists_last (l := v)) as (front & y & ->).
  { intros ->. unfold size in Hb. simpl in Hb. lia. }
  rewrite removelast_last. f_equal.
  rewrite vat_app_right in H by (rewrite size_app; unfold size; simpl; lia).
  rewrite size_app in H.
  replace (size front + size [y] - 1 - size front) with 0 in H
    by (unfold size; simpl; lia).
  change (vat [y] 0) with (Ret y) in H. congruence.
Qed.

Lemma checked_then_pushed (R : Z -> Prop) (line : list Z) (latest new : Z) :
  Forall R (removelast line) -> back line = Ret latest -> R latest ->
  Forall R (removelast (push_back line new)).
Proof.
  intros Hall Hback HR. unfold push_back. rewrite removelast_last.
  rewrite (back_last _ _ Hback). apply Forall_app. split; [assumption |].
  constructor; [assumption | constructor].
Qed.

Lemma inRange_ranges (s a t : Z) :
  inRange s a t = true -> sopranoPitch s /\ altoPitch a /\ tenorPitch t.
Proof.
  unfold inRange, sopranoPitch, altoPitch, tenorPitch. intros H.
  apply negb_true_iff in H. repeat (apply orb_false_iff in H as [H ?]).
  lia.
Qed.

(** X17.  In a solution every pitch but the last of each line is within
    the range of its voice: the soprano in [SOPRANO_MIN, SOPRANO_MAX], the
    alto in [ALTO_MIN, ALTO_MAX], the tenor in [TENOR_MIN, TENOR_MAX]. *)
Theorem all_but_last_pitches_in_range (majorKey : bool) (chords : list Z)
    (notesInChords : list (list Z)) (bass : list Z) (v' : voices) :
  canCreateChorale majorKey chords notesInChords cleared bass
  = Ret (true, v') ->
  Forall sopranoPitch (removelast (soprano v'))
  /\ Forall altoPitch (removelast (alto v'))
  /\ Forall tenorPitch (removelast (tenor v')).
Proof.
  intros H.
  destruct (canCreateChorale_true _ _ _ _ _ H)
    as (tonicNotes & s & a & t & _ & _ & _ & _ & Hrun).
  pose proof
    (helper_invariant
       (fun _ v =>
          Forall sopranoPitch (removelast (soprano v))
          /\ Forall altoPitch (removelast (alto v))
          /\ Forall tenorPitch (removelast (tenor v)))
       majorKey chords notesInChords bass) as Hinv.
  cbv beta in Hinv. eapply Hinv; [| exact Hrun |]; clear Hinv.
  - intros index LTCorrected v v1 flag _ (Hs & Ha & Ht) Hstep.
    apply choraleStep_advanced in Hstep.
    destruct Hstep as ((s0 & a0 & t0 & Hbs & Hba & Hbt & Hrange) & Hadv).
    apply inRange_ranges in Hrange. destruct Hrange as (Rs & Ra & Rt).
    destruct Hadv as (current & previous & _ & _ & Hadv).
    destruct Hadv as [[_ ->] | (_ & s1 & a1 & t1 & chord & notes & -> & _)];
      [auto |].
    cbn [soprano alto tenor].
    repeat split; eapply checked_then_pushed; eauto.
  - simpl. repeat split; constructor.
Qed.

Lemma all_but_last_pitches_in_range_witness :
  Forall sopranoPitch (removelast [29; 26; 24; 24])
  /\ Forall altoPitch (removelast [24; 22; 19; 17])
  /\ Forall tenorPitch (removelast [21; 19; 19; 17]).
Proof.
  apply (all_but_last_pitches_in_range true [1; 2; 5; 1]
           (establishNotesInChords 5 true) [5; 7; 16; 17]
           (mkVoices [29; 26; 24; 24] [24; 22; 19; 17] [21; 19; 19; 17])).
  reflexivity.
Defined.

(** ** The first chord of a solution *)

Lemma third_voicing_needs_room (tonicNotes : list Z) (lower : bool)
    (above mediant : Z) :
  Forall (fun pitch => pitch <= SOPRANO_MAX) tonicNotes ->
  startsOctaveLower tonicNotes (highestTonic tonicNotes) = Ret lower ->
  vat tonicNotes
    ((if lower then highestTonic tonicNotes - 3
      else highestTonic tonicNotes) + 3) = Ret above ->
  vat tonicNotes
    ((if above <=? SOPRANO_MAX
      then (if lower then highestTonic tonicNotes - 3
            else highestTonic tonicNotes) + 3
      else if lower then highestTonic tonicNotes - 3
           else highestTonic tonicNotes) + 1) = Ret mediant ->
  roomForFalse tonicNotes = true.
Proof.
  intros Hall Hlower Habove Hmediant. rewrite Forall_forall in Hall.
  pose proof (highestTonic_near_end tonicNotes) as Hnear.
  pose proof (Hall _ (vat_In _ _ _ Habove)) as Hle.
  apply Z.leb_le in Hle. rewrite Hle in Hmediant.
  apply vat_bound in Hmediant. unfold roomForFalse. cbv zeta.
  rewrite Hlower. destruct lower; [apply Z.ltb_lt; lia | exfalso; lia].
Qed.

Lemma canCreateChorale_start (majorKey : bool) (chords : list Z)
    (notesInChords : list (list Z)) (bass : list Z) (v' : voices)
    (tonicNotes : list Z) :
  vat notesInChords 1 = Ret tonicNotes ->
  Forall (fun pitch => pitch <= SOPRANO_MAX) tonicNotes ->
  roomForFalse tonicNotes = false ->
  canCreateChorale majorKey chords notesInChords cleared bass
  = Ret (true, v') ->
  exists top s a t,
    (top = highestTonic tonicNotes \/ top = highestTonic tonicNotes - 3)
    /\ vat tonicNotes top = Ret s
    /\ ((vat tonicNotes (top - 1) = Ret a
         /\ vat tonicNotes (top - 2) = Ret t)
        \/ (vat tonicNotes (top - 2) = Ret a
            /\ vat tonicNotes (top - 4) = Ret t))
    /\ canCreateChoraleHelper (S (length chords)) majorKey chords
         notesInChords bass 1 false (mkVoices [s] [a] [t])
       = Ret (true, v').
Proof.
  intros Htonic Hall Hroom H. unfold canCreateChorale in H.
  rewrite Htonic in H. simpl in H.
  destruct (startsOctaveLower tonicNotes (highestTonic tonicNotes))
    as [lower | |] eqn:Elower; simpl in H; try discriminate.
  returns H; try discriminate H; injection H as <-;
    try match goal with
        | E : (if _ then _ else _) = Ret (true, _) |- _ =>
            returns E; try discriminate E
        end.
  all: try match goal with
    | Ea : vat _ (_ + 3) = Ret _, Em : vat _ (_ + 1) = Ret _ |- _ =>
        exfalso;
        pose proof (third_voicing_needs_room _ _ _ _ Hall Elower Ea Em);
        congruence
    end.
  - exists (if lower then highestTonic tonicNotes - 3
            else highestTonic tonicNotes), a, a0, a1.
    split; [destruct lower; auto |]. split; [exact E |].
    split; [left; split; assumption | exact E2].
  - pose proof (vat_bound _ _ _ E4) as Hbound.
    pose proof (highestTonic_near_end tonicNotes) as Hnear.
    destruct lower; [| exfalso; lia].
    rewrite Forall_forall in Hall.
    pose proof (Hall _ (vat_In _ _ _ E4)) as Hle. apply Z.leb_le in Hle.
    rewrite Hle in E9, E10, E11.
    replace (highestTonic tonicNotes - 3 + 3) with (highestTonic tonicNotes)
      in E9, E10, E11 by lia.
    exists (highestTonic tonicNotes), a4, a5, a6.
    split; [left; reflexivity |]. split; [exact E9 |].
    split; [right; split; assumption | exact E6].
Qed.

Lemma vat_push_back_old {A : Type} (v : list A) (x y : A) (i : Z) :
  vat v i = Ret x -> vat (push_back v y) i = Ret x.
Proof.
  intros H. unfold push_back. rewrite vat_app_left; [exact H |].
  apply vat_bound in H. lia.
Qed.

(** The search only appends: the pitches of the first chord stay. *)
Lemma helper_keeps_first_chord (majorKey : bool) (chords : list Z)
    (notesInChords : list (list Z)) (bass : list Z) (fuel : nat)
    (index : Z) (LTCorrected : bool) (v v' : voices) (s a t : Z) :
  canCreateChoraleHelper fuel majorKey chords notesInChords bass index
    LTCorrected v = Ret (true, v') ->
  vat (soprano v) 0 = Ret s /\ vat (alto v) 0 = Ret a
  /\ vat (tenor v) 0 = Ret t ->
  vat (soprano v') 0 = Ret s /\ vat (alto v') 0 = Ret a
  /\ vat (tenor v') 0 = Ret t.
Proof.
  intros Hrun Hfirst.
  pose proof
    (helper_invariant
       (fun _ w => vat (soprano w) 0 = Ret s /\ vat (alto w) 0 = Ret a
                   /\ vat (tenor w) 0 = Ret t)
       majorKey chords notesInChords bass) as Hinv.
  cbv beta in Hinv. eapply Hinv; [| exact Hrun | exact Hfirst]; clear Hinv.
  intros i flag w w1 flag1 _ (Hs & Ha & Ht) Hstep.
  apply choraleStep_advanced in Hstep
    as [_ (current & previous & _ & _ & [[_ ->] | [_ Hpush]])];
    [auto |].
  destruct Hpush as (s1 & a1 & t1 & chord & notes & -> & _).
  cbn [soprano alto tenor].
  repeat split; apply vat_push_back_old; assumption.
Qed.

Lemma built_tonic_entry_quality (startNote : Z) (majorKey : bool) :
  vat (establishNotesInChords startNote majorKey) 1
  = Ret (fillChordVector (if majorKey then MajorTriad else MinorTriad) []
           (lowestOctave startNote)).
Proof.
  destruct majorKey;
    [rewrite establishNotesInChords_major
    | rewrite establishNotesInChords_minor];
    cbv zeta; rewrite Z.add_0_r; reflexivity.
Qed.

Lemma highestTonic_multiple (tonicNotes : list Z) (top x : Z) :
  top = highestTonic tonicNotes \/ top = highestTonic tonicNotes - 3 ->
  vat tonicNotes top = Ret x -> exists k, top = 3 * k.
Proof.
  intros Htop Hvat. apply vat_bound in Hvat. unfold highestTonic in Htop.
  destruct (Z.eqb_spec (size tonicNotes) 0); [lia |].
  destruct Htop as [-> | ->];
    [exists (Z.quot (size tonicNotes - 1) 3)
    | exists (Z.quot (size tonicNotes - 1) 3 - 1)]; lia.
Qed.

(** X18.  On a catalog that [establishNotesInChords] builds, every solution
    opens with the tonic triad in close position: the soprano sings the
    tonic, and the alto and the tenor sing either the fifth and the third
    below it, or the third below it and the fifth below that. *)
Theorem solution_opens_with_the_tonic_triad (startNote : Z)
    (majorKey : bool) (chords bass : list Z) (v' : voices) :
  0 <= startNote ->
  canCreateChorale majorKey chords (establishNotesInChords startNote majorKey)
    cleared bass = Ret (true, v') ->
  exists s a t,
    vat (soprano v') 0 = Ret s /\ vat (alto v') 0 = Ret a
    /\ vat (tenor v') 0 = Ret t
    /\ (s - startNote) mod 12 = 0
    /\ let third := if majorKey then 4 else 3 in
       (s - a = 5 /\ a - t = 7 - third)
       \/ (s - a = 12 - third /\ a - t = 5 + third).
Proof.
  intros Hpos H.
  destruct (built_tonic_entry startNote majorKey Hpos)
    as (tonicNotes & Htonic & Hall & Hroom).
  assert (Hall' : Forall (fun pitch => pitch <= SOPRANO_MAX) tonicNotes).
  { apply Forall_forall. intros pitch Hin.
    rewrite forallb_forall in Hall. apply Z.leb_le. auto. }
  destruct (canCreateChorale_start _ _ _ _ _ _ Htonic Hall' Hroom H)
    as (top & s & a & t & Htop & Hs & Hat & Hrun).
  apply helper_keeps_first_chord with (s := s) (a := a) (t := t) in Hrun;
    [| repeat split; reflexivity].
  destruct Hrun as (Hs' & Ha' & Ht').
  exists s, a, t. repeat split; try assumption.
  all: rewrite built_tonic_entry_quality in Htonic;
    injection Htonic as <-;
    destruct (highestTonic_multiple _ _ _ Htop Hs) as [k ->];
    pose proof (lowestOctave_closed startNote) as Hroot;
    destruct (triadAt_values (lowestOctave startNote)
                (if majorKey then 4 else 3) 7 k) as (Hk0 & _ & _);
    destruct (triadAt_values (lowestOctave startNote)
                (if majorKey then 4 else 3) 7 (k - 1)) as (_ & Hk1 & Hk2);
    destruct (triadAt_values (lowestOctave startNote)
                (if majorKey then 4 else 3) 7 (k - 2)) as (_ & _ & Hk3);
    apply fillChordVector_layout in Hs;
    assert (Hthird : thirdOf (if majorKey then MajorTriad else MinorTriad)
                     = if majorKey then 4 else 3)
      by (destruct majorKey; reflexivity);
    assert (Hfifth : fifthOf (if majorKey then MajorTriad else MinorTriad)
                     = 7) by (destruct majorKey; reflexivity);
    rewrite Hthird, Hfifth in Hs;
    replace (3 * k) with (3 * k + 0) in Hs by lia;
    rewrite Hk0 in Hs.
  - destruct (Z.ltb_spec startNote 12); euclid.
  - cbv zeta. destruct Hat as [[Ha Ht] | [Ha Ht]];
      apply fillChordVector_layout in Ha, Ht;
      rewrite Hthird, Hfifth in Ha, Ht;
      [ replace (3 * k - 1) with (3 * (k - 1) + 2) in Ha by lia;
        replace (3 * k - 2) with (3 * (k - 1) + 1) in Ht by lia;
        rewrite Hk2 in Ha; rewrite Hk1 in Ht; left
      | replace (3 * k - 2) with (3 * (k - 1) + 1) in Ha by lia;
        replace (3 * k - 4) with (3 * (k - 2) + 2) in Ht by lia;
        rewrite Hk1 in Ha; rewrite Hk3 in Ht; right ];
      destruct majorKey; lia.
Qed.

Lemma solution_opens_with_the_tonic_triad_witness :
  exists s a t,
    vat [36; 33; 35; 36] 0 = Ret s /\ vat [31; 29; 31; 31] 0 = Ret a
    /\ vat [28; 26; 26; 28] 0 = Ret t
    /\ (s - 0) mod 12 = 0
    /\ ((s - a = 5 /\ a - t = 7 - 4) \/ (s - a = 12 - 4 /\ a - t = 5 + 4)).
Proof.
  apply (solution_opens_with_the_tonic_triad 0 true [1; 2; 5; 1]
           [0; 2; 7; 0]
           (mkVoices [36; 33; 35; 36] [31; 29; 31; 31] [28; 26; 26; 28]));
    [lia | reflexivity].
Defined.

(** ** The tonic entry after the first starting voicing *)




(** * The keyboard display *)

Ltac settle e :=
  first [ replace e with 0 by euclid | replace e with 1 by euclid
        | replace e with 2 by euclid | replace e with 3 by euclid
        | replace e with 4 by euclid | replace e with 5 by euclid
        | replace e with 6 by euclid | replace e with 7 by euclid
        | replace e with 8 by euclid | replace e with 9 by euclid
        | replace e with 10 by euclid | replace e with 11 by euclid ].

Lemma getKeyColor_residue (i : Z) :
  0 <= i ->
  getKeyColor i
  = match i mod 12 with
    | 0 | 2 | 4 | 5 | 7 | 9 | 11 => WHITE
    | _ => BLACK
    end.
Proof.
  intros Hi. unfold getKeyColor. cbv zeta. rewrite Z.rem_mod_nonneg by lia.
  by_residue i; reflexivity.
Qed.

Lemma white_key_step (i : Z) :
  0 <= i -> getKeyColor i = WHITE ->
  whiteKeysBelow (i + 1) = whiteKeysBelow i + 1
  /\ blackCounterAt (i + 1) = blackCounterAt i.
Proof.
  intros Hi Hcolor. rewrite getKeyColor_residue in Hcolor by assumption.
  unfold whiteKeysBelow, blackCounterAt.
  destruct (Z.leb_spec i 1), (Z.leb_spec (i + 1) 1);
    pose proof (residue_cases i) as Hres;
    repeat destruct Hres as [Hres | Hres]; rewrite Hres in *;
    try discriminate Hcolor;
    settle ((i + 1) mod 12); cbv iota; euclid.
Qed.

Lemma black_key_step (i : Z) :
  0 <= i -> getKeyColor i = BLACK ->
  let counter := blackCounterAt i in
  let counter :=
    if (Z.rem counter 7 =? 2) || (Z.rem counter 7 =? 6) then counter + 1
    else counter in
  counter = whiteKeysBelow (i + 1) - 1
  /\ whiteKeysBelow (i + 1) = whiteKeysBelow i
  /\ blackCounterAt (i + 1) = counter + 1.
Proof.
  intros Hi Hcolor. rewrite getKeyColor_residue in Hcolor by assumption.
  cbv zeta. unfold whiteKeysBelow, blackCounterAt.
  destruct (Z.leb_spec i 1), (Z.leb_spec (i + 1) 1);
    pose proof (residue_cases i) as Hres;
    repeat destruct Hres as [Hres | Hres]; rewrite Hres in *;
    try discriminate Hcolor; try (exfalso; euclid);
    settle ((i + 1) mod 12); cbv iota;
    match goal with
    | |- context [Z.rem ?b 7] => settle (Z.rem b 7)
    end;
    cbn [Z.eqb Pos.eqb orb]; euclid.
Qed.

Lemma laidOut_push (keys : list Key) (key : Key) (i : Z) :
  laidOut i keys -> number key = i -> color key = getKeyColor i ->
  keyCount key = whiteKeysBelow (i + 1) - 1 ->
  laidOut (i + 1) (push_back keys key).
Proof.
  intros [Hsize Hkeys] Hnumber Hcolor Hcount. split.
  - rewrite size_push_back. lia.
  - intros j key' Hvat. unfold push_back in Hvat.
    destruct (Z.lt_ge_cases j (size keys)).
    + rewrite vat_app_left in Hvat by assumption. auto.
    + rewrite vat_app_right in Hvat by assumption.
      pose proof (vat_bound _ _ _ Hvat) as Hbound.
      assert (Hj : j - size keys = 0)
        by (unfold size in Hbound; simpl in Hbound; unfold size; lia).
      rewrite Hj in Hvat. injection Hvat as <-.
      replace j with i by lia. auto.
Qed.

Lemma initializeKeysFrom_laidOut (i whiteKeyCounter blackKeyCounter : Z)
    (d : ChoraleDisplay) :
  0 <= i <= N_KEYS -> whiteKeyCounter = whiteKeysBelow i ->
  blackKeyCounter = blackCounterAt i -> laidOut i (keys d) ->
  laidOut N_KEYS
    (keys (initializeKeysFrom i whiteKeyCounter blackKeyCounter d)).
Proof.
  funelim (initializeKeysFrom i whiteKeyCounter blackKeyCounter d);
    intros Hi Hwhite Hblack Hkeys.
  - clear Heqcall. subst whiteKeyCounter blackKeyCounter.
    destruct (getKeyColor i) eqn:Hcolor.
    + destruct (black_key_step i (proj1 Hi) Hcolor)
        as (Hcount & Hwhite & Hcounter).
      cbv zeta in Hcount, Hcounter.
      apply H; [unfold N_KEYS in *; lia | congruence | congruence |].
      apply laidOut_push; [assumption | reflexivity | | exact Hcount].
      symmetry. exact Hcolor.
    + destruct (white_key_step i (proj1 Hi) Hcolor) as (Hwhite & Hcounter).
      apply H0; [unfold N_KEYS in *; lia | congruence | congruence |].
      apply laidOut_push; [assumption | reflexivity | |].
      * symmetry. exact Hcolor.
      * cbn [keyCount]. lia.
  - replace i with N_KEYS in Hkeys by lia. exact Hkeys.
Qed.

Lemma newChoraleDisplay_laidOut : laidOut N_KEYS (keys newChoraleDisplay).
Proof.
  apply initializeKeysFrom_laidOut; try reflexivity.
  - unfold N_KEYS. lia.
  - split; [reflexivity |]. intros j key Hvat.
    apply vat_bound in Hvat. unfold size in Hvat. simpl in Hvat. lia.
Qed.

(** X20.  The keyboard [initializeKeys] builds has [N_KEYS] keys; key [i]
    carries the number [i] and the colour [getKeyColor] gives it; the
    first key is white with count 0; going up the keyboard the count rises
    by one at each white key and stays at each black key, so that a black
    key carries the count of the white key below it; and the last key is
    the white key of count [N_WHITE_KEYS - 1]. *)
Theorem keyboard_layout :
  let keyboard := keys newChoraleDisplay in
  size keyboard = N_KEYS
  /\ (forall i key,
         vat keyboard i = Ret key ->
         number key = i /\ color key = getKeyColor i)
  /\ (exists first last,
         vat keyboard 0 = Ret first /\ color first = WHITE
         /\ keyCount first = 0
         /\ vat keyboard (N_KEYS - 1) = Ret last /\ color last = WHITE
         /\ keyCount last = N_WHITE_KEYS - 1)
  /\ (forall i key next,
         vat keyboard i = Ret key -> vat keyboard (i + 1) = Ret next ->
         keyCount next
         = keyCount key + match color next with WHITE => 1 | BLACK => 0 end).
Proof.
  cbv zeta. destruct newChoraleDisplay_laidOut as [Hsize Hkeys].
  split; [exact Hsize |]. split; [| split].
  - intros i key Hvat. destruct (Hkeys i key Hvat) as (Hn & Hc & _). auto.
  - destruct (vat_inside (keys newChoraleDisplay) 0) as [first Hfirst];
      [rewrite Hsize; unfold N_KEYS; lia |].
    destruct (vat_inside (keys newChoraleDisplay) (N_KEYS - 1))
      as [last Hlast]; [rewrite Hsize; unfold N_KEYS; lia |].
    exists first, last.
    destruct (Hkeys _ _ Hfirst) as (_ & Hc0 & Hk0).
    destruct (Hkeys _ _ Hlast) as (_ & Hc1 & Hk1).
    repeat split; try assumption.
  - intros i key next Hvat Hnext.
    pose proof (vat_bound _ _ _ Hvat) as Hbound.
    destruct (Hkeys _ _ Hvat) as (_ & _ & Hcount).
    destruct (Hkeys _ _ Hnext) as (_ & Hcolor & Hcount').
    rewrite Hcount, Hcount', Hcolor.
    replace (i + 1 + 1) with ((i + 1) + 1) by lia.
    destruct (getKeyColor (i + 1)) eqn:E.
    + destruct (black_key_step (i + 1)) as (_ & Hw & _); [lia | exact E |].
      lia.
    + destruct (white_key_step (i + 1)) as (Hw & _); [lia | exact E |]. lia.
Qed.

(** ** Highlighting *)

Lemma nth_error_modifyAt {A : Type} (n : nat) (f : A -> A) (v : list A)
    (m : nat) :
  nth_error (modifyAt n f v) m
  = option_map (fun x => if (m =? n)%nat then f x else x) (nth_error v m).
Proof.
  revert n m. induction v as [| x rest IH]; intros n m.
  - destruct n, m; reflexivity.
  - destruct n, m; simpl; try reflexivity.
    + destruct (nth_error rest m); reflexivity.
    + apply IH.
Qed.

Lemma vat_modifyAt {A : Type} (index : Z) (f : A -> A) (v : list A) (j : Z) :
  0 <= index ->
  vat (modifyAt (Z.to_nat index) f v) j
  = x <- vat v j ;; Ret (if j =? index then f x else x).
Proof.
  intros Hindex. unfold vat. destruct (Z.ltb_spec j 0); [reflexivity |].
  rewrite nth_error_modifyAt.
  destruct (nth_error v (Z.to_nat j)) as [x |]; [| reflexivity]. simpl.
  destruct (Z.eqb_spec j index), (Nat.eqb_spec (Z.to_nat j) (Z.to_nat index));
    try reflexivity; exfalso; lia.
Qed.

Lemma size_modifyAt {A : Type} (n : nat) (f : A -> A) (v : list A) :
  size (modifyAt n f v) = size v.
Proof.
  unfold size. f_equal. revert n.
  induction v as [| x rest IH]; intros [| n]; simpl; auto.
Qed.

Lemma laidOut_modifyAt (n index : Z) (f : Key -> Key) (keys : list Key) :
  (forall key, number (f key) = number key /\ color (f key) = color key
               /\ keyCount (f key) = keyCount key) ->
  0 <= index -> laidOut n keys ->
  laidOut n (modifyAt (Z.to_nat index) f keys).
Proof.
  intros Hf Hindex [Hsize Hkeys]. split; [rewrite size_modifyAt; exact Hsize |].
  intros j key Hvat. rewrite vat_modifyAt in Hvat by assumption.
  destruct (vat keys j) as [x | |] eqn:E; simpl in Hvat; try discriminate.
  injection Hvat as <-. destruct (Hkeys j x E) as (Hn & Hc & Hk).
  destruct (Hf x) as (Hn' & Hc' & Hk').
  destruct (j =? index); [rewrite Hn', Hc', Hk' |]; auto.
Qed.

Lemma drawWithNeighbours_returns (d : ChoraleDisplay) (keyNumber : Z)
    (key : Key) :
  (exists d', drawWithNeighbours d keyNumber key = Ret d')
  <-> 1 <= keyNumber <= size (keys d) - 2.
Proof.
  unfold drawWithNeighbours. cbv zeta. cbn [draw keys]. split.
  - intros [d' H].
    destruct (vat (keys d) (keyNumber - 1)) as [lowerNeighbour | |] eqn:E1;
      simpl in H; try discriminate.
    destruct (vat (keys d) (keyNumber + 1)) as [upperNeighbour | |] eqn:E2;
      simpl in H; try discriminate.
    apply vat_bound in E1, E2. lia.
  - intros H.
    destruct (vat_inside (keys d) (keyNumber - 1)) as [x ->]; [lia |].
    destruct (vat_inside (keys d) (keyNumber + 1)) as [y ->]; [lia |].
    simpl. eexists. reflexivity.
Qed.

Lemma drawWithNeighbours_keys (d d' : ChoraleDisplay) (keyNumber : Z)
    (key : Key) :
  drawWithNeighbours d keyNumber key = Ret d' -> keys d' = keys d.
Proof.
  unfold drawWithNeighbours. cbv zeta. cbn [draw keys]. intros H.
  destruct (vat (keys d) (keyNumber - 1)) as [lowerNeighbour | |];
    simpl in H; try discriminate.
  destruct (vat (keys d) (keyNumber + 1)) as [upperNeighbour | |];
    simpl in H; try discriminate.
  injection H as <-. reflexivity.
Qed.

(** What a call that returns has done to the keys: the key pointed at is
    [highlighted], the others are as before. *)
Lemma highlightKey_keys (d d' : ChoraleDisplay) (keyNumber : Z)
    (colorName : string) (flag : bool) :
  laidOut N_KEYS (keys d) ->
  highlightKey d keyNumber colorName flag = Ret d' ->
  forall j,
    vat (keys d') j
    = key <- vat (keys d) j ;;
      Ret (if j =? keyNumber then highlighted colorName flag key else key).
Proof.
  intros [Hsize Hkeys] H j. unfold highlightKey in H.
  destruct (vat (keys d) keyNumber) as [key | |] eqn:Ekey;
    simpl in H; try discriminate.
  pose proof (vat_bound _ _ _ Ekey) as Hbound.
  destruct (Hkeys _ _ Ekey) as (_ & Hcolor & _).
  assert (Hhere : forall x, vat (keys d) j = Ret x -> j = keyNumber ->
                            x = key) by (intros x Hx ->; congruence).
  assert (Hwhite : flag = false -> color key = getKeyColor keyNumber)
    by auto.
  destruct flag; [| rewrite <- Hwhite in H by reflexivity];
    unfold highlighted, fillOf;
    destruct (String.eqb colorName "blue");
    destruct (String.eqb colorName "green");
    destruct (String.eqb colorName "red");
    destruct (String.eqb colorName "purple");
    destruct (color key) eqn:Ecolor;
    try (apply drawWithNeighbours_keys in H; rewrite H);
    try (injection H as <-);
    unfold setFilled, setFillColor; cbn [draw keys];
    rewrite ?vat_modifyAt by lia;
    destruct (vat (keys d) j) as [x | |] eqn:Ej; try reflexivity; simpl;
    (destruct (Z.eqb_spec j keyNumber) as [Hj |]; [| reflexivity]);
    rewrite (Hhere x eq_refl Hj); try rewrite Ecolor; try reflexivity.
  destruct key. simpl in Ecolor. rewrite Ecolor. reflexivity.
Qed.

Lemma highlightKey_laidOut (d d' : ChoraleDisplay) (keyNumber : Z)
    (colorName : string) (flag : bool) :
  laidOut N_KEYS (keys d) ->
  highlightKey d keyNumber colorName flag = Ret d' ->
  laidOut N_KEYS (keys d').
Proof.
  intros Hlaid H. pose proof (highlightKey_keys _ _ _ _ _ Hlaid H) as Hvat.
  destruct Hlaid as [Hsize Hkeys]. split.
  - destruct (Z.lt_trichotomy (size (keys d')) (size (keys d)))
      as [Hlt | [Heq | Hgt]]; [| congruence |]; exfalso.
    + destruct (vat_inside (keys d) (size (keys d'))) as [x Hx];
        [pose proof (size_nonneg (keys d')); lia |].
      specialize (Hvat (size (keys d'))). rewrite Hx in Hvat. simpl in Hvat.
      rewrite vat_outside in Hvat by lia. discriminate.
    + destruct (vat_inside (keys d') (size (keys d))) as [x Hx];
        [pose proof (size_nonneg (keys d)); lia |].
      specialize (Hvat (size (keys d))). rewrite Hx in Hvat.
      rewrite vat_outside in Hvat by lia. discriminate.
  - intros j key Hj. rewrite Hvat in Hj.
    destruct (vat (keys d) j) as [x | |] eqn:Ex; simpl in Hj;
      try discriminate.
    injection Hj as <-. specialize (Hkeys j x Ex).
    destruct (j =? keyNumber); exact Hkeys.
Qed.

Lemma highlightKey_returns (d : ChoraleDisplay) (keyNumber : Z)
    (colorName : string) (flag : bool) :
  laidOut N_KEYS (keys d) ->
  (exists d', highlightKey d keyNumber colorName flag = Ret d')
  <-> 1 <= keyNumber <= N_KEYS - 2.
Proof.
  intros [Hsize Hkeys].
  assert (Hpaint :
            forall d1,
              size (keys d1) = N_KEYS ->
              size (keys (if String.eqb colorName "blue"
                          then setFillColor keyNumber "#0040c0" d1
                          else if String.eqb colorName "green"
                          then setFillColor keyNumber "#008000" d1
                          else if String.eqb colorName "red"
                          then setFillColor keyNumber "#ff0000" d1
                          else if String.eqb colorName "purple"
                          then setFillColor keyNumber "#800080" d1
                          else d1)) = N_KEYS).
  { intros d1 Hd1.
    destruct (String.eqb colorName "blue");
      [| destruct (String.eqb colorName "green");
         [| destruct (String.eqb colorName "red");
            [| destruct (String.eqb colorName "purple")]]];
      unfold setFillColor; cbn [keys]; rewrite ?size_modifyAt; exact Hd1. }
  assert (Hends : getKeyColor keyNumber = BLACK -> 0 <= keyNumber < N_KEYS ->
                  1 <= keyNumber <= N_KEYS - 2).
  { intros Hblack Hrange.
    destruct (Z.eq_dec keyNumber 0) as [-> | ]; [discriminate |].
    destruct (Z.eq_dec keyNumber (N_KEYS - 1)) as [-> | ];
      [discriminate | lia]. }
  unfold highlightKey. split.
  - intros [d' H].
    destruct (vat (keys d) keyNumber) as [key | |] eqn:Ekey;
      simpl in H; try discriminate.
    pose proof (vat_bound _ _ _ Ekey) as Hbound. rewrite Hsize in Hbound.
    destruct (Hkeys _ _ Ekey) as (_ & Hcolor & _). rewrite Hcolor in H.
    destruct (getKeyColor keyNumber) eqn:Ecolor; [destruct flag; auto |].
    destruct flag;
      (assert (Hreturns : 1 <= keyNumber <= N_KEYS - 2);
       [| exact Hreturns]);
      match type of H with
      | drawWithNeighbours ?d1 _ _ = _ =>
          replace N_KEYS with (size (keys d1));
          [apply (proj1 (drawWithNeighbours_returns d1 keyNumber key));
           eexists; exact H |]
      end;
      unfold setFilled; cbn [keys]; rewrite size_modifyAt;
      [apply Hpaint; exact Hsize |].
    unfold setFillColor; cbn [keys]. rewrite size_modifyAt. exact Hsize.
  - intros Hrange.
    destruct (vat_inside (keys d) keyNumber) as [key Ekey];
      [rewrite Hsize; lia |].
    rewrite Ekey. simpl.
    assert (Hdraw :
              forall d1, size (keys d1) = N_KEYS ->
                         exists d', drawWithNeighbours d1 keyNumber key
                                    = Ret d').
    { intros d1 Hd1. apply drawWithNeighbours_returns. rewrite Hd1.
      exact Hrange. }
    destruct flag;
      [destruct (color key) | destruct (getKeyColor keyNumber)];
      try (eexists; reflexivity);
      apply Hdraw; unfold setFilled; cbn [keys]; rewrite size_modifyAt;
      [apply Hpaint; exact Hsize |].
    unfold setFillColor; cbn [keys]. rewrite size_modifyAt. exact Hsize.
Qed.

Lemma highlightKey_faults (d : ChoraleDisplay) (keyNumber : Z)
    (colorName : string) (flag : bool) :
  laidOut N_KEYS (keys d) -> ~ 1 <= keyNumber <= N_KEYS - 2 ->
  highlightKey d keyNumber colorName flag = Fault.
Proof.
  intros Hlaid Hrange.
  pose proof (highlightKey_returns d keyNumber colorName flag Hlaid)
    as Hreturns.
  destruct (highlightKey d keyNumber colorName flag) as [d' | |] eqn:E;
    [exfalso; apply Hrange, Hreturns; eauto | reflexivity |].
  exfalso. unfold highlightKey, drawWithNeighbours in E.
  repeat match type of E with
         | bind ?m _ = OutOfFuel =>
             let E' := fresh "E" in
             destruct m eqn:E';
               [simpl in E | discriminate E
               | exfalso; eapply vat_never_out_of_fuel; eassumption]
         | (if ?b then _ else _) = OutOfFuel => destruct b
         | match ?c with BLACK => _ | WHITE => _ end = OutOfFuel =>
             destruct c
         | Ret _ = OutOfFuel => discriminate E
         | _ => progress cbv zeta in E
         end.
Qed.

(** X21.  On the keyboard [highlightKey] returns exactly for the key
    numbers 1 to [N_KEYS - 2] and reads the key vector out of bounds for
    every other number: the first and the last key are white, and the
    redraw of a white key reads both neighbours.  A call that returns
    keeps the keyboard, so this holds for every call made after the
    constructor. *)
Theorem highlightKey_bounds (d : ChoraleDisplay) (keyNumber : Z)
    (colorName : string) (flag : bool) :
  laidOut N_KEYS (keys d) ->
  ((exists d', highlightKey d keyNumber colorName flag = Ret d')
   <-> 1 <= keyNumber <= N_KEYS - 2)
  /\ (highlightKey d keyNumber colorName flag = Fault
      <-> ~ 1 <= keyNumber <= N_KEYS - 2)
  /\ forall d', highlightKey d keyNumber colorName flag = Ret d' ->
                laidOut N_KEYS (keys d').
Proof.
  intros Hlaid.
  pose proof (highlightKey_returns d keyNumber colorName flag Hlaid)
    as Hreturns.
  split; [exact Hreturns |]. split.
  - split.
    + intros Hfault Hrange. apply Hreturns in Hrange as [d' Hd'].
      congruence.
    + apply highlightKey_faults. exact Hlaid.
  - intros d' Hd'. exact (highlightKey_laidOut _ _ _ _ _ Hlaid Hd').
Qed.

Lemma highlightKey_bounds_witness :
  ((exists d', highlightKey newChoraleDisplay 43 "blue" true = Ret d')
   <-> 1 <= 43 <= N_KEYS - 2)
  /\ (highlightKey newChoraleDisplay 43 "blue" true = Fault
      <-> ~ 1 <= 43 <= N_KEYS - 2)
  /\ forall d', highlightKey newChoraleDisplay 43 "blue" true = Ret d' ->
                laidOut N_KEYS (keys d').
Proof.
  apply (highlightKey_bounds newChoraleDisplay 43 "blue" true).
  exact newChoraleDisplay_laidOut.
Defined.

(** X22.  Highlighting a key and then unhighlighting it, as [getNotes] and
    [main] do around each pause, brings a keyboard at rest back to rest:
    the second call returns, every key is as it was before, except that
    the rectangle of the key pointed at now has the fill colour black. *)
Theorem highlight_then_unhighlight (d d1 : ChoraleDisplay) (keyNumber : Z)
    (colorName : string) :
  laidOut N_KEYS (keys d) -> atRest d ->
  highlightKey d keyNumber colorName true = Ret d1 ->
  exists d2,
    highlightKey d1 keyNumber colorName false = Ret d2
    /\ atRest d2
    /\ forall j key,
         vat (keys d) j = Ret key ->
         vat (keys d2) j
         = Ret (if j =? keyNumber
                then mkKey (filled key) (Some "#000000"%string) (color key)
                       (number key) (keyCount key)
                else key).
Proof.
  intros Hlaid Hrest H1.
  pose proof (highlightKey_laidOut _ _ _ _ _ Hlaid H1) as Hlaid1.
  assert (Hrange : 1 <= keyNumber <= N_KEYS - 2)
    by (apply (highlightKey_returns d keyNumber colorName true Hlaid); eauto).
  destruct (proj2 (highlightKey_returns d1 keyNumber colorName false Hlaid1)
              Hrange) as [d2 H2].
  exists d2. split; [exact H2 |].
  pose proof (highlightKey_keys _ _ _ _ _ Hlaid H1) as Hkeys1.
  pose proof (highlightKey_keys _ _ _ _ _ Hlaid1 H2) as Hkeys2.
  assert (Hpair :
            forall j key,
              vat (keys d) j = Ret key ->
              vat (keys d2) j
              = Ret (if j =? keyNumber
                     then mkKey (filled key) (Some "#000000"%string)
                            (color key) (number key) (keyCount key)
                     else key)).
  { intros j key Hj. rewrite Hkeys2, Hkeys1, Hj. simpl.
    destruct (j =? keyNumber); [| reflexivity].
    unfold highlighted. cbn [color filled fillColor number keyCount].
    rewrite (Hrest j key Hj). destruct (color key); reflexivity. }
  split; [| exact Hpair].
  intros j key2 Hj.
  destruct (vat_inside (keys d) j) as [key Hkey].
  { apply vat_bound in Hj. destruct Hlaid as [-> _].
    destruct (highlightKey_laidOut _ _ _ _ _ Hlaid1 H2) as [<- _]. exact Hj. }
  rewrite (Hpair j key Hkey) in Hj. injection Hj as <-.
  pose proof (Hrest j key Hkey) as Hfilled.
  destruct (j =? keyNumber); [cbn [filled color] |]; exact Hfilled.
Qed.

Lemma atRest_addKey (d : ChoraleDisplay) (key : Key) :
  atRest d ->
  filled key = match color key with BLACK => true | WHITE => false end ->
  atRest (addKey d key).
Proof.
  intros Hrest Hkey j key' Hj. unfold addKey, draw, push_back in Hj.
  cbn [keys] in Hj. destruct (Z.lt_ge_cases j (size (keys d))).
  - rewrite vat_app_left in Hj by assumption. eauto.
  - rewrite vat_app_right in Hj by assumption.
    pose proof (vat_bound _ _ _ Hj) as Hbound.
    assert (Hzero : j - size (keys d) = 0)
      by (unfold size in Hbound; simpl in Hbound; unfold size; lia).
    rewrite Hzero in Hj. injection Hj as <-. exact Hkey.
Qed.

Lemma initializeKeysFrom_atRest (i whiteKeyCounter blackKeyCounter : Z)
    (d : ChoraleDisplay) :
  atRest d -> atRest (initializeKeysFrom i whiteKeyCounter blackKeyCounter d).
Proof.
  funelim (initializeKeysFrom i whiteKeyCounter blackKeyCounter d);
    intros Hrest; [| exact Hrest].
  clear Heqcall. destruct (getKeyColor i);
    [apply H | apply H0]; apply atRest_addKey; auto.
Qed.

Lemma newChoraleDisplay_atRest : atRest newChoraleDisplay.
Proof.
  apply initializeKeysFrom_atRest. intros j key Hj.
  apply vat_bound in Hj. unfold size in Hj. simpl in Hj. lia.
Qed.

Lemma highlight_then_unhighlight_witness :
  let d1 :=
    match highlightKey newChoraleDisplay 7 "purple" true with
    | Ret d => d
    | _ => newChoraleDisplay
    end in
  exists d2,
    highlightKey d1 7 "purple" false = Ret d2
    /\ atRest d2
    /\ forall j key,
         vat (keys newChoraleDisplay) j = Ret key ->
         vat (keys d2) j
         = Ret (if j =? 7
                then mkKey (filled key) (Some "#000000"%string) (color key)
                       (number key) (keyCount key)
                else key).
Proof.
  cbv zeta.
  apply (highlight_then_unhighlight newChoraleDisplay _ 7 "purple").
  - exact newChoraleDisplay_laidOut.
  - exact newChoraleDisplay_atRest.
  - vm_compute. reflexivity.
Defined.

(** * Key names *)

Lemma setUpKeyMapFrom_get (i : Z) (keyMap : Map) :
  0 <= i ->
  forall j,
    get (setUpKeyMapFrom i keyMap) j
    = if (i <=? j) && (j <=? SOPRANO_MAX) then Some (pitchName j)
      else get keyMap j.
Proof.
  funelim (setUpKeyMapFrom i keyMap); intros Hi j.
  - clear Heqcall. rewrite H by lia. clear H.
    destruct (Z.leb_spec (i + 1) j), (Z.leb_spec i j),
      (Z.leb_spec j SOPRANO_MAX); try lia; simpl; try reflexivity.
    + (* the loop is past [j], or [j] is beyond the keyboard *)
      rewrite Z.rem_mod_nonneg by lia.
      by_residue i; simpl; destruct (Z.eqb_spec i j); try lia; reflexivity.
    + assert (i = j) by lia. subst j.
      rewrite Z.rem_mod_nonneg by lia. unfold pitchName.
      by_residue i; simpl; rewrite Z.eqb_refl; reflexivity.
    + rewrite Z.rem_mod_nonneg by lia.
      by_residue i; simpl; destruct (Z.eqb_spec i j); try lia; reflexivity.
  - destruct (Z.leb_spec i j), (Z.leb_spec j SOPRANO_MAX);
      try reflexivity; lia.
Qed.

Lemma pitchName_natural (i : Z) :
  0 <= i ->
  String.length (pitchName i) = 1%nat <-> getKeyColor i = WHITE.
Proof.
  intros Hi. rewrite getKeyColor_residue by lia. unfold pitchName.
  by_residue i; simpl; split; intros H; try reflexivity; discriminate H.
Qed.

(** X23.  After [setUpKeyMap] every key of the keyboard has a name, the
    same for keys a multiple of 12 apart; the name is a single letter
    exactly for the keys that [getKeyColor] makes white; bindings of
    numbers outside the keyboard are left as they were. *)
Theorem key_names_match_key_colors (keyMap : Map) (i : Z) :
  (BASS_MIN <= i <= SOPRANO_MAX ->
   exists name,
     get (setUpKeyMap keyMap) i = Some name
     /\ (String.length name = 1%nat <-> getKeyColor i = WHITE)
     /\ forall j, BASS_MIN <= j <= SOPRANO_MAX -> (j - i) mod 12 = 0 ->
                  get (setUpKeyMap keyMap) j = Some name)
  /\ (~ BASS_MIN <= i <= SOPRANO_MAX ->
      get (setUpKeyMap keyMap) i = get keyMap i).
Proof.
  unfold setUpKeyMap, BASS_MIN. split; intros Hi.
  - exists (pitchName i). split; [| split].
    + rewrite setUpKeyMapFrom_get by lia.
      destruct (Z.leb_spec 0 i), (Z.leb_spec i SOPRANO_MAX);
        try lia; reflexivity.
    + apply pitchName_natural. lia.
    + intros j Hj Hsame. rewrite setUpKeyMapFrom_get by lia.
      destruct (Z.leb_spec 0 j), (Z.leb_spec j SOPRANO_MAX); try lia.
      simpl. unfold pitchName.
      replace (j mod 12) with (i mod 12) by euclid. reflexivity.
  - rewrite setUpKeyMapFrom_get by lia.
    destruct (Z.leb_spec 0 i), (Z.leb_spec i SOPRANO_MAX);
      try reflexivity; lia.
Qed.

(** * The input loop *)

Section ConsoleProperties.
Variable toLowerCase : string -> string.
Variable stringToInteger : string -> result Z.
Variable getInteger : list string -> result (Z * list string).

Lemma getStartNote_range (fuel : nat) (startNote : Z) (input : list string)
    (startNote' : Z) (input' : list string) :
  getStartNote getInteger fuel startNote input = Ret (startNote', input') ->
  BASS_MIN <= startNote' <= BASS_MAX.
Proof.
  revert startNote input. induction fuel as [| fuel IH];
    intros startNote input H; simpl in H; [discriminate |].
  destruct ((startNote <? BASS_MIN) || (startNote >? BASS_MAX)) eqn:E.
  - destruct (getInteger input) as [[next rest] | |]; simpl in H;
      try discriminate.
    eapply IH. exact H.
  - injection H as <- <-. apply orb_false_iff in E as [E1 E2]. lia.
Qed.

Lemma flashKey_returns (d d' : ChoraleDisplay) (note : Z)
    (colorName : string) :
  laidOut N_KEYS (keys d) -> flashKey d note colorName = Ret d' ->
  1 <= note <= N_KEYS - 2 /\ laidOut N_KEYS (keys d').
Proof.
  intros Hlaid H. unfold flashKey in H.
  destruct (highlightKey d note colorName true) as [d1 | |] eqn:E1;
    simpl in H; try discriminate.
  split.
  - apply (highlightKey_returns d note colorName true Hlaid). eauto.
  - eapply highlightKey_laidOut; [| exact H].
    eapply highlightKey_laidOut; eassumption.
Qed.

Lemma notInScale_start (majorKey : bool) (startNote : Z) :
  notInScale startNote startNote majorKey = false.
Proof.
  unfold notInScale. cbv zeta. rewrite Z.sub_diag.
  change (Z.rem 0 12) with 0. rewrite nonNegative_closed.
  destruct majorKey; reflexivity.
Qed.

Lemma askNote_collecting (shows majorKey : bool) (startNote : Z)
    (st st' : noteState) :
  collecting shows majorKey startNote st -> askNote st = Ret st' ->
  collecting shows majorKey startNote st'
  /\ notes st' = notes st /\ display st' = display st.
Proof.
  intros Hst H. unfold askNote in H.
  destruct (getLine (console st)) as [[nextNoteStr rest] | |];
    simpl in H; try discriminate.
  injection H as <-. split; [exact Hst | split; reflexivity].
Qed.

Lemma readNote_collecting (shows majorKey : bool) (startNote : Z)
    (st : noteState) (step : noteStep) :
  collecting shows majorKey startNote st ->
  readNote stringToInteger majorKey startNote st = Ret step ->
  exists st',
    step = Continue st' /\ collecting shows majorKey startNote st'.
Proof.
  intros Hst H. unfold readNote in H.
  destruct (stringToInteger (line st)) as [nextNote | |];
    simpl in H; try discriminate.
  destruct ((nextNote <? BASS_MIN) || (nextNote >? BASS_MAX)) eqn:Erange;
    [| destruct (notInScale nextNote startNote majorKey) eqn:Escale].
  1, 2: destruct (askNote st) as [st' | |] eqn:Eask; simpl in H;
    try discriminate; injection H as <-; exists st';
    split; [reflexivity | eapply askNote_collecting; eassumption].
  destruct (flashKey (display st) nextNote "purple") as [d | |] eqn:Eflash;
    simpl in H; try discriminate.
  match type of H with
  | bind (askNote ?pushed) _ = _ =>
      assert (Hpushed : collecting shows majorKey startNote pushed);
      [| destruct (askNote pushed) as [st' | |] eqn:Eask; simpl in H;
         try discriminate; injection H as <-; exists st';
         split; [reflexivity | eapply askNote_collecting; eassumption]]
  end.
  destruct Hst as ([more Hmore] & Hall & Hshows).
  apply orb_false_iff in Erange as [E1 E2].
  unfold collecting, push_back. cbn [notes display]. split; [| split].
  - rewrite Hmore. eexists. reflexivity.
  - apply Forall_app. split; [exact Hall |].
    constructor; [| constructor]. split; [lia | exact Escale].
  - intros Hs. destruct (Hshows Hs) as [Hlaid Hpos].
    destruct (flashKey_returns _ _ _ _ Hlaid Eflash) as [Hnote Hlaid'].
    split; [exact Hlaid' |]. apply Forall_app. split; [exact Hpos |].
    constructor; [lia | constructor].
Qed.

Lemma getNotesStep_collecting (shows majorKey : bool) (startNote : Z)
    (st : noteState) (step : noteStep) :
  collecting shows majorKey startNote st ->
  getNotesStep toLowerCase stringToInteger majorKey startNote st
  = Ret step ->
  match step with
  | Continue st' => collecting shows majorKey startNote st'
  | Break st' =>
      collecting shows majorKey startNote st'
      /\ 3 <= size (notes st')
      /\ exists lastNote,
           back (notes st') = Ret lastNote
           /\ Z.rem (lastNote - startNote) 12 = 0
  end.
Proof.
  intros Hst H. unfold getNotesStep in H.
  assert (Hread :
            forall st1, collecting shows majorKey startNote st1 ->
                        readNote stringToInteger majorKey startNote st1
                        = Ret step ->
                        match step with
                        | Continue st' =>
                            collecting shows majorKey startNote st'
                        | Break st' =>
                            collecting shows majorKey startNote st'
                            /\ 3 <= size (notes st')
                            /\ exists lastNote,
                                 back (notes st') = Ret lastNote
                                 /\ Z.rem (lastNote - startNote) 12 = 0
                        end).
  { intros st1 Hst1 H1.
    destruct (readNote_collecting _ _ _ _ _ Hst1 H1) as (st' & -> & Hst').
    exact Hst'. }
  assert (Hagain :
            (st1 <- askNote st ;;
             readNote stringToInteger majorKey startNote st1) = Ret step ->
            match step with
            | Continue st' => collecting shows majorKey startNote st'
            | Break st' =>
                collecting shows majorKey startNote st'
                /\ 3 <= size (notes st')
                /\ exists lastNote,
                     back (notes st') = Ret lastNote
                     /\ Z.rem (lastNote - startNote) 12 = 0
            end).
  { intros H1. destruct (askNote st) as [st1 | |] eqn:Eask; simpl in H1;
      try discriminate.
    apply (Hread st1); [| exact H1].
    eapply askNote_collecting; eassumption. }
  destruct (String.eqb (toLowerCase (line st)) "done");
    [| exact (Hread st Hst H)].
  destruct (Z.ltb_spec (size (notes st)) 3); [exact (Hagain H) |].
  destruct (back (notes st)) as [lastNote | |] eqn:Eback; simpl in H;
    try discriminate.
  destruct (Z.eqb_spec (Z.rem (lastNote - startNote) 12) 0); simpl in H;
    [| exact (Hagain H)].
  injection H as <-. split; [exact Hst |]. split; [lia |].
  exists lastNote. auto.
Qed.

Lemma getNotesLoop_collecting (shows majorKey : bool) (startNote : Z)
    (fuel : nat) (st st' : noteState) :
  collecting shows majorKey startNote st ->
  getNotesLoop toLowerCase stringToInteger fuel majorKey startNote st
  = Ret st' ->
  collecting shows majorKey startNote st'
  /\ 3 <= size (notes st')
  /\ exists lastNote,
       back (notes st') = Ret lastNote
       /\ Z.rem (lastNote - startNote) 12 = 0.
Proof.
  revert st. induction fuel as [| fuel IH]; intros st Hst H; simpl in H;
    [discriminate |].
  destruct (getNotesStep toLowerCase stringToInteger majorKey startNote st)
    as [step | |] eqn:Estep; simpl in H; try discriminate.
  pose proof (getNotesStep_collecting _ _ _ _ _ Hst Estep) as Hstep.
  destruct step as [st1 | st1].
  - injection H as <-. exact Hstep.
  - eapply IH; eassumption.
Qed.

(** What a returning [getNotes] has established. *)
Lemma getNotes_collecting (shows : bool) (fuel : nat) (d : ChoraleDisplay)
    (input : list string) (majorKey : bool) (bass : list Z)
    (d' : ChoraleDisplay) (rest : list string) :
  (shows = true -> laidOut N_KEYS (keys d)) ->
  getNotes toLowerCase stringToInteger getInteger fuel d input
  = Ret (majorKey, bass, d', rest) ->
  exists startNote st,
    collecting shows majorKey startNote st
    /\ bass = notes st /\ d' = display st
    /\ 3 <= size bass
    /\ exists lastNote,
         back bass = Ret lastNote /\ Z.rem (lastNote - startNote) 12 = 0.
Proof.
  intros Hd H. unfold getNotes in H.
  destruct (getLine input) as [[majorMinor input1] | |]; simpl in H;
    try discriminate.
  destruct (getInteger input1) as [[first input2] | |]; simpl in H;
    try discriminate.
  destruct (getStartNote getInteger fuel first input2)
    as [[startNote input3] | |] eqn:Estart; simpl in H; try discriminate.
  destruct (flashKey d startNote "purple") as [d1 | |] eqn:Eflash;
    simpl in H; try discriminate.
  destruct (getLine input3) as [[nextNoteStr input4] | |]; simpl in H;
    try discriminate.
  match type of H with
  | bind (getNotesLoop _ _ _ ?mk _ ?st0) _ = _ =>
      destruct (getNotesLoop toLowerCase stringToInteger fuel mk startNote
                  st0) as [st | |] eqn:Eloop; simpl in H; try discriminate;
      assert (Hst0 : collecting shows mk startNote st0)
  end.
  { apply getStartNote_range in Estart. unfold collecting, push_back.
    cbn [notes display app]. split; [eexists; reflexivity |]. split.
    - constructor; [| constructor]. split; [exact Estart |].
      apply notInScale_start.
    - intros Hs. destruct (flashKey_returns _ _ _ _ (Hd Hs) Eflash).
      split; [assumption |]. constructor; [lia | constructor]. }
  injection H as <- <- <- <-.
  destruct (getNotesLoop_collecting _ _ _ _ _ _ Hst0 Eloop)
    as (Hst & Hsize & Hlast).
  exists startNote, st. auto.
Qed.

(** X24.  Whatever the console library does and whatever the user types,
    a bass line [getNotes] returns meets the input contract of the
    solvers: at least three notes, each within the bass range and in the
    scale of the first in the key mode returned with it, the last a
    multiple of 12 away from the first. *)
Theorem getNotes_returns_a_valid_bass_line (fuel : nat)
    (d : ChoraleDisplay) (input : list string) (majorKey : bool)
    (bass : list Z) (d' : ChoraleDisplay) (rest : list string) :
  getNotes toLowerCase stringToInteger getInteger fuel d input
  = Ret (majorKey, bass, d', rest) ->
  validBassLine majorKey bass = true.
Proof.
  intros H.
  destruct (getNotes_collecting false _ _ _ _ _ _ _
              (fun absurd => False_ind _ (Bool.diff_false_true absurd)) H)
    as (startNote & st & (Hstart & Hall & _) & -> & _ & Hsize & lastNote
        & Hback & Hlast).
  destruct Hstart as [more Hmore]. unfold validBassLine.
  rewrite Hmore in *. apply andb_true_iff.
  split; [apply andb_true_iff; split |].
  - apply Z.leb_le. exact Hsize.
  - apply forallb_forall. intros note Hin.
    rewrite Forall_forall in Hall. destruct (Hall note Hin) as [Hrange Hscale].
    rewrite Hscale. simpl. rewrite andb_true_r.
    apply andb_true_iff. split; apply Z.leb_le; lia.
  - apply back_last in Hback. rewrite Hback, last_last.
    apply Z.eqb_eq. exact Hlast.
Qed.

(** X25.  On the keyboard of the display a bass line [getNotes] returns
    never holds the note 0: the range test accepts 0, but showing it
    makes [highlightKey] read the key vector out of bounds, at once when 0
    is the start note.  The display is left as a keyboard. *)
Theorem getNotes_cannot_show_note_0 (fuel : nat) (d : ChoraleDisplay)
    (input : list string) :
  laidOut N_KEYS (keys d) ->
  (forall majorKey bass d' rest,
      getNotes toLowerCase stringToInteger getInteger fuel d input
      = Ret (majorKey, bass, d', rest) ->
      Forall (fun note => 1 <= note <= BASS_MAX) bass
      /\ laidOut N_KEYS (keys d'))
  /\ (forall majorMinor input1 input2,
         input = majorMinor :: input1 ->
         getInteger input1 = Ret (0, input2) ->
         getNotes toLowerCase stringToInteger getInteger (S fuel) d input
         = Fault).
Proof.
  intros Hlaid. split.
  - intros majorKey bass d' rest H.
    destruct (getNotes_collecting true _ _ _ _ _ _ _ (fun _ => Hlaid) H)
      as (startNote & st & (_ & Hall & Hshows) & -> & -> & _).
    destruct (Hshows eq_refl) as [Hlaid' Hpos]. split; [| exact Hlaid'].
    rewrite Forall_forall in *. intros note Hin.
    destruct (Hall note Hin) as [Hrange _]. specialize (Hpos note Hin). lia.
  - intros majorMinor input1 input2 -> Hzero. unfold getNotes.
    cbn [getLine bind]. rewrite Hzero. cbn [bind getStartNote].
    change ((0 <? BASS_MIN) || (0 >? BASS_MAX)) with false. cbv iota.
    cbn [bind]. unfold flashKey.
    rewrite highlightKey_faults by (unfold N_KEYS; auto with zarith).
    reflexivity.
Qed.

End ConsoleProperties.

Lemma getNotes_returns_a_valid_bass_line_witness :
  validBassLine false [9; 14; 16; 21] = true.
Proof.
  apply (getNotes_returns_a_valid_bass_line asTyped decimal readDecimal 9
           newChoraleDisplay
           ["minor"; "nine"; "30"; "9"; "done"; "14"; "15"; "16"; "21";
            "done"; "1"]%string
           false [9; 14; 16; 21]
           (match
               getNotes asTyped decimal readDecimal 9 newChoraleDisplay
                 ["minor"; "nine"; "30"; "9"; "done"; "14"; "15"; "16";
                  "21"; "done"; "1"]%string
             with
             | Ret (_, _, d', _) => d'
             | _ => newChoraleDisplay
             end)
           ["1"%string]).
  vm_compute. reflexivity.
Defined.

Lemma getNotes_cannot_show_note_0_witness :
  (forall majorKey bass d' rest,
      getNotes asTyped decimal readDecimal 5 newChoraleDisplay
        [""; "0"; "7"; "12"; "done"]%string
      = Ret (majorKey, bass, d', rest) ->
      Forall (fun note => 1 <= note <= BASS_MAX) bass
      /\ laidOut N_KEYS (keys d'))
  /\ (forall majorMinor input1 input2,
         [""; "0"; "7"; "12"; "done"]%string = majorMinor :: input1 ->
         readDecimal input1 = Ret (0, input2) ->
         getNotes asTyped decimal readDecimal 6 newChoraleDisplay
           [""; "0"; "7"; "12"; "done"]%string
         = Fault).
Proof.
  apply (getNotes_cannot_show_note_0 asTyped decimal readDecimal 5
           newChoraleDisplay [""; "0"; "7"; "12"; "done"]%string).
  exact newChoraleDisplay_laidOut.
Defined.

(** * The chords of a progression *)

Lemma vremove_Forall {A : Type} (P : A -> Prop) (v v' : list A) (index : Z) :
  Forall P v -> vremove v index = Ret v' -> Forall P v'.
Proof.
  intros Hall H. unfold vremove in H.
  destruct ((index <? 0) || (size v <=? index)); [discriminate |].
  injection H as <-. rewrite Forall_forall in *. intros x Hin.
  apply Hall. apply in_app_or in Hin as [Hin | Hin].
  - rewrite <- (firstn_skipn (Z.to_nat index) v).
    apply in_or_app. left. exact Hin.
  - rewrite <- (firstn_skipn (S (Z.to_nat index)) v).
    apply in_or_app. right. exact Hin.
Qed.

Lemma tryCandidate_members (P : Z -> Prop)
    (recurse : list Z -> result (bool * list Z)) (candidate index : Z) :
  (forall chords found chords',
      Forall P chords -> recurse chords = Ret (found, chords') ->
      Forall P chords') ->
  forall relations chords found chords',
    (In candidate relations -> P candidate) -> Forall P chords ->
    tryCandidate recurse candidate index relations chords
    = Ret (found, chords') ->
    Forall P chords'.
Proof.
  intros Hrec. induction relations as [| possibleChord rest IH];
    intros chords found chords' Hcandidate Hall H; simpl in H.
  - injection H as <- <-. exact Hall.
  - destruct (Z.eqb_spec possibleChord candidate) as [-> | Hne].
    + destruct (recurse (push_back chords candidate))
        as [[found1 pushed] | |] eqn:E; simpl in H; try discriminate.
      assert (Hpushed : Forall P pushed).
      { eapply Hrec; [| exact E]. apply Forall_app. split; [exact Hall |].
        constructor; [apply Hcandidate; left; reflexivity | constructor]. }
      destruct found1; [injection H as <- <-; exact Hpushed |].
      destruct (vremove pushed index) as [removed | |] eqn:Er;
        simpl in H; try discriminate.
      eapply IH; [| | exact H].
      * intros Hin. apply Hcandidate. right. exact Hin.
      * eapply vremove_Forall; eassumption.
    + eapply IH; [| exact Hall | exact H].
      intros Hin. apply Hcandidate. right. exact Hin.
Qed.

Lemma search_members (P : Z -> Prop) (majorKey : bool) (bass : list Z)
    (chordRelations : list (list Z)) (startingNote : Z) :
  P 1 ->
  (forall current successors chord,
      vat chordRelations current = Ret successors -> In chord successors ->
      P chord) ->
  forall fuel index currentChord chords found chords',
    Forall P chords ->
    createChordProgressionRec fuel majorKey bass chordRelations index
      startingNote currentChord chords = Ret (found, chords') ->
    Forall P chords'.
Proof.
  intros Htonic Htable. induction fuel as [| fuel IH];
    intros index currentChord chords found chords' Hall H; simpl in H;
    [discriminate |].
  destruct (index =? size bass - 2).
  - destruct (negb (currentChord =? 5)); injection H as <- <-;
      [exact Hall |].
    apply Forall_app. split; [exact Hall | constructor; [exact Htonic |]].
    constructor.
  - destruct (vat bass (index + 1)) as [next | |]; simpl in H;
      try discriminate.
    destruct (vat chordRelations currentChord) as [relations | |] eqn:Erel;
      simpl in H; try discriminate.
    assert (Hloop :
              forall candidate chords1 found1 chords1',
                Forall P chords1 ->
                tryCandidate
                  (createChordProgressionRec fuel majorKey bass
                     chordRelations (index + 1) startingNote candidate)
                  candidate index relations chords1
                = Ret (found1, chords1') ->
                Forall P chords1').
    { intros candidate chords1 found1 chords1' Hall1 H1.
      eapply tryCandidate_members; [| | exact Hall1 | exact H1].
      - intros. eapply IH; eassumption.
      - intros Hin. eapply Htable; eassumption. }
    match type of H with
    | bind ?root _ = _ =>
        destruct root as [[found1 afterRoot] | |] eqn:Eroot; simpl in H;
          try discriminate
    end.
    apply Hloop in Eroot; [| exact Hall].
    destruct found1; [injection H as <- <-; exact Eroot |].
    match type of H with
    | bind ?inversion _ = _ =>
        destruct inversion as [firstInvChord | |]; simpl in H;
          try discriminate
    end.
    match type of H with
    | bind ?second _ = _ =>
        destruct second as [[found2 afterInv] | |] eqn:Einv; simpl in H;
          try discriminate
    end.
    apply Hloop in Einv; [| exact Eroot].
    destruct found2; injection H as <- <-; exact Einv.
Qed.

(** X26.  Whether it succeeds or fails, the search leaves in the
    accumulator only chords that were in it before, the tonic chord 1,
    and chords listed as successors in the relation table it was given. *)
Theorem progression_chords_come_from_the_table (majorKey : bool)
    (bass chords : list Z) (chordRelations : list (list Z)) (found : bool)
    (chords' : list Z) :
  createChordProgression majorKey bass chords chordRelations
  = Ret (found, chords') ->
  Forall (fun chord => In chord chords \/ offered chordRelations chord)
    chords'.
Proof.
  intros H. unfold createChordProgression in H.
  destruct (vat bass 0) as [startingNote | |]; simpl in H; try discriminate.
  eapply search_members; [| | | exact H].
  - right. left. reflexivity.
  - intros current successors chord Hcurrent Hin. right. right. eauto.
  - apply Forall_app. split.
    + apply Forall_forall. intros chord Hin. left. exact Hin.
    + constructor; [right; left; reflexivity | constructor].
Qed.

Lemma progression_chords_come_from_the_table_witness :
  Forall (fun chord => In chord [6] \/ offered (setUpChordRels true) chord)
    [1; 3; 1; 5; 1].
Proof.
  apply (progression_chords_come_from_the_table true [0; 4; 7; 0] [6]
           (setUpChordRels true) true [1; 3; 1; 5; 1]).
  reflexivity.
Defined.


(** * The accumulators after a failing search *)




(** * The menu choices of [main] *)

Lemma movesThroughout_from_vat (bass : list Z) :
  (forall i current previous,
      1 <= i -> vat bass i = Ret current ->
      vat bass (i - 1) = Ret previous -> current <> previous) ->
  movesThroughout bass = true.
Proof.
  induction bass as [| first rest IH]; intros Hne; [reflexivity |].
  destruct rest as [| second rest']; [reflexivity |].
  change (movesThroughout (first :: second :: rest'))
    with (negb (first =? second) && movesThroughout (second :: rest')).
  apply andb_true_iff. split.
  - apply negb_true_iff, Z.eqb_neq. intros ->.
    apply (Hne 1 second second); [lia | reflexivity..].
  - apply IH. intros i current previous Hi Hcur Hprev.
    apply (Hne (i + 1) current previous); [lia | |].
    + change (first :: second :: rest') with ([first] ++ second :: rest').
      rewrite vat_app_right by (unfold size; simpl; lia).
      replace (i + 1 - size [first]) with i by (unfold size; simpl; lia).
      exact Hcur.
    + change (first :: second :: rest') with ([first] ++ second :: rest').
      rewrite vat_app_right by (unfold size; simpl; lia).
      replace (i + 1 - 1 - size [first]) with (i - 1)
        by (unfold size; simpl; lia).
      exact Hprev.
Qed.

(** The three lines of a solution are equally long, at most as long as
    the chords, and as long only when no step found a repeated bass
    note. *)
Lemma solution_sizes (majorKey : bool) (chords : list Z)
    (notesInChords : list (list Z)) (bass : list Z) (v' : voices) :
  canCreateChorale majorKey chords notesInChords cleared bass
  = Ret (true, v') ->
  1 <= size chords ->
  size (alto v') = size (soprano v') /\ size (tenor v') = size (soprano v')
  /\ size (soprano v') <= size chords
  /\ (size (soprano v') = size chords ->
      forall i current previous,
        1 <= i < size chords -> vat bass i = Ret current ->
        vat bass (i - 1) = Ret previous -> current <> previous).
Proof.
  intros H Hsize.
  destruct (canCreateChorale_true _ _ _ _ _ H)
    as (tonicNotes & s & a & t & _ & _ & _ & _ & Hrun).
  replace (size chords) with (Z.max 1 (size chords)) by lia.
  pose proof
    (helper_invariant
       (fun index v =>
          size (alto v) = size (soprano v)
          /\ size (tenor v) = size (soprano v)
          /\ size (soprano v) <= index
          /\ (size (soprano v) = index ->
              forall i current previous,
                1 <= i < index -> vat bass i = Ret current ->
                vat bass (i - 1) = Ret previous -> current <> previous))
       majorKey chords notesInChords bass) as Hinv.
  cbv beta in Hinv. eapply Hinv; [| exact Hrun |]; clear Hinv.
  - intros index LTCorrected v v1 flag Hindex (Ha & Ht & Hle & Hmoves) Hstep.
    apply choraleStep_advanced in Hstep.
    destruct Hstep as (_ & current & previous & Hcur & Hprev & Hadv).
    destruct Hadv as [[Heq ->] | (Hne & s1 & a1 & t1 & chord & notes & ->
                                  & _)].
    + repeat split; try assumption; try lia.
    + cbn [soprano alto tenor]. rewrite !size_push_back.
      repeat split; try lia.
      intros Hfull i cur prev Hi Hcur' Hprev'.
      destruct (Z.eq_dec i index) as [-> | Hother].
      * congruence.
      * apply (Hmoves ltac:(lia) i cur prev); [lia | assumption..].
  - cbn [soprano alto tenor]. unfold size. simpl.
    repeat split; try lia.
Qed.

Ltac shown H :=
  repeat match type of H with
         | bind (vat ?l ?i) _ = Ret _ =>
             let x := fresh "pitch" in
             let E := fresh "Epitch" in
             destruct (vat l i) as [x | |] eqn:E; simpl in H;
               [| discriminate H | discriminate H]
         | bind (highlightKey ?d ?k ?c ?f) _ = Ret _ =>
             let d1 := fresh "d" in
             let E := fresh "Eshow" in
             destruct (highlightKey d k c f) as [d1 | |] eqn:E; simpl in H;
               [| discriminate H | discriminate H];
             match goal with
             | Hlaid : laidOut N_KEYS (keys d) |- _ =>
                 pose proof (proj1 (highlightKey_returns d k c f Hlaid)
                               (ex_intro _ d1 E));
                 pose proof (highlightKey_laidOut _ _ _ _ _ Hlaid E);
                 clear E
             end
         end.

Lemma showChord_returns (d d' : ChoraleDisplay) (v : voices) (bass : list Z)
    (i : Z) :
  laidOut N_KEYS (keys d) -> showChord d v bass i = Ret d' ->
  (exists s a t b,
      vat (soprano v) i = Ret s /\ vat (alto v) i = Ret a
      /\ vat (tenor v) i = Ret t /\ vat bass i = Ret b
      /\ innerKey s /\ innerKey a /\ innerKey t /\ innerKey b)
  /\ laidOut N_KEYS (keys d').
Proof.
  intros Hlaid H. unfold showChord in H. shown H.
  split.
  - exists pitch, pitch0, pitch1, pitch2.
    repeat (split; [reflexivity |]). unfold innerKey. lia.
  - eapply highlightKey_laidOut; [| exact H]. assumption.
Qed.

Lemma showChorale_returns (v : voices) (bass : list Z) (count : nat) :
  forall d d' first,
    laidOut N_KEYS (keys d) ->
    showChorale count d v bass first = Ret d' ->
    (forall i,
        first <= i < first + Z.of_nat count ->
        exists s a t b,
          vat (soprano v) i = Ret s /\ vat (alto v) i = Ret a
          /\ vat (tenor v) i = Ret t /\ vat bass i = Ret b
          /\ innerKey s /\ innerKey a /\ innerKey t /\ innerKey b)
    /\ laidOut N_KEYS (keys d').
Proof.
  induction count as [| count IH]; intros d d' first Hlaid H; simpl in H.
  - injection H as <-. split; [intros i Hi; lia | exact Hlaid].
  - destruct (showChord d v bass first) as [d1 | |] eqn:E; simpl in H;
      try discriminate.
    destruct (showChord_returns _ _ _ _ _ Hlaid E) as [Hfirst Hlaid1].
    destruct (IH _ _ _ Hlaid1 H) as [Hrest Hlaid'].
    split; [| exact Hlaid']. intros i Hi.
    destruct (Z.eq_dec i first) as [-> | Hne]; [exact Hfirst |].
    apply Hrest. lia.
Qed.

Lemma Forall_vat {A : Type} (P : A -> Prop) (v : list A) :
  (forall i x, vat v i = Ret x -> P x) -> Forall P v.
Proof.
  intros H. apply Forall_forall. intros x Hin.
  destruct (In_vat _ _ Hin) as [i Hi]. eauto.
Qed.

Lemma major_table_degrees (current : Z) (successors : list Z) (chord : Z) :
  vat (setUpChordRels true) current = Ret successors ->
  In chord successors -> 1 <= chord <= 7.
Proof.
  intros Hcurrent Hin. pose proof (vat_bound _ _ _ Hcurrent) as Hbound.
  unfold size in Hbound. simpl in Hbound.
  assert (Hcases : current = 0 \/ current = 1 \/ current = 2 \/ current = 3
                   \/ current = 4 \/ current = 5 \/ current = 6
                   \/ current = 7) by lia.
  repeat destruct Hcases as [Hcases | Hcases]; subst current;
    injection Hcurrent as <-; simpl in Hin;
    repeat destruct Hin as [Hin | Hin]; try contradiction; lia.
Qed.

Section MenuChoices.
Variable toLowerCase : string -> string.
Variable stringToInteger : string -> result Z.
Variable getInteger : list string -> result (Z * list string).

(** Choice 1 taken while the global [majorKey] is true searches with the
    major table, whatever key mode the user then enters. *)
Lemma inputBassLine_major_table (fuel : nat)
    (d : ChoraleDisplay) (input : list string) (majorKey : bool)
    (outcome : solved) (d' : ChoraleDisplay) (rest : list string) :
  inputBassLine toLowerCase stringToInteger getInteger fuel true d input
  = Ret (majorKey, outcome, d', rest) ->
  usesMajorDegrees outcome.
Proof.
  intros H. unfold inputBassLine in H. cbv zeta in H.
  destruct (getNotes toLowerCase stringToInteger getInteger fuel d input)
    as [[[[key bass] d1] input1] | |]; simpl in H; try discriminate.
  destruct (createChordProgression key bass [] (setUpChordRels true))
    as [[found chords] | |] eqn:Echords; simpl in H; try discriminate.
  assert (Hchords : Forall (fun chord => 1 <= chord <= 7) chords).
  { unfold createChordProgression in Echords.
    destruct (vat bass 0) as [startingNote | |]; simpl in Echords;
      try discriminate.
    eapply search_members; [| | | exact Echords].
    - lia.
    - exact major_table_degrees.
    - constructor; [lia | constructor]. }
  destruct found; simpl in H; [| injection H as <- <- <- <-; exact I].
  destruct (vat bass 0) as [startNote | |]; simpl in H; try discriminate.
  destruct (canCreateChorale key chords
              (establishNotesInChords startNote key) cleared bass)
    as [[found v] | |]; simpl in H; try discriminate.
  destruct found; simpl in H.
  - destruct (showChorale (length bass) d1 v bass 0); simpl in H;
      try discriminate.
    injection H as <- <- <- <-. exact Hchords.
  - injection H as <- <- <- <-. exact Hchords.
Qed.

(** X27.  A run of choice 1 that shows a chorale to the end had a bass
    line that never repeats a note, has one chord and one pitch of each
    voice per bass note, and pointed only at keys with a neighbour on
    either side.  A bass line with a repeated note never gets that far:
    its three lines come out shorter than the bass line, which the loop
    that shows them indexes to the end. *)
Theorem shown_chorale_has_no_repeated_bass_note (fuel : nat)
    (tableKey : bool) (d : ChoraleDisplay) (input : list string)
    (majorKey : bool) (bass chords : list Z) (v : voices)
    (d' : ChoraleDisplay) (rest : list string) :
  laidOut N_KEYS (keys d) ->
  inputBassLine toLowerCase stringToInteger getInteger fuel tableKey d input
  = Ret (majorKey, Harmonized bass chords v, d', rest) ->
  movesThroughout bass = true
  /\ length chords = length bass
  /\ length (soprano v) = length bass /\ length (alto v) = length bass
  /\ length (tenor v) = length bass
  /\ Forall innerKey (soprano v ++ alto v ++ tenor v ++ bass)
  /\ laidOut N_KEYS (keys d').
Proof.
  intros Hlaid H. unfold inputBassLine in H. cbv zeta in H.
  destruct (getNotes toLowerCase stringToInteger getInteger fuel d input)
    as [[[[key notes] d1] input1] | |] eqn:Enotes; simpl in H;
    try discriminate.
  destruct (createChordProgression key notes [] (setUpChordRels tableKey))
    as [[found progression] | |] eqn:Echords; simpl in H; try discriminate.
  destruct found; simpl in H; [| discriminate].
  destruct (vat notes 0) as [startNote | |] eqn:Estart; simpl in H;
    try discriminate.
  destruct (canCreateChorale key progression
              (establishNotesInChords startNote key) cleared notes)
    as [[found lines] | |] eqn:Elines; simpl in H; try discriminate.
  destruct found; simpl in H; [| discriminate].
  destruct (showChorale (length notes) d1 lines notes 0) as [d2 | |]
    eqn:Eshow; simpl in H; try discriminate.
  injection H as <- <- <- <- <- <-.
  destruct (getNotes_collecting toLowerCase stringToInteger getInteger true
              _ _ _ _ _ _ _ (fun _ => Hlaid) Enotes)
    as (start & st & (_ & _ & Hshows) & -> & -> & Hthree & _).
  destruct (Hshows eq_refl) as [Hlaid1 _]. clear Hshows.
  assert (Hprogression : size progression = size (notes st)).
  { unfold createChordProgression in Echords. rewrite Estart in Echords.
    simpl in Echords. apply search_true in Echords as [Hsize _].
    rewrite size_push_back in Hsize.
    change (size (@nil Z)) with 0 in Hsize. lia. }
  destruct (solution_sizes _ _ _ _ _ Elines ltac:(lia))
    as (Halto & Htenor & Hle & Hmoves).
  destruct (showChorale_returns _ _ _ _ _ _ Hlaid1 Eshow)
    as [Hshown Hlaid2].
  fold (size (notes st)) in Hshown.
  assert (Hfull : size (soprano lines) = size progression).
  { destruct (Hshown (size (notes st) - 1) ltac:(lia))
      as (s & _ & _ & _ & Hs & _).
    apply vat_bound in Hs. lia. }
  split; [| split; [| split; [| split; [| split; [| split]]]]].
  - apply movesThroughout_from_vat. intros i current previous Hi Hcur Hprev.
    apply (Hmoves Hfull i current previous); [| assumption..].
    apply vat_bound in Hcur. lia.
  - unfold size in Hprogression. lia.
  - unfold size in *. lia.
  - unfold size in *. lia.
  - unfold size in *. lia.
  - repeat (apply Forall_app; split); apply Forall_vat; intros i x Hx;
      pose proof (vat_bound _ _ _ Hx) as Hbound;
      destruct (Hshown i ltac:(lia))
        as (s & a & t & b & Hs & Ha & Ht & Hb & Hks & Hka & Hkt & Hkb);
      congruence.
  - exact Hlaid2.
Qed.

End MenuChoices.

Lemma shown_chorale_has_no_repeated_bass_note_witness :
  movesThroughout [9; 14; 16; 21] = true
  /\ length [1; 4; 5; 1] = length [9; 14; 16; 21]
  /\ length [33; 33; 32; 33] = length [9; 14; 16; 21]
  /\ length [28; 29; 28; 28] = length [9; 14; 16; 21]
  /\ length [24; 26; 23; 24] = length [9; 14; 16; 21]
  /\ Forall innerKey
       ([33; 33; 32; 33] ++ [28; 29; 28; 28] ++ [24; 26; 23; 24]
        ++ [9; 14; 16; 21])
  /\ laidOut N_KEYS
       (keys
          (match
              inputBassLine asTyped decimal readDecimal 9 false
                newChoraleDisplay
                ["minor"; "9"; "14"; "16"; "21"; "done"]%string
            with
            | Ret (_, _, d', _) => d'
            | _ => newChoraleDisplay
            end)).
Proof.
  apply (shown_chorale_has_no_repeated_bass_note asTyped decimal readDecimal
           9 false newChoraleDisplay
           ["minor"; "9"; "14"; "16"; "21"; "done"]%string false
           [9; 14; 16; 21] [1; 4; 5; 1]
           (mkVoices [33; 33; 32; 33] [28; 29; 28; 28] [24; 26; 23; 24])
           _ []).
  - exact newChoraleDisplay_laidOut.
  - vm_compute. reflexivity.
Defined.

(** ** Choice 2: looking up a key *)

Lemma flashKey_inner (d : ChoraleDisplay) (note : Z) (colorName : string) :
  laidOut N_KEYS (keys d) -> innerKey note ->
  exists d', flashKey d note colorName = Ret d' /\ laidOut N_KEYS (keys d').
Proof.
  intros Hlaid Hnote. unfold flashKey.
  destruct (proj2 (highlightKey_returns d note colorName true Hlaid) Hnote)
    as [d1 H1].
  pose proof (highlightKey_laidOut _ _ _ _ _ Hlaid H1) as Hlaid1.
  destruct (proj2 (highlightKey_returns d1 note colorName false Hlaid1) Hnote)
    as [d2 H2].
  exists d2. rewrite H1. simpl. split; [exact H2 |].
  exact (highlightKey_laidOut _ _ _ _ _ Hlaid1 H2).
Qed.

Lemma flashKey_faults (d : ChoraleDisplay) (note : Z) (colorName : string) :
  laidOut N_KEYS (keys d) -> ~ innerKey note ->
  flashKey d note colorName = Fault.
Proof.
  intros Hlaid Hnote. unfold flashKey.
  rewrite highlightKey_faults by assumption. reflexivity.
Qed.

Section LookUp.
Variable getInteger : list string -> result (Z * list string).

(** X28.  Choice 2 tests the key number against [BASS_MIN] and
    [SOPRANO_MAX], the whole keyboard.  For a key with a neighbour on
    either side it gives the name, a single letter exactly when the key
    is white, and the octave; for the keys 0 and [N_KEYS - 1], which pass
    the test, it reads the key vector out of bounds; any other number is
    refused and nothing is shown. *)
Theorem key_look_up (keyMap : Map) (d : ChoraleDisplay)
    (input : list string) (keyNumber : Z) (rest : list string) :
  laidOut N_KEYS (keys d) -> getInteger input = Ret (keyNumber, rest) ->
  (innerKey keyNumber ->
   exists keyMap' name d',
     lookUpKeyNumber getInteger keyMap d input
     = Ret (keyMap', Some (name, Z.quot keyNumber 12 + 2), d', rest)
     /\ (String.length name = 1%nat <-> getKeyColor keyNumber = WHITE)
     /\ laidOut N_KEYS (keys d'))
  /\ (keyNumber = 0 \/ keyNumber = N_KEYS - 1 ->
      lookUpKeyNumber getInteger keyMap d input = Fault)
  /\ (keyNumber < 0 \/ N_KEYS <= keyNumber ->
      lookUpKeyNumber getInteger keyMap d input
      = Ret (setUpKeyMap keyMap, None, d, rest)).
Proof.
  intros Hlaid Hinput. unfold lookUpKeyNumber. cbv zeta.
  rewrite Hinput. cbn [bind].
  unfold innerKey, N_KEYS, BASS_MIN, SOPRANO_MAX.
  split; [| split]; intros Hkey.
  - destruct (Z.geb_spec keyNumber 0), (Z.leb_spec keyNumber 43); try lia.
    cbn [andb]. unfold setUpKeyMap.
    rewrite setUpKeyMapFrom_get by (unfold BASS_MIN; lia).
    unfold BASS_MIN, SOPRANO_MAX.
    destruct (Z.leb_spec 0 keyNumber), (Z.leb_spec keyNumber 43); try lia.
    cbn [andb].
    destruct (flashKey_inner d keyNumber "blue" Hlaid Hkey)
      as (d' & -> & Hlaid').
    cbn [bind]. do 3 eexists. split; [reflexivity |].
    split; [apply pitchName_natural; lia | exact Hlaid'].
  - destruct (Z.geb_spec keyNumber 0), (Z.leb_spec keyNumber 43); try lia.
    cbn [andb].
    rewrite flashKey_faults; [reflexivity | exact Hlaid |].
    unfold innerKey, N_KEYS. lia.
  - destruct (Z.geb_spec keyNumber 0), (Z.leb_spec keyNumber 43); try lia;
      reflexivity.
Qed.

End LookUp.

Lemma key_look_up_witness :
  (innerKey 42 ->
   exists keyMap' name d',
     lookUpKeyNumber readDecimal [] newChoraleDisplay ["x"; "42"]%string
     = Ret (keyMap', Some (name, Z.quot 42 12 + 2), d', [])
     /\ (String.length name = 1%nat <-> getKeyColor 42 = WHITE)
     /\ laidOut N_KEYS (keys d'))
  /\ (42 = 0 \/ 42 = N_KEYS - 1 ->
      lookUpKeyNumber readDecimal [] newChoraleDisplay ["x"; "42"]%string
      = Fault)
  /\ (42 < 0 \/ N_KEYS <= 42 ->
      lookUpKeyNumber readDecimal [] newChoraleDisplay ["x"; "42"]%string
      = Ret (setUpKeyMap [], None, newChoraleDisplay, [])).
Proof.
  apply (key_look_up readDecimal [] newChoraleDisplay ["x"; "42"]%string
           42 []).
  - exact newChoraleDisplay_laidOut.
  - reflexivity.
Defined.

(** ** The session *)

Section Session.
Variable toLowerCase : string -> string.
Variable toUpperCase : string -> string.
Variable trim : string -> string.
Variable stringToInteger : string -> result Z.
Variable getInteger : list string -> result (Z * list string).

Lemma mainLoop_tables (fuel : nat) :
  forall majorKey keyMap d input answers,
    mainLoop toLowerCase toUpperCase trim stringToInteger getInteger fuel
      majorKey keyMap d input = Ret answers ->
    forall earlier key outcome later,
      answers = earlier ++ Solved key outcome :: later ->
      keyAfter majorKey earlier = true -> usesMajorDegrees outcome.
Proof.
  induction fuel as [| fuel IH]; intros majorKey keyMap d input answers H;
    simpl in H; [discriminate |].
  destruct (getLine input) as [[line input1] | |]; simpl in H;
    try discriminate.
  destruct (String.eqb (toUpperCase (trim line)) "1");
    [| destruct (String.eqb (toUpperCase (trim line)) "2");
       [| destruct (String.eqb (toUpperCase (trim line)) "3");
          [| destruct (startsWithQ (toUpperCase (trim line)))]]].
  - destruct (inputBassLine toLowerCase stringToInteger getInteger fuel
                majorKey d input1)
      as [[[[key1 outcome1] d1] input2] | |] eqn:Echoice; simpl in H;
      try discriminate.
    destruct (mainLoop toLowerCase toUpperCase trim stringToInteger
                getInteger fuel key1 keyMap d1 input2)
      as [answers1 | |] eqn:Eloop; simpl in H; try discriminate.
    injection H as <-. intros [| first earlier] key outcome later Hsplit Hkey.
    + injection Hsplit as <- <- <-. simpl in Hkey. subst majorKey.
      eapply inputBassLine_major_table. exact Echoice.
    + injection Hsplit as <- ->. simpl in Hkey.
      eapply IH; [exact Eloop | reflexivity | exact Hkey].
  - destruct (lookUpKeyNumber getInteger keyMap d input1)
      as [[[[keyMap1 found] d1] input2] | |]; simpl in H; try discriminate.
    destruct (mainLoop toLowerCase toUpperCase trim stringToInteger
                getInteger fuel majorKey keyMap1 d1 input2)
      as [answers1 | |] eqn:Eloop; simpl in H; try discriminate.
    injection H as <-. intros [| first earlier] key outcome later Hsplit Hkey;
      [discriminate Hsplit |].
    injection Hsplit as <- ->. simpl in Hkey.
    eapply IH; [exact Eloop | reflexivity | exact Hkey].
  - destruct (mainLoop toLowerCase toUpperCase trim stringToInteger
                getInteger fuel majorKey keyMap d input1)
      as [answers1 | |] eqn:Eloop; simpl in H; try discriminate.
    injection H as <-. intros [| first earlier] key outcome later Hsplit Hkey;
      [discriminate Hsplit |].
    injection Hsplit as <- ->. simpl in Hkey.
    eapply IH; [exact Eloop | reflexivity | exact Hkey].
  - injection H as <-. intros [| first earlier] key outcome later Hsplit;
      discriminate Hsplit.
  - eapply IH. exact H.
Qed.

(** X29.  [main] sets up the relation table before [getNotes] stores the
    key mode of the bass line, so the table is the one of the key mode of
    the bass line entered before, and the major one for the first: a bass
    line entered at the start of a session or after a bass line in a
    major key gets a progression with the degrees 1 to 7 only, so in a
    minor key the chord 8 is never used. *)
Theorem table_is_the_one_of_the_bass_line_before (fuel : nat)
    (input : list string) (answers earlier : list answer) (key : bool)
    (outcome : solved) (later : list answer) :
  main toLowerCase toUpperCase trim stringToInteger getInteger fuel input
  = Ret answers ->
  answers = earlier ++ Solved key outcome :: later ->
  keyAfter true earlier = true ->
  usesMajorDegrees outcome.
Proof.
  intros H Hsplit Hkey. unfold main in H. cbv zeta in H.
  destruct (getLine input) as [[line input1] | |]; simpl in H;
    try discriminate.
  eapply mainLoop_tables; eassumption.
Qed.

End Session.

Lemma table_is_the_one_of_the_bass_line_before_witness :
  usesMajorDegrees
    (Harmonized [9; 14; 16; 21] [1; 4; 5; 1]
       (mkVoices [33; 33; 32; 33] [28; 29; 28; 28] [24; 26; 23; 24])).
Proof.
  apply (table_is_the_one_of_the_bass_line_before asTyped asTyped asTyped
           decimal readDecimal 9
           [""; "3"; "1"; "minor"; "9"; "14"; "16"; "21"; "done"; "Q"]%string
           [Rules;
            Solved false
              (Harmonized [9; 14; 16; 21] [1; 4; 5; 1]
                 (mkVoices [33; 33; 32; 33] [28; 29; 28; 28]
                    [24; 26; 23; 24]))]
           [Rules] false _ []).
  - vm_compute. reflexivity.
  - reflexivity.
  - reflexivity.
Defined.

(** * Reads past the end of a catalog entry *)

(** C9.  The searches test no precondition and report nothing.  For the
    valid bass line 16, 6, 23, 4 in a major key the chord search returns
    the chords 1, 2, 5, 1; the first starting voicing is rejected, and the
    second one, soprano 40, alto 32, tenor 23, passes two steps and comes
    to the last chord with the soprano on 42.  The bass falls, so the step
    calls [nextHigherNote] on the tonic entry, whose last pitch is 40,
    with the target 42: the search ends with [lhs] at the size of the
    vector and reads the element at that index, outside the vector.
    Nothing tells this outcome from the two outcomes of a search. *)
Theorem valid_bass_line_reads_past_the_entry :
  let bass := [16; 6; 23; 4] in
  let chords := [1; 2; 5; 1] in
  let notesInChords := establishNotesInChords 16 true in
  let tonicNotes := [4; 8; 11; 16; 20; 23; 28; 32; 35; 40] in
  let v1 := mkVoices [40; 42] [32; 33] [23; 25] in
  let v2 := mkVoices [40; 42; 42] [32; 33; 30] [23; 25; 23] in
  validBassLine true bass = true
  /\ createChordProgression true bass [] (setUpChordRels true)
     = Ret (true, chords)
  /\ tryVoicing true chords notesInChords bass cleared 28 23 20
     = Ret (false, mkVoices [28; 30] [23; 25] [20; 21])
  /\ choraleStep true chords notesInChords bass 1 false
       (mkVoices [40] [32] [23]) = Ret (Advance v1 false)
  /\ choraleStep true chords notesInChords bass 2 false v1
     = Ret (Advance v2 false)
  /\ vat chords 3 = Ret 1 /\ vat notesInChords 1 = Ret tonicNotes
  /\ StrictlyAscending tonicNotes
  /\ back tonicNotes = Ret 40 /\ back (soprano v2) = Ret 42
  /\ size tonicNotes = 10
  /\ nextHigherNote tonicNotes 42 = vat tonicNotes 10
  /\ vat tonicNotes 10 = Fault
  /\ choraleStep true chords notesInChords bass 3 false v2 = Fault
  /\ canCreateChorale true chords notesInChords cleared bass = Fault.
Proof.
  cbv zeta.
  repeat match goal with |- _ /\ _ => split end;
    try reflexivity.
  ascending_closed.
Qed.

(** C10.  A closest-upward step with the leading-tone flag set need not
    find a pitch.  For the valid bass line 6, 13, 21, 8, 17, 6 in a minor
    key the chord search returns the chords 1, 5, 1, 2, 5, 1; the first
    starting voicing is rejected, and the second one, soprano 42, alto 33,
    tenor 25, moves down to the leading tone 41 on the dominant and
    resolves it to 42, which sets the flag.  At index 3 the bass falls
    from 21 to 8, the flag is set and the target is 42 - 3 = 39, but every
    pitch of the entry of chord 2 is below 39: [nextHigherNote] reads the
    element at the size of the vector, outside the vector, and the soprano
    gets no pitch of the catalog. *)
Theorem flagged_upward_step_reads_past_the_entry :
  let bass := [6; 13; 21; 8; 17; 6] in
  let chords := [1; 5; 1; 2; 5; 1] in
  let notesInChords := establishNotesInChords 6 false in
  let notes := [8; 11; 14; 20; 23; 26; 32; 35; 38] in
  let v1 := mkVoices [42; 41] [33; 32] [25; 25] in
  let v2 := mkVoices [42; 41; 42] [33; 32; 30] [25; 25; 25] in
  validBassLine false bass = true
  /\ createChordProgression false bass [] (setUpChordRels false)
     = Ret (true, chords)
  /\ tryVoicing false chords notesInChords bass cleared 30 25 21
     = Ret (false, mkVoices [30; 29] [25; 25] [21; 20])
  /\ choraleStep false chords notesInChords bass 1 false
       (mkVoices [42] [33] [25]) = Ret (Advance v1 false)
  /\ choraleStep false chords notesInChords bass 2 false v1
     = Ret (Advance v2 true)
  /\ vat bass 2 = Ret 21 /\ vat bass 3 = Ret 8
  /\ vat chords 3 = Ret 2 /\ vat notesInChords 2 = Ret notes
  /\ StrictlyAscending notes
  /\ back (soprano v2) = Ret 42
  /\ (forall pitch, In pitch notes -> pitch < 42 - 3)
  /\ size notes = 9
  /\ nextHigherNote notes (42 - 3) = vat notes 9
  /\ vat notes 9 = Fault
  /\ choraleStep false chords notesInChords bass 3 true v2 = Fault
  /\ canCreateChorale false chords notesInChords cleared bass = Fault.
Proof.
  cbv zeta.
  repeat match goal with |- _ /\ _ => split end;
    try reflexivity.
  - ascending_closed.
  - intros pitch Hin. simpl in Hin.
    repeat destruct Hin as [Hin | Hin]; try contradiction; lia.
Qed.
